(** * A shallow embedding of the spreadsheet formula core

    The development follows the TypeScript sources:
    - [types.ts]: branded cell addresses, cells, formula ASTs, results;
    - [lib/grid.ts]: the address codec ([colToLetter], [letterToCol],
      [parseAddress], [formatAddress], [getCellsInRange], [adjustReference]);
    - [lib/engine.ts]: [DependencyGraph] and [FormulaEngine].

    JavaScript exceptions are modelled by the [Completion] type; cell
    values that are numbers are IEEE binary64 floats, as in JavaScript;
    texts are strings of 8-bit characters, which hold every text the
    address functions accept.

    Column and row indices are integers ([Z]) with exact arithmetic. In
    the sources they are binary64 numbers too, and the two agree as long
    as every number computed is an integer below [2 ^ 53]: beyond it
    [parseInt] and [row + 1] round, [String(n)] changes its form and
    [row++] stops counting. The statements that depend on this arithmetic
    for indices of any size bound them by [index_limit], and those on the
    evaluation of the formulas of any sheet bound the ranges that the
    formulas name ([sheet_within]). Recursion that the
    sources leave unbounded is bounded here by a [fuel] argument, and for
    each such function a lemma shows that the bound is never the reason
    for a result. *)

From Stdlib Require Import ZArith Ascii String List Lia Bool.
From Stdlib Require Import PrimFloat Uint63.
From stdpp Require Import base gmap strings list.

Local Open Scope string_scope.
Local Open Scope Z_scope.
Local Set Warnings "-register-all,-clear-no-such-hyp".

(** ** Exceptions *)

(** A thrown [Error]: its [message], and the [code] property that only some
    throw sites attach to it. *)
Record JsError := mkError { err_code : option string; err_message : string }.

Inductive Completion (A : Type) : Type :=
| Returned (a : A)
| Thrown (e : JsError).
Arguments Returned {A} a.
Arguments Thrown {A} e.

(** [new Error(msg)] *)
Definition Error (msg : string) : JsError := mkError None msg.

Definition cbind {A B} (c : Completion A) (k : A -> Completion B) : Completion B :=
  match c with
  | Returned a => k a
  | Thrown e => Thrown e
  end.

Fixpoint cmap {A B} (f : A -> Completion B) (l : list A) : Completion (list B) :=
  match l with
  | [] => Returned []
  | x :: rest =>
      cbind (f x) (fun y => cbind (cmap f rest) (fun ys => Returned (y :: ys)))
  end.

(** ** Characters, regular-expression pieces and integer/text conversions *)

Definition charCode (c : ascii) : Z := Z.of_N (N_of_ascii c).
Definition fromCharCode (n : Z) : ascii := ascii_of_N (Z.to_N n).

Definition is_upper (c : ascii) : bool := (65 <=? charCode c) && (charCode c <=? 90).
Definition is_lower (c : ascii) : bool := (97 <=? charCode c) && (charCode c <=? 122).
Definition is_digit (c : ascii) : bool := (48 <=? charCode c) && (charCode c <=? 57).

(** The longest prefix of [s] whose characters satisfy [p], and the rest:
    what a greedy character-class repetition consumes. *)
Fixpoint span (p : ascii -> bool) (s : string) : string * string :=
  match s with
  | EmptyString => (EmptyString, EmptyString)
  | String c rest =>
      if p c then let '(a, b) := span p rest in (String c a, b)
      else (EmptyString, s)
  end.

Fixpoint string_forall (p : ascii -> bool) (s : string) : bool :=
  match s with
  | EmptyString => true
  | String c rest => p c && string_forall p rest
  end.

Fixpoint string_map (f : ascii -> ascii) (s : string) : string :=
  match s with
  | EmptyString => EmptyString
  | String c rest => String (f c) (string_map f rest)
  end.

Fixpoint string_foldl {A} (f : A -> ascii -> A) (a : A) (s : string) : A :=
  match s with
  | EmptyString => a
  | String c rest => string_foldl f (f a c) rest
  end.

(** An optional dollar sign at the head of [s]. *)
Definition opt_dollar (s : string) : string * string :=
  match s with
  | String "$"%char rest => ("$", rest)
  | _ => ("", s)
  end.

Definition is_empty (s : string) : bool :=
  match s with EmptyString => true | _ => false end.

(** [toUpperCase], on the ASCII letters. *)
Definition toUpperCase (s : string) : string :=
  string_map (fun c => if is_lower c then fromCharCode (charCode c - 32) else c) s.

(** Decimal text of an integer, as [String(n)] and template literals give
    it for the integers a binary64 number holds exactly and writes in
    full, those below [2 ^ 53] in absolute value (from [1e21] on
    [String(n)] is in exponent form). *)
Fixpoint decimal_loop (fuel : nat) (n : Z) (acc : string) : string :=
  match fuel with
  | O => acc
  | S fuel' =>
      let acc' := String (fromCharCode (n mod 10 + 48)) acc in
      if n / 10 =? 0 then acc' else decimal_loop fuel' (n / 10) acc'
  end.

Definition decimal (n : Z) : string := decimal_loop (S (Z.to_nat n)) n "".

Definition int_toString (n : Z) : string :=
  if n <? 0 then "-" ++ decimal (- n) else decimal n.

(** [parseInt] on a run of decimal digits: the integer the digits
    write. The sources get the binary64 number nearest to it, which is
    the integer itself below [2 ^ 53]. *)
Definition parseInt_step (acc : Z) (c : ascii) : Z := acc * 10 + (charCode c - 48).

Definition parseInt (digits : string) : Z := string_foldl parseInt_step 0 digits.

(** ** types.ts *)

Module Types.

(** [CellAddress] is a branded string; [toCellAddress] is the only way to
    make one and tests the text against [^[A-Z]+[0-9]+$]. *)
Abbreviation CellAddress := string (only parsing).

Definition toCellAddress (addr : string) : Completion CellAddress :=
  let '(letters, s1) := span is_upper addr in
  let '(digits, s2) := span is_digit s1 in
  if negb (is_empty letters) && negb (is_empty digits) && is_empty s2
  then Returned addr
  else Thrown (Error ("Invalid cell address format: " ++ addr)).

(** [CellValue = number | string | boolean | null] *)
Inductive CellValue :=
| VNumber (n : float)
| VString (s : string)
| VBoolean (b : bool)
| VNull.

(** The value of a literal cell: [number | string | boolean]. *)
Inductive LiteralValue :=
| LNumber (n : float)
| LString (s : string)
| LBoolean (b : bool).

Definition literal_value (v : LiteralValue) : CellValue :=
  match v with
  | LNumber n => VNumber n
  | LString s => VString s
  | LBoolean b => VBoolean b
  end.

Inductive ErrorCode := CYCLE | REF | PARSE | DIV0 | EVAL.

Definition code_text (c : ErrorCode) : string :=
  match c with
  | CYCLE => "CYCLE"
  | REF => "REF"
  | PARSE => "PARSE"
  | DIV0 => "DIV0"
  | EVAL => "EVAL"
  end.

Inductive BinOp := Add | Sub | Mul | Div | Pow | Lt | Le | Gt | Ge | Eq | Ne.

Definition op_text (op : BinOp) : string :=
  match op with
  | Add => "+" | Sub => "-" | Mul => "*" | Div => "/" | Pow => "^"
  | Lt => "<" | Le => "<=" | Gt => ">" | Ge => ">=" | Eq => "=" | Ne => "<>"
  end.

(** The [{ col: boolean; row: boolean }] objects. *)
Record AxisFlags := mkFlags { flag_col : bool; flag_row : bool }.

Inductive FormulaAst :=
| NumberLiteral (value : float)
| StringLiteral (value : string)
| BooleanLiteral (value : bool)
| CellRef (address : CellAddress) (absolute : AxisFlags)
| RangeRef (start end_ : CellAddress)
| FunctionCall (name : string) (args : list FormulaAst)
| BinaryOp (op : BinOp) (left right : FormulaAst)
| UnaryOp (operand : FormulaAst).

Inductive Cell :=
| LiteralCell (value : LiteralValue)
| FormulaCell (src : string) (ast : FormulaAst)
| ErrorCell (message : string) (code : ErrorCode).

(** A sheet; [cells] is the sparse record from addresses to cells. The
    fields the engine never reads ([computedValues], [updatedAt]) are left
    out. *)
Record Sheet := mkSheet {
  id : string;
  name : string;
  rows : Z;
  cols : Z;
  cells : gmap CellAddress Cell
}.

Record EvalError := mkEvalError { code : string; message : string }.

Record EvalResult := mkResult { value : CellValue; error : option EvalError }.

End Types.
Export Types.

(** ** lib/grid.ts *)

Module Grid.

(** The [while (col >= 0)] loop of [colToLetter]. Each round either stops
    or replaces [col] by [floor(col / 26) - 1], which is smaller; [fuel]
    bounds the number of rounds, and [colToLetter_loop_eqn] shows that the
    bound chosen in [colToLetter] is never reached. *)
Fixpoint colToLetter_loop (fuel : nat) (col : Z) (letter : string) : string :=
  match fuel with
  | O => letter
  | S fuel' =>
      if col >=? 0
      then colToLetter_loop fuel' (col / 26 - 1)
             (String (fromCharCode (Z.rem col 26 + 65)) letter)
      else letter
  end.

(** For an integer [col] below [2 ^ 53] the number [Math.floor(col / 26)]
    of the sources is the integer quotient (the rounded quotient stays
    below the next integer), so that the loop of the sources and this one
    go through the same values. *)
Definition colToLetter (col : Z) : string :=
  colToLetter_loop (Z.to_nat (col + 1)) col "".

(** One round of the loop of [letterToCol]. The numbers of the rounds
    grow, so that all of them are exact in the sources when the last
    one is below [2 ^ 53]. *)
Definition letterToCol_step (col : Z) (c : ascii) : Z :=
  col * 26 + (charCode c - 65 + 1).

Definition letterToCol (letters : string) : Z :=
  string_foldl letterToCol_step 0 letters - 1.

Record ParsedAddress := mkParsed {
  col : Z;
  row : Z;
  absoluteCol : bool;
  absoluteRow : bool
}.

(** The match of [^(\$?)([A-Z]+)(\$?)(\d+)$] against [addr]: the four
    groups, or [None] when the text does not match. Every group is greedy
    and the character classes are disjoint, so the only possible match is
    the one computed here from left to right. *)
Definition match_address (addr : string) : option (string * string * string * string) :=
  let '(dollarCol, s1) := opt_dollar addr in
  let '(letters, s2) := span is_upper s1 in
  let '(dollarRow, s3) := opt_dollar s2 in
  let '(digits, s4) := span is_digit s3 in
  if negb (is_empty letters) && negb (is_empty digits) && is_empty s4
  then Some (dollarCol, letters, dollarRow, digits)
  else None.

Definition parseAddress (addr : string) : Completion ParsedAddress :=
  match match_address addr with
  | None => Thrown (Error ("Invalid cell address: " ++ addr))
  | Some (dollarCol, letters, dollarRow, digits) =>
      Returned {| col := letterToCol letters;
                  row := parseInt digits - 1;
                  absoluteCol := String.eqb dollarCol "$";
                  absoluteRow := String.eqb dollarRow "$" |}
  end.

Definition formatAddress (col row : Z) (absoluteCol absoluteRow : bool)
  : Completion CellAddress :=
  let colPart := if absoluteCol then "$" else "" in
  let rowPart := if absoluteRow then "$" else "" in
  toCellAddress (colPart ++ colToLetter col ++ rowPart ++ int_toString (row + 1)).

(** The (row, col) pairs the two nested [for] loops of [getCellsInRange]
    go through, in order, for corners below [2 ^ 53], where [row++] and
    [col++] add one exactly, and as long as the array that the loops fill
    can hold them ([array_limit]). *)
Definition range_indices (minCol maxCol minRow maxRow : Z) : list (Z * Z) :=
  r ← seqZ minRow (maxRow - minRow + 1);
  c ← seqZ minCol (maxCol - minCol + 1);
  [(r, c)].

Definition getCellsInRange (startAddr endAddr : CellAddress)
  : Completion (list CellAddress) :=
  cbind (parseAddress startAddr) (fun start =>
  cbind (parseAddress endAddr) (fun end_ =>
    let minCol := Z.min (col start) (col end_) in
    let maxCol := Z.max (col start) (col end_) in
    let minRow := Z.min (row start) (row end_) in
    let maxRow := Z.max (row start) (row end_) in
    cmap (fun '(r, c) => formatAddress c r false false)
         (range_indices minCol maxCol minRow maxRow))).

(** The [{ row?: number; col?: number }] objects. *)
Record AxisPoint := mkPoint { at_row : option Z; at_col : option Z }.

(** The two index updates of [adjustReference] on one axis: the
    insertion test, then the deletion test on the updated index. The
    additions are those of the sources for an index below [2 ^ 53]. *)
Definition adjust_index (i : Z) (insertedAt deletedAt : option Z) (isAbsolute : bool) : Z :=
  let i :=
    match insertedAt with
    | Some p => if negb isAbsolute && (i >=? p) then i + 1 else i
    | None => i
    end in
  match deletedAt with
  | Some p => if negb isAbsolute && (i >? p) then i - 1 else i
  | None => i
  end.

Definition adjustReference (addr : CellAddress) (insertedAt deletedAt : AxisPoint)
  (isAbsolute : AxisFlags) : Completion CellAddress :=
  cbind (parseAddress addr) (fun parsed =>
    let col' := adjust_index (col parsed) (at_col insertedAt) (at_col deletedAt)
                  (flag_col isAbsolute) in
    let row' := adjust_index (row parsed) (at_row insertedAt) (at_row deletedAt)
                  (flag_row isAbsolute) in
    formatAddress col' row' (flag_col isAbsolute) (flag_row isAbsolute)).

End Grid.
Export Grid.

(** ** lib/engine.ts: the dependency graph *)

Module Graph.

(** A JavaScript [Set] of addresses: its elements without repetition, in
    insertion order (the order [forEach] and [for ... of] follow). *)
Abbreviation AddrSet := (list CellAddress) (only parsing).

Definition set_add (x : CellAddress) (s : AddrSet) : AddrSet :=
  if decide (x ∈ s) then s else (s ++ [x])%list.

Definition set_delete (x : CellAddress) (s : AddrSet) : AddrSet :=
  filter (fun y => y ≠ x) s.

(** The two private maps of the class. *)
Record DependencyGraph := mkGraph {
  dependencies : gmap CellAddress AddrSet;
  dependents : gmap CellAddress AddrSet
}.

(** [new DependencyGraph()] *)
Definition empty_graph : DependencyGraph := mkGraph ∅ ∅.

Definition addDependency (from to : CellAddress) (g : DependencyGraph) : DependencyGraph :=
  {| dependencies :=
       <[from := set_add to (default [] (dependencies g !! from))]> (dependencies g);
     dependents :=
       <[to := set_add from (default [] (dependents g !! to))]> (dependents g) |}.

(** One round of the [deps.forEach] of [removeDependencies]. *)
Definition remove_dependent (cell : CellAddress) (m : gmap CellAddress AddrSet)
  (dep : CellAddress) : gmap CellAddress AddrSet :=
  match m !! dep with
  | Some ds => <[dep := set_delete cell ds]> m
  | None => m
  end.

Definition removeDependencies (cell : CellAddress) (g : DependencyGraph) : DependencyGraph :=
  match dependencies g !! cell with
  | Some deps =>
      {| dependencies := delete cell (dependencies g);
         dependents := foldl (remove_dependent cell) (dependents g) deps |}
  | None => g
  end.

Definition getDependencies (g : DependencyGraph) (cell : CellAddress) : AddrSet :=
  default [] (dependencies g !! cell).

Definition getDependents (g : DependencyGraph) (cell : CellAddress) : AddrSet :=
  default [] (dependents g !! cell).

(** The state the closure [visit] of [getEvaluationOrder] works on. *)
Record VisitState := mkVisit { visited : gset CellAddress; result : list CellAddress }.

(** [xs.forEach(x => f(x))] for an [f] that may fail to finish. *)
Fixpoint forEach {A S} (f : A -> S -> option S) (xs : list A) (st : S) : option S :=
  match xs with
  | [] => Some st
  | x :: rest =>
      match f x st with
      | Some st' => forEach f rest st'
      | None => None
      end
  end.

(** [visit]; [None] stands for a recursion deeper than [fuel]. *)
Fixpoint visit (fuel : nat) (g : DependencyGraph) (cell : CellAddress) (st : VisitState)
  : option VisitState :=
  match fuel with
  | O => None
  | S fuel' =>
      if decide (cell ∈ visited st) then Some st
      else
        match forEach (visit fuel' g) (getDependencies g cell)
                (mkVisit ({[cell]} ∪ visited st) (result st)) with
        | Some st' => Some (mkVisit (visited st') (result st' ++ [cell])%list)
        | None => None
        end
  end.

(** [getEvaluationOrder]: the recursion depth allowed is one more than the
    number of keys of [dependencies]; [visit_returns] shows that no graph
    needs more. *)
Definition getEvaluationOrder (g : DependencyGraph) (cells : list CellAddress)
  : option (list CellAddress) :=
  result <$> forEach (visit (S (size (dependencies g))) g) cells (mkVisit ∅ []).

End Graph.
Export Graph.

(** ** lib/engine.ts: the formula engine *)

Module Engine.

(** The two library functions on numbers that the engine calls and whose
    results are not computed here: [Math.pow] and the conversion of a
    number to text. Every statement below holds for all of their
    behaviours. *)
Record Builtins := mkBuiltins {
  Math_pow : float -> float -> float;
  Number_toString : float -> string
}.

(** What [evaluateAst] returns: [CellValue | CellValue[]]. *)
Inductive EvalValue :=
| Scalar (v : CellValue)
| Range (vs : list CellValue).

(** The outcome of a computation that works on [ctx.visited]: it returns
    (leaving the set in some state), it throws, or, in this model only,
    its recursion was cut off. *)
Inductive Outcome (A : Type) : Type :=
| Done (a : A) (visited : gset CellAddress)
| Raise (e : JsError)
| OutOfFuel.
Arguments Done {A} a visited.
Arguments Raise {A} e.
Arguments OutOfFuel {A}.

Definition Eval (A : Type) : Type := gset CellAddress -> Outcome A.

Definition ret {A} (a : A) : Eval A := fun visited => Done a visited.

Definition raise {A} (e : JsError) : Eval A := fun _ => Raise e.

Definition bind {A B} (m : Eval A) (k : A -> Eval B) : Eval B :=
  fun visited =>
    match m visited with
    | Done a visited' => k a visited'
    | Raise e => Raise e
    | OutOfFuel => OutOfFuel
    end.

Definition lift {A} (c : Completion A) : Eval A :=
  match c with
  | Returned a => ret a
  | Thrown e => raise e
  end.

Fixpoint mapM {A B} (f : A -> Eval B) (l : list A) : Eval (list B) :=
  match l with
  | [] => ret []
  | x :: rest => bind (f x) (fun y => bind (mapM f rest) (fun ys => ret (y :: ys)))
  end.

Definition ensureScalar (value : EvalValue) (context : string) : Completion CellValue :=
  match value with
  | Range _ => Thrown (Error (context ++ ": ranges are not allowed here"))
  | Scalar v => Returned v
  end.

(** JavaScript truthiness of a scalar, which is what
    [condition && condition !== 0 && condition !== ""] tests. *)
Definition js_truthy (v : CellValue) : bool :=
  match v with
  | VNull => false
  | VBoolean b => b
  | VNumber n => negb (PrimFloat.is_zero n || PrimFloat.is_nan n)
  | VString s => negb (is_empty s)
  end.

(** [===] on what [evaluateAst] returns; two arrays are never the same
    object, each being built by its own [map]. *)
Definition strict_equal (a b : EvalValue) : bool :=
  match a, b with
  | Scalar (VNumber x), Scalar (VNumber y) => (x =? y)%float
  | Scalar (VString x), Scalar (VString y) => String.eqb x y
  | Scalar (VBoolean x), Scalar (VBoolean y) => Bool.eqb x y
  | Scalar VNull, Scalar VNull => true
  | _, _ => false
  end.

Definition is_string (v : EvalValue) : bool :=
  match v with Scalar (VString _) => true | _ => false end.

Definition float_of_nat (n : nat) : float := of_uint63 (Uint63.of_Z (Z.of_nat n)).

(** The loop bodies of the aggregate functions. *)
Definition add_number (sum : float) (v : CellValue) : float :=
  match v with VNumber n => (sum + n)%float | _ => sum end.

Definition sum_step (sum : float) (value : EvalValue) : float :=
  match value with
  | Range vs => foldl add_number sum vs
  | Scalar v => add_number sum v
  end.

Definition avg_number (acc : float * float) (v : CellValue) : float * float :=
  match v with
  | VNumber n => ((fst acc + n)%float, (snd acc + 1)%float)
  | _ => acc
  end.

Definition avg_step (acc : float * float) (value : EvalValue) : float * float :=
  match value with
  | Range vs => foldl avg_number acc vs
  | Scalar v => avg_number acc v
  end.

Definition min_number (min : float) (v : CellValue) : float :=
  match v with VNumber n => if (n <? min)%float then n else min | _ => min end.

Definition min_step (min : float) (value : EvalValue) : float :=
  match value with
  | Range vs => foldl min_number min vs
  | Scalar v => min_number min v
  end.

Definition max_number (max : float) (v : CellValue) : float :=
  match v with VNumber n => if (max <? n)%float then n else max | _ => max end.

Definition max_step (max : float) (value : EvalValue) : float :=
  match value with
  | Range vs => foldl max_number max vs
  | Scalar v => max_number max v
  end.

Definition not_null (v : CellValue) : bool :=
  match v with VNull => false | _ => true end.

Definition count_step (count : float) (value : EvalValue) : float :=
  match value with
  | Range vs => (count + float_of_nat (length (List.filter not_null vs)))%float
  | Scalar v => if not_null v then (count + 1)%float else count
  end.

Section Evaluator.

Context (B : Builtins) (sheet : Sheet).

(** [String(v)], also what a template literal does to [v]. *)
Definition toString (v : CellValue) : string :=
  match v with
  | VNumber n => Number_toString B n
  | VString s => s
  | VBoolean true => "true"
  | VBoolean false => "false"
  | VNull => "null"
  end.

Definition join_element (v : CellValue) : string :=
  match v with VNull => "" | _ => toString v end.

Definition toString_value (v : EvalValue) : string :=
  match v with
  | Scalar v => toString v
  | Range vs => String.concat "," (map join_element vs)
  end.

(** The [switch] of [evaluateBinaryOp] on two numbers. *)
Definition arithmetic (op : BinOp) (leftValue rightValue : float) : Completion CellValue :=
  match op with
  | Add => Returned (VNumber (leftValue + rightValue)%float)
  | Sub => Returned (VNumber (leftValue - rightValue)%float)
  | Mul => Returned (VNumber (leftValue * rightValue)%float)
  | Div =>
      if (rightValue =? 0)%float then Thrown (Error "Division by zero")
      else Returned (VNumber (leftValue / rightValue)%float)
  | Pow => Returned (VNumber (Math_pow B leftValue rightValue))
  | Lt => Returned (VBoolean (leftValue <? rightValue)%float)
  | Le => Returned (VBoolean (leftValue <=? rightValue)%float)
  | Gt => Returned (VBoolean (rightValue <? leftValue)%float)
  | Ge => Returned (VBoolean (rightValue <=? leftValue)%float)
  | Eq => Returned (VBoolean (leftValue =? rightValue)%float)
  | Ne => Returned (VBoolean (negb (leftValue =? rightValue)%float))
  end.

(** The rest of [evaluateBinaryOp], reached when an operand is not a
    number. *)
Definition non_numeric (op : BinOp) (leftValue rightValue : EvalValue) : Completion CellValue :=
  match op with
  | Add =>
      if is_string leftValue || is_string rightValue
      then Returned (VString (toString_value leftValue ++ toString_value rightValue))
      else Thrown (Error ("Invalid operation: " ++ toString_value leftValue ++ " "
                            ++ op_text op ++ " " ++ toString_value rightValue))
  | Eq => Returned (VBoolean (strict_equal leftValue rightValue))
  | Ne => Returned (VBoolean (negb (strict_equal leftValue rightValue)))
  | _ => Thrown (Error ("Invalid operation: " ++ toString_value leftValue ++ " "
                          ++ op_text op ++ " " ++ toString_value rightValue))
  end.

Section Recursion.

(** The recursive calls of [evaluateAst]. *)
Context (ev : FormulaAst -> Eval EvalValue).

Definition evaluateCellRef (address : CellAddress) : Eval CellValue :=
  fun visited =>
    if decide (address ∈ visited)
    then Raise (mkError (Some "CYCLE") "Circular reference detected")
    else
      let visited := {[address]} ∪ visited in
      match cells sheet !! address with
      | None => Done VNull visited
      | Some (LiteralCell v) => Done (literal_value v) visited
      | Some (FormulaCell _ ast) =>
          match ev ast visited with
          | Done result visited' =>
              lift (ensureScalar result "Reference to cell evaluates to range")
                   (visited' ∖ {[address]})
          | Raise e => Raise e
          | OutOfFuel => OutOfFuel
          end
      | Some (ErrorCell _ _) => Done VNull visited
      end.

(** [for (const arg of args) { const value = this.evaluateAst(arg, ctx); ... }]
    with the accumulator [acc] updated by [step]. *)
Fixpoint for_args {A} (step : A -> EvalValue -> A) (args : list FormulaAst) (acc : A)
  : Eval A :=
  match args with
  | [] => ret acc
  | arg :: rest => bind (ev arg) (fun value => for_args step rest (step acc value))
  end.

Definition evaluateFunction (name : string) (args : list FormulaAst) : Eval CellValue :=
  let upperName := toUpperCase name in
  if String.eqb upperName "SUM" then
    bind (for_args sum_step args 0%float) (fun sum => ret (VNumber sum))
  else if String.eqb upperName "AVG" || String.eqb upperName "AVERAGE" then
    bind (for_args avg_step args (0%float, 0%float)) (fun '(sum, count) =>
      ret (VNumber (if (0 <? count)%float then (sum / count)%float else 0%float)))
  else if String.eqb upperName "MIN" then
    bind (for_args min_step args infinity) (fun min =>
      ret (VNumber (if (min =? infinity)%float then 0%float else min)))
  else if String.eqb upperName "MAX" then
    bind (for_args max_step args neg_infinity) (fun max =>
      ret (VNumber (if (max =? neg_infinity)%float then 0%float else max)))
  else if String.eqb upperName "COUNT" then
    bind (for_args count_step args 0%float) (fun count => ret (VNumber count))
  else if String.eqb upperName "IF" then
    match args with
    | [arg0; arg1; arg2] =>
        bind (ev arg0) (fun c =>
        bind (lift (ensureScalar c "IF condition")) (fun condition =>
        let truthy := js_truthy condition in
        bind (ev (if truthy then arg1 else arg2)) (fun r =>
        lift (ensureScalar r "IF branch result"))))
    | _ => raise (Error "IF requires exactly 3 arguments")
    end
  else raise (Error ("Unknown function: " ++ name)).

Definition evaluateBinaryOp (op : BinOp) (left right : FormulaAst) : Eval CellValue :=
  bind (ev left) (fun leftValue =>
  bind (ev right) (fun rightValue =>
    lift match leftValue, rightValue with
         | Scalar (VNumber l), Scalar (VNumber r) => arithmetic op l r
         | _, _ => non_numeric op leftValue rightValue
         end)).

(** The [switch] of [evaluateAst]. *)
Definition evaluateAst_body (ast : FormulaAst) : Eval EvalValue :=
  match ast with
  | NumberLiteral value => ret (Scalar (VNumber value))
  | StringLiteral value => ret (Scalar (VString value))
  | BooleanLiteral value => ret (Scalar (VBoolean value))
  | CellRef address _ => bind (evaluateCellRef address) (fun v => ret (Scalar v))
  | RangeRef start end_ =>
      bind (lift (getCellsInRange start end_)) (fun cells =>
      bind (mapM evaluateCellRef cells) (fun vs => ret (Range vs)))
  | FunctionCall name args => bind (evaluateFunction name args) (fun v => ret (Scalar v))
  | BinaryOp op lhs rhs =>
      bind (evaluateBinaryOp op lhs rhs) (fun v => ret (Scalar v))
  | UnaryOp operand =>
      bind (ev operand) (fun value =>
        match value with
        | Scalar (VNumber n) => ret (Scalar (VNumber (- n)%float))
        | _ => raise (Error "Cannot negate non-number")
        end)
  end.

End Recursion.

(** [evaluateAst]: [fuel] bounds the nesting of the calls, direct or
    through a referenced cell; [evaluateAst_settles] gives a bound that no
    evaluation exceeds. *)
Fixpoint evaluateAst (fuel : nat) (ast : FormulaAst) : Eval EvalValue :=
  match fuel with
  | O => fun _ => OutOfFuel
  | S fuel' => evaluateAst_body (evaluateAst fuel') ast
  end.

(** The [catch] clause of [evaluateCell]. *)
Definition caught (e : JsError) : EvalResult :=
  {| value := VNull;
     error := Some {| code := match err_code e with
                              | Some c => if is_empty c then "EVAL" else c
                              | None => "EVAL"
                              end;
                      message := err_message e |} |}.

(** [evaluateCell] (without tracing); [None] stands for an evaluation
    that needs more than [fuel] nested calls, and by [evaluates_total]
    some [fuel] always gives a result. *)
Definition evaluateCell (fuel : nat) (address : CellAddress) : option EvalResult :=
  match cells sheet !! address with
  | None => Some {| value := VNull; error := None |}
  | Some (LiteralCell v) => Some {| value := literal_value v; error := None |}
  | Some (ErrorCell msg c) =>
      Some {| value := VNull; error := Some {| code := code_text c; message := msg |} |}
  | Some (FormulaCell _ ast) =>
      match evaluateAst fuel ast {[address]} with
      | Done (Scalar v) _ => Some {| value := v; error := None |}
      | Done (Range _) _ => Some (caught (Error "Bare range cannot be a cell value"))
      | Raise e => Some (caught e)
      | OutOfFuel => None
      end
  end.

End Evaluator.

End Engine.
Export Engine.

(** * Vocabulary of the statements *)

(** ** Addresses *)

(** What stops a greedy repetition: the end of the text or a character
    outside the class. *)
Definition stops (p : ascii -> bool) (s : string) : Prop :=
  match s with
  | EmptyString => True
  | String c _ => p c = false
  end.

(** The bound under which the statements take indices: below it every
    number the address functions compute from them (the index plus one,
    the sum of an index and an offset between two of them, the quotients
    by 26) is an integer below [2 ^ 53], hence the same in the sources
    and here. *)
Definition index_limit : Z := 2 ^ 50.

Definition within_limit (p : ParsedAddress) : Prop :=
  col p < index_limit /\ row p < index_limit.

(** The greatest length of a JavaScript array; [push] throws on an array
    that has it. *)
Definition array_limit : Z := 2 ^ 32 - 1.

(** The text [formatAddress] builds, for each choice of the two flags. *)
Definition address_text (col row : Z) (absoluteCol absoluteRow : bool) : string :=
  (if absoluteCol then "$" else "") ++ colToLetter col
    ++ (if absoluteRow then "$" else "") ++ int_toString (row + 1).

(** The index the specification's sentence on [adjustReference] gives for
    one axis: one more when an insertion point is at or before the index,
    one less when a deletion point is at or before it, nothing on a fixed
    axis. *)
Definition spec_shift (i : Z) (insertedAt deletedAt : option Z) (fixed : bool) : Z :=
  if fixed then i
  else i + match insertedAt with Some p => if p <=? i then 1 else 0 | None => 0 end
         - match deletedAt with Some p => if p <=? i then 1 else 0 | None => 0 end.

(** The index read off the code for an axis that is not fixed: one more
    when an insertion point is at or before the index, then one less when
    a deletion point is strictly before the index so obtained. *)
Definition shifted (i : Z) (insertedAt deletedAt : option Z) : Z :=
  let i1 := i + match insertedAt with Some p => if p <=? i then 1 else 0 | None => 0 end in
  i1 - match deletedAt with Some p => if p <? i1 then 1 else 0 | None => 0 end.

(** ** The dependency graph *)

(** The calls that change a [DependencyGraph]. *)
Inductive GraphCall :=
| AddDependency (from to : CellAddress)
| RemoveDependencies (cell : CellAddress).

Definition call (g : DependencyGraph) (c : GraphCall) : DependencyGraph :=
  match c with
  | AddDependency from to => addDependency from to g
  | RemoveDependencies cell => removeDependencies cell g
  end.

(** Membership in the set a map holds for a key; no element belongs to the
    set of a key the map does not have. *)
Definition member (m : gmap CellAddress AddrSet) (k x : CellAddress) : Prop :=
  match m !! k with
  | Some s => x ∈ s
  | None => False
  end.

(** The two maps are inverses of each other. *)
Definition inverse_maps (g : DependencyGraph) : Prop :=
  forall a b, member (dependencies g) a b <-> member (dependents g) b a.

(** [cell] reads [dep]: an edge of the graph [getEvaluationOrder] walks. *)
Definition reads (g : DependencyGraph) (cell dep : CellAddress) : Prop :=
  dep ∈ getDependencies g cell.

(** [x] is one of the requested cells or can be reached from one. *)
Definition reachable (g : DependencyGraph) (cells : list CellAddress) (x : CellAddress) : Prop :=
  exists c, c ∈ cells /\ rtc (reads g) c x.

(** No cell reachable from the requested ones lies on a cycle. *)
Definition acyclic_from (g : DependencyGraph) (cells : list CellAddress) : Prop :=
  forall x, reachable g cells x -> ~ tc (reads g) x x.

(** Every cell of [order] comes after all the cells it reads. *)
Definition dependencies_first (g : DependencyGraph) (order : list CellAddress) : Prop :=
  forall (i : nat) x, order !! i = Some x ->
    forall d, reads g x d -> exists j : nat, (j < i)%nat /\ order !! j = Some d.

(** What holds of the state of [getEvaluationOrder] between two calls of
    [visit], [stack] being the cells whose [visit] has started and not yet
    pushed them. *)
Record order_invariant (g : DependencyGraph) (cells stack : list CellAddress)
  (st : VisitState) : Prop := mkInvariant {
  inv_nodup : NoDup (result st);
  inv_visited : forall x, x ∈ visited st <-> x ∈ result st \/ x ∈ stack;
  inv_disjoint : forall x, x ∈ result st -> x ∉ stack;
  inv_reachable : forall x, x ∈ result st -> reachable g cells x;
  inv_closed : forall x d, x ∈ result st -> reads g x d -> d ∈ visited st;
  inv_first : forall (i : nat) x, result st !! i = Some x ->
    forall d, reads g x d ->
      (exists j : nat, (j < i)%nat /\ result st !! j = Some d) \/ tc (reads g) x x
}.

(** A sample graph: [A1] reads [B1] and [C1], which both read [D1]. *)
Definition diamond_graph : DependencyGraph :=
  addDependency "C1" "D1" (addDependency "B1" "D1"
    (addDependency "A1" "C1" (addDependency "A1" "B1" empty_graph))).

Definition diamond_rank (cell : CellAddress) : nat :=
  if String.eqb cell "A1" then 2%nat
  else if String.eqb cell "B1" || String.eqb cell "C1" then 1%nat
  else 0%nat.

(** ** Evaluation *)

(** [o'] is what [o] becomes when the recursion is allowed to go deeper:
    the same outcome, unless [o] was cut off. *)
Definition refines {A} (o o' : Outcome A) : Prop := o = OutOfFuel \/ o = o'.

(** [evaluateAst(ast, ctx)] with [ctx.visited = visited] ends with the
    outcome [out]: a return or a throw, reached at some depth. *)
Definition evaluates (B : Builtins) (sheet : Sheet) (ast : FormulaAst)
  (visited : gset CellAddress) (out : Outcome EvalValue) : Prop :=
  out <> OutOfFuel /\ exists fuel, evaluateAst B sheet fuel ast visited = out.

(** [evaluateCell(sheet, address)] returns [r]. *)
Definition cell_result (B : Builtins) (sheet : Sheet) (address : CellAddress)
  (r : EvalResult) : Prop :=
  exists fuel, evaluateCell B sheet fuel address = Some r.

(** What [ensureScalar] makes of the outcome of an evaluation. *)
Definition scalar_only (context : string) (out : Outcome EvalValue) : Outcome EvalValue :=
  match out with
  | Done (Scalar v) visited => Done (Scalar v) visited
  | Done (Range _) _ => Raise (Error (context ++ ": ranges are not allowed here"))
  | Raise e => Raise e
  | OutOfFuel => OutOfFuel
  end.

(** The error [evaluateCellRef] throws on an address already visited, and
    the result [evaluateCell] makes of it. *)
Definition cycle_error : JsError := mkError (Some "CYCLE") "Circular reference detected".

Definition cycle_result : EvalResult :=
  {| value := VNull;
     error := Some {| code := "CYCLE"; message := "Circular reference detected" |} |}.

(** The truthiness the specification's sentence on [IF] spells out: not
    null, not 0, not the empty string. *)
Definition spec_truthy (v : CellValue) : bool :=
  match v with
  | VNull => false
  | VNumber n => negb (n =? 0)%float
  | VString s => negb (is_empty s)
  | VBoolean _ => true
  end.

(** The function names whose call evaluates the arguments in order,
    from the first one. *)
Definition is_aggregate (name : string) : bool :=
  let upperName := toUpperCase name in
  String.eqb upperName "SUM" || String.eqb upperName "AVG"
  || String.eqb upperName "AVERAGE" || String.eqb upperName "MIN"
  || String.eqb upperName "MAX" || String.eqb upperName "COUNT".

(** The formula mentions the cell: it holds a reference to it, or a range
    that covers it (the specification's "a formula referencing cell"). *)
Inductive mentions : FormulaAst -> CellAddress -> Prop :=
| mentions_ref x absolute : mentions (CellRef x absolute) x
| mentions_range start end_ addresses x :
    getCellsInRange start end_ = Returned addresses -> x ∈ addresses ->
    mentions (RangeRef start end_) x
| mentions_arg name args arg x :
    arg ∈ args -> mentions arg x -> mentions (FunctionCall name args) x
| mentions_left op lhs rhs x : mentions lhs x -> mentions (BinaryOp op lhs rhs) x
| mentions_right op lhs rhs x : mentions rhs x -> mentions (BinaryOp op lhs rhs) x
| mentions_operand operand x : mentions operand x -> mentions (UnaryOp operand) x.

(** The formulas of the list, evaluated one after the other from the
    visited set [v], all return, and leave the visited set [v']. *)
Inductive returns_all (B : Builtins) (sheet : Sheet)
  : list FormulaAst -> gset CellAddress -> gset CellAddress -> Prop :=
| returns_none v : returns_all B sheet [] v v
| returns_next ast rest v value v1 v' :
    evaluates B sheet ast v (Done value v1) -> returns_all B sheet rest v1 v' ->
    returns_all B sheet (ast :: rest) v v'.

(** The evaluation of the formula from the visited set [v] comes to a
    reference to the cell [x], with the visited set [v'] by then: the
    formula is that reference; or a range that covers [x], the cells
    before it read; or an operation, an aggregate call or a conditional,
    and the evaluation of an operand, an argument, the condition or the
    branch selected comes to the reference, what stands before having
    returned. *)
Inductive reaches (B : Builtins) (sheet : Sheet)
  : FormulaAst -> gset CellAddress -> CellAddress -> gset CellAddress -> Prop :=
| reaches_ref x absolute v : reaches B sheet (CellRef x absolute) v x v
| reaches_range start end_ before x after v v' :
    getCellsInRange start end_ = Returned (before ++ x :: after)%list ->
    returns_all B sheet ((fun addr => CellRef addr (mkFlags false false)) <$> before) v v' ->
    reaches B sheet (RangeRef start end_) v x v'
| reaches_argument name before arg after v v1 x v' :
    is_aggregate name = true ->
    returns_all B sheet before v v1 -> reaches B sheet arg v1 x v' ->
    reaches B sheet (FunctionCall name (before ++ arg :: after)%list) v x v'
| reaches_condition name arg0 arg1 arg2 v x v' :
    toUpperCase name = "IF" -> reaches B sheet arg0 v x v' ->
    reaches B sheet (FunctionCall name [arg0; arg1; arg2]) v x v'
| reaches_branch name arg0 arg1 arg2 v condition v1 x v' :
    toUpperCase name = "IF" ->
    evaluates B sheet arg0 v (Done (Scalar condition) v1) ->
    reaches B sheet (if js_truthy condition then arg1 else arg2) v1 x v' ->
    reaches B sheet (FunctionCall name [arg0; arg1; arg2]) v x v'
| reaches_left op lhs rhs v x v' :
    reaches B sheet lhs v x v' -> reaches B sheet (BinaryOp op lhs rhs) v x v'
| reaches_right op lhs rhs v value v1 x v' :
    evaluates B sheet lhs v (Done value v1) -> reaches B sheet rhs v1 x v' ->
    reaches B sheet (BinaryOp op lhs rhs) v x v'
| reaches_operand operand v x v' :
    reaches B sheet operand v x v' -> reaches B sheet (UnaryOp operand) v x v'.


(** The nesting depth of a formula, and the greatest depth among the
    formulas of a sheet: the measures of the recursion of [evaluateAst]. *)
Fixpoint depth (ast : FormulaAst) : nat :=
  match ast with
  | FunctionCall _ args => S (foldr (fun arg n => Nat.max (depth arg) n) 0%nat args)
  | BinaryOp _ lhs rhs => S (Nat.max (depth lhs) (depth rhs))
  | UnaryOp operand => S (depth operand)
  | _ => 1%nat
  end.

Definition cell_depth (cell : Cell) : nat :=
  match cell with
  | FormulaCell _ ast => depth ast
  | _ => 0%nat
  end.

Definition max_depth (sheet : Sheet) : nat :=
  list_max ((fun entry => cell_depth (snd entry)) <$> map_to_list (cells sheet)).

(** The cells of the sheet not in the visited set. *)
Definition unvisited (sheet : Sheet) (visited : gset CellAddress) : nat :=
  size (dom (cells sheet) ∖ visited).

(** A recursion depth that the evaluation of [ast] cannot exhaust. *)
Definition enough (sheet : Sheet) (ast : FormulaAst) (visited : gset CellAddress) : nat :=
  (depth ast + unvisited sheet visited * S (max_depth sheet))%nat.

(** The outcome is a return that kept in the visited set all that was in
    it, or a throw. *)
Definition settled {A} (visited : gset CellAddress) (o : Outcome A) : Prop :=
  match o with
  | Done _ visited' => visited ⊆ visited'
  | Raise _ => True
  | OutOfFuel => False
  end.

(** ** Sample sheets and formulas *)

Definition relative : AxisFlags := mkFlags false false.

Definition sheet_of (l : list (CellAddress * Cell)) : Sheet :=
  mkSheet "s1" "Sheet" 20 10 (list_to_map l).

(** [A1 = B1 + C1] where [B1] and [C1] both hold [=D1], over a cell
    [D1]: a diamond, without any cycle. *)
Definition diamond_over (shared : list (CellAddress * Cell)) : Sheet :=
  sheet_of ([("A1", FormulaCell "=B1+C1"
                     (BinaryOp Add (CellRef "B1" relative) (CellRef "C1" relative)));
             ("B1", FormulaCell "=D1" (CellRef "D1" relative));
             ("C1", FormulaCell "=D1" (CellRef "D1" relative))] ++ shared)%list.

Definition diamond_literal_sheet : Sheet :=
  diamond_over [("D1", LiteralCell (LNumber 5))].

Definition diamond_formula_sheet : Sheet :=
  diamond_over [("D1", FormulaCell "=5" (NumberLiteral 5))].

Definition diamond_error_sheet : Sheet :=
  diamond_over [("D1", ErrorCell "Invalid formula: =(" PARSE)].

Definition diamond_empty_sheet : Sheet := diamond_over [].

(** [A1 = 1/0] *)
Definition division_sheet : Sheet :=
  sheet_of [("A1", FormulaCell "=1/0" (BinaryOp Div (NumberLiteral 1) (NumberLiteral 0)))].

(** [A1 = SUM(B1, 1)] and [B1 = A1 + 1]. *)
Definition mutual_sum_sheet : Sheet :=
  sheet_of [("A1", FormulaCell "=SUM(B1,1)"
                     (FunctionCall "SUM" [CellRef "B1" relative; NumberLiteral 1]));
            ("B1", FormulaCell "=A1+1" (BinaryOp Add (CellRef "A1" relative) (NumberLiteral 1)))].

(** [A1 = 1 + B1] and [B1 = SUM(1, A1)]: each reference stands second. *)
Definition late_mutual_sheet : Sheet :=
  sheet_of [("A1", FormulaCell "=1+B1" (BinaryOp Add (NumberLiteral 1) (CellRef "B1" relative)));
            ("B1", FormulaCell "=SUM(1,A1)"
                     (FunctionCall "SUM" [NumberLiteral 1; CellRef "A1" relative]))].

(** [A1] mentions [B1] in the branch its condition does not select, and
    [B1] reads [A1]. *)
Definition guarded_sheet : Sheet :=
  sheet_of [("A1", FormulaCell "=IF(1>0,5,B1)"
                     (FunctionCall "IF" [BinaryOp Gt (NumberLiteral 1) (NumberLiteral 0);
                                         NumberLiteral 5; CellRef "B1" relative]));
            ("B1", FormulaCell "=A1" (CellRef "A1" relative))].

(** An error cell [E1], a reference to it and a sum over a range that
    covers it. *)
Definition error_sheet : Sheet :=
  sheet_of [("A1", FormulaCell "=E1" (CellRef "E1" relative));
            ("A2", FormulaCell "=SUM(D1:E2)" (FunctionCall "SUM" [RangeRef "D1" "E2"]));
            ("D1", LiteralCell (LNumber 5));
            ("E1", ErrorCell "Invalid formula: =(" PARSE);
            ("D2", LiteralCell (LNumber 2.5));
            ("E2", LiteralCell (LString "x"))].

(** [A1] divides by zero before it comes to its reference to [B1], and
    [B1] reads [A1]. *)
Definition early_throw_sheet : Sheet :=
  sheet_of [("A1", FormulaCell "=1/0+B1"
                     (BinaryOp Add (BinaryOp Div (NumberLiteral 1) (NumberLiteral 0))
                                   (CellRef "B1" relative)));
            ("B1", FormulaCell "=A1" (CellRef "A1" relative))].

(** An error cell [E1] and a formula that reads it twice. *)
Definition twice_sheet : Sheet :=
  sheet_of [("A1", FormulaCell "=E1+E1"
                     (BinaryOp Add (CellRef "E1" relative) (CellRef "E1" relative)));
            ("E1", ErrorCell "Invalid formula: =(" PARSE)].

(** The conditionals of the specification's examples, and one whose
    unselected argument would throw. *)
Definition if_yes_no : FormulaAst :=
  FunctionCall "IF" [BinaryOp Gt (NumberLiteral 1) (NumberLiteral 0);
                     StringLiteral "yes"; StringLiteral "no"].

Definition if_unequal : FormulaAst :=
  FunctionCall "IF" [BinaryOp Ne (NumberLiteral 3) (NumberLiteral 3);
                     NumberLiteral 1; NumberLiteral 2].

Definition if_guarded : FormulaAst :=
  FunctionCall "IF" [BooleanLiteral false;
                     BinaryOp Div (NumberLiteral 1) (NumberLiteral 0); NumberLiteral 2].

(** * The rest of the address codec *)

(** ** types.ts: the second pair of conversions *)

Module TypesRest.

(** [parseCellAddress]: the match of [^([A-Z]+)([0-9]+)$], then the same
    arithmetic as [letterToCol] and [parseInt], written out in place. *)
Definition parseCellAddress (addr : CellAddress) : Completion (Z * Z) :=
  let '(letters, s1) := span is_upper addr in
  let '(digits, s2) := span is_digit s1 in
  if negb (is_empty letters) && negb (is_empty digits) && is_empty s2
  then
    let col := string_foldl (fun col c => col * 26 + (charCode c - 65 + 1)) 0 letters in
    let col := col - 1 in
    let row := parseInt digits - 1 in
    Returned (col, row)
  else Thrown (Error ("Invalid cell address: " ++ addr)).

(** The [while (colNum >= 0)] loop of [formatCellAddress]. *)
Fixpoint formatCellAddress_loop (fuel : nat) (colNum : Z) (letters : string) : string :=
  match fuel with
  | O => letters
  | S fuel' =>
      if colNum >=? 0
      then formatCellAddress_loop fuel' (colNum / 26 - 1)
             (String (fromCharCode (Z.rem colNum 26 + 65)) letters)
      else letters
  end.

Definition formatCellAddress (col row : Z) : Completion CellAddress :=
  let letters := formatCellAddress_loop (Z.to_nat (col + 1)) col "" in
  let rowStr := int_toString (row + 1) in
  toCellAddress (letters ++ rowStr).

Definition isFormula (cell : Cell) : bool :=
  match cell with FormulaCell _ _ => true | _ => false end.

End TypesRest.
Export TypesRest.

(** ** lib/grid.ts: ranges, bounds and neighbours *)

Module GridRest.

(** [s.split(":")]: the pieces between the colons, one more than there are
    colons. *)
Fixpoint split_colon (s : string) : list string :=
  match s with
  | EmptyString => [EmptyString]
  | String c rest =>
      if Ascii.eqb c ":"%char then EmptyString :: split_colon rest
      else match split_colon rest with
           | piece :: pieces => String c piece :: pieces
           | [] => [String c EmptyString]
           end
  end.

(** The white space [trim] removes, among the 8-bit characters: tab, line
    feed, vertical tab, form feed, carriage return, space and no-break
    space. *)
Definition is_space (c : ascii) : bool :=
  let n := charCode c in
  ((9 <=? n) && (n <=? 13)) || (n =? 32) || (n =? 160).

Fixpoint trim_start (s : string) : string :=
  match s with
  | EmptyString => EmptyString
  | String c rest => if is_space c then trim_start rest else s
  end.

Fixpoint trim_end (s : string) : string :=
  match s with
  | EmptyString => EmptyString
  | String c rest =>
      let rest' := trim_end rest in
      if is_space c && is_empty rest' then EmptyString else String c rest'
  end.

Definition trim (s : string) : string := trim_end (trim_start s).

Record RangeEnds := mkEnds { range_start : CellAddress; range_end : CellAddress }.

Definition parseRange (range : string) : Completion RangeEnds :=
  match split_colon range with
  | [part0; part1] =>
      cbind (toCellAddress (trim part0)) (fun s =>
      cbind (toCellAddress (trim part1)) (fun e =>
        Returned {| range_start := s; range_end := e |}))
  | _ => Thrown (Error ("Invalid range: " ++ range))
  end.

(** [isValidAddress]: the [catch] turns a failed parse into [false]. *)
Definition isValidAddress (addr : CellAddress) (maxRows maxCols : Z) : bool :=
  match parseAddress addr with
  | Returned parsed =>
      (col parsed >=? 0) && (col parsed <? maxCols)
      && (row parsed >=? 0) && (row parsed <? maxRows)
  | Thrown _ => false
  end.

Inductive Direction := Up | Down | Left | Right.

(** [getNeighbor]; [None] is the [null] returned at an edge. *)
Definition getNeighbor (addr : CellAddress) (direction : Direction) (maxRows maxCols : Z)
  : Completion (option CellAddress) :=
  cbind (parseAddress addr) (fun parsed =>
    let col := col parsed in
    let row := row parsed in
    let moved :=
      match direction with
      | Up => if row >? 0 then Some (col, row - 1) else None
      | Down => if row <? maxRows - 1 then Some (col, row + 1) else None
      | Left => if col >? 0 then Some (col - 1, row) else None
      | Right => if col <? maxCols - 1 then Some (col + 1, row) else None
      end in
    match moved with
    | Some (col, row) => cbind (formatAddress col row false false) (fun a => Returned (Some a))
    | None => Returned None
    end).

(** The attempt of [(\$?)([A-Z]+)(\$?)(\d+)] at the head of [s]: the four
    groups and what follows the match. As in [match_address], each group
    can only take its longest run. *)
Definition match_reference (s : string)
  : option (string * string * string * string * string) :=
  let '(dollarCol, s1) := opt_dollar s in
  let '(letters, s2) := span is_upper s1 in
  let '(dollarRow, s3) := opt_dollar s2 in
  let '(digits, rest) := span is_digit s3 in
  if negb (is_empty letters) && negb (is_empty digits)
  then Some (dollarCol, letters, dollarRow, digits, rest)
  else None.

(** The callback [transformFormula] gives to [replace]. *)
Definition translate_reference (colOffset rowOffset : Z)
  (dollarCol letters dollarRow digits : string) : string :=
  if negb (is_empty dollarCol) && negb (is_empty dollarRow)
  then dollarCol ++ letters ++ dollarRow ++ digits
  else
    let col := letterToCol letters in
    let row := parseInt digits - 1 in
    let col := if is_empty dollarCol then col + colOffset else col in
    let row := if is_empty dollarRow then row + rowOffset else row in
    if (col <? 0) || (row <? 0) then "#REF!"
    else dollarCol ++ colToLetter col ++ dollarRow ++ int_toString (row + 1).

(** [formula.replace(/.../g, callback)]: the text is scanned from the
    left; where the pattern matches, the match is replaced and the scan
    goes on after it; elsewhere one character is copied. [skip] counts
    the characters of the current match still to pass over. *)
Fixpoint replace_references (colOffset rowOffset : Z) (skip : nat) (s : string) : string :=
  match s with
  | EmptyString => EmptyString
  | String c rest =>
      match skip with
      | S skip' => replace_references colOffset rowOffset skip' rest
      | O =>
          match match_reference s with
          | Some (dollarCol, letters, dollarRow, digits, after) =>
              translate_reference colOffset rowOffset dollarCol letters dollarRow digits
                ++ replace_references colOffset rowOffset
                     (String.length s - String.length after - 1) rest
          | None => String c (replace_references colOffset rowOffset 0 rest)
          end
      end
  end.

Definition transformFormula (formula : string) (fromCell toCell : CellAddress)
  : Completion string :=
  cbind (parseAddress fromCell) (fun from =>
  cbind (parseAddress toCell) (fun to =>
    let colOffset := col to - col from in
    let rowOffset := row to - row from in
    Returned (replace_references colOffset rowOffset 0 formula))).

End GridRest.
Export GridRest.

(** ** Vocabulary of the statements on the rest of the codec *)

(** The index pair lies in the rectangle spanned by two parsed corners. *)
Definition in_rectangle (pa pb : ParsedAddress) (c r : Z) : Prop :=
  Z.min (col pa) (col pb) <= c <= Z.max (col pa) (col pb)
  /\ Z.min (row pa) (row pb) <= r <= Z.max (row pa) (row pb).

(** Two pairs of corners span the same rectangle. *)
Definition same_rectangle (pa pb pa' pb' : ParsedAddress) : Prop :=
  Z.min (col pa) (col pb) = Z.min (col pa') (col pb')
  /\ Z.max (col pa) (col pb) = Z.max (col pa') (col pb')
  /\ Z.min (row pa) (row pb) = Z.min (row pa') (row pb')
  /\ Z.max (row pa) (row pb) = Z.max (row pa') (row pb').

(** The row text of an address, and whether it is the text [String]
    gives for its number: no zero before another digit. *)
Definition row_text (addr : string) : string :=
  match match_address addr with
  | Some (_, _, _, digits) => digits
  | None => ""
  end.

Definition canonical_digits (digits : string) : bool :=
  match digits with
  | String "0"%char (String _ _) => false
  | _ => true
  end.

(** The indices one cell away, the direction back, and the edge of the
    sheet on one side. *)
Definition step (direction : Direction) (c r : Z) : Z * Z :=
  match direction with
  | Up => (c, r - 1)
  | Down => (c, r + 1)
  | Left => (c - 1, r)
  | Right => (c + 1, r)
  end.

Definition opposite (direction : Direction) : Direction :=
  match direction with
  | Up => Down
  | Down => Up
  | Left => Right
  | Right => Left
  end.

Definition at_edge (direction : Direction) (c r maxRows maxCols : Z) : Prop :=
  match direction with
  | Up => r = 0
  | Down => r = maxRows - 1
  | Left => c = 0
  | Right => c = maxCols - 1
  end.

(** A run of white space. *)
Definition spaces (w : string) : Prop := string_forall is_space w = true.

(** A formula text cut into pieces: references, as [formatAddress] writes
    them, and the text between them. *)
Inductive Piece :=
| Plain (text : string)
| Reference (col row : Z) (absoluteCol absoluteRow : bool).

Definition piece_text (p : Piece) : string :=
  match p with
  | Plain text => text
  | Reference c r ac ar => address_text c r ac ar
  end.

Definition formula_text (pieces : list Piece) : string :=
  foldr (fun p text => piece_text p ++ text) "" pieces.

(** The reference moved by the offsets on its axes without dollar sign;
    [#REF!] when it leaves the sheet; itself when both axes are fixed. *)
Definition translated_text (colOffset rowOffset : Z) (p : Piece) : string :=
  match p with
  | Plain text => text
  | Reference c r ac ar =>
      if ac && ar then address_text c r true true
      else
        let c' := if ac then c else c + colOffset in
        let r' := if ar then r else r + rowOffset in
        if (c' <? 0) || (r' <? 0) then "#REF!" else address_text c' r' ac ar
  end.

(** No reference can start at the head of [s], whatever text follows [s]:
    the capital letters at its head, if any, end inside [s] and are not
    followed by a digit. *)
Definition blocked (s : string) : bool :=
  let '(_, s1) := opt_dollar s in
  let '(letters, s2) := span is_upper s1 in
  if is_empty s2 then false
  else if is_empty letters then true
  else
    let '(_, s3) := opt_dollar s2 in
    match s3 with
    | EmptyString => false
    | String c _ => negb (is_digit c)
    end.

(** No reference starts anywhere in the text. *)
Fixpoint inert (text : string) : bool :=
  match text with
  | EmptyString => true
  | String _ rest => blocked text && inert rest
  end.

(** The pieces are what the scan of [transformFormula] sees: the plain
    ones hold no reference, and no digit follows a reference; the indices
    of the references are those of a sheet, below [index_limit]. *)
Fixpoint well_split (pieces : list Piece) : Prop :=
  match pieces with
  | [] => True
  | Plain text :: rest => inert text = true /\ well_split rest
  | Reference c r _ _ :: rest =>
      0 <= c < index_limit /\ 0 <= r < index_limit
      /\ stops is_digit (formula_text rest) /\ well_split rest
  end.

(** The pieces after the transformation, joined. *)
Definition transformed_text (colOffset rowOffset : Z) (pieces : list Piece) : string :=
  foldr (fun p text => translated_text colOffset rowOffset p ++ text) "" pieces.

(** * The rest of the engine *)

(** ** lib/engine.ts: the cycle test of the graph *)

Module GraphRest.

(** The two sets the closure [dfs] of [hasCycle] works on: [visited] and
    [stack]. *)
Record SearchState := mkSearch {
  dfs_visited : gset CellAddress;
  dfs_stack : gset CellAddress
}.

(** The [for (const dep of deps)] loop of [dfs], which returns at the
    first dependency that is [from] or whose search answers [true]. *)
Fixpoint some_dep (dfs : CellAddress -> SearchState -> option (bool * SearchState))
  (from : CellAddress) (deps : list CellAddress) (st : SearchState)
  : option (bool * SearchState) :=
  match deps with
  | [] => Some (false, st)
  | dep :: rest =>
      if decide (dep = from) then Some (true, st)
      else
        match dfs dep st with
        | Some (true, st') => Some (true, st')
        | Some (false, st') => some_dep dfs from rest st'
        | None => None
        end
  end.

(** [dfs]; [None] stands for a recursion deeper than [fuel]. *)
Fixpoint dfs (fuel : nat) (g : DependencyGraph) (from cell : CellAddress) (st : SearchState)
  : option (bool * SearchState) :=
  match fuel with
  | O => None
  | S fuel' =>
      if decide (cell ∈ dfs_stack st) then Some (true, st)
      else if decide (cell ∈ dfs_visited st) then Some (false, st)
      else
        match some_dep (dfs fuel' g from) from (getDependencies g cell)
                (mkSearch ({[cell]} ∪ dfs_visited st) ({[cell]} ∪ dfs_stack st)) with
        | Some (true, st') => Some (true, st')
        | Some (false, st') =>
            Some (false, mkSearch (dfs_visited st') (dfs_stack st' ∖ {[cell]}))
        | None => None
        end
  end.

(** [hasCycle]: as for [getEvaluationOrder], the depth allowed is one more
    than the number of keys of [dependencies], which [dfs_returns] shows
    to be enough. *)
Definition hasCycle (g : DependencyGraph) (from to : CellAddress) : option bool :=
  if decide (from = to) then Some true
  else fst <$> dfs (S (size (dependencies g))) g from to (mkSearch ∅ ∅).

End GraphRest.
Export GraphRest.

(** ** lib/engine.ts: the engine and its graph *)

Module EngineRest.

(** A JavaScript [Map] from addresses: its entries in insertion order;
    [set] on a key it has replaces the value in place. *)
Fixpoint map_set {V} (k : CellAddress) (v : V) (m : list (CellAddress * V))
  : list (CellAddress * V) :=
  match m with
  | [] => [(k, v)]
  | (k', v') :: rest =>
      if decide (k' = k) then (k, v) :: rest else (k', v') :: map_set k v rest
  end.

(** The state of a [FormulaEngine]: its private [depGraph]. *)
Record FormulaEngine := mkEngine { depGraph : DependencyGraph }.

(** [new FormulaEngine()], the singleton [engine]. *)
Definition engine : FormulaEngine := mkEngine empty_graph.

Section Sheets.

Context (B : Builtins).

(** The first loop of [evaluateSheet], over [Object.entries(sheet.cells)]. *)
Definition formula_cells (entries : list (CellAddress * Cell)) : list CellAddress :=
  (filter (fun entry => isFormula (snd entry) = true) entries).*1.

(** [evaluateSheet]; [entries] is [Object.entries(sheet.cells)], whose
    order is the one the cells were stored in, and [fuel] the depth
    allowed to each [evaluateCell]. *)
Definition evaluateSheet (fuel : nat) (this : FormulaEngine) (sheet : Sheet)
  (entries : list (CellAddress * Cell)) : option (list (CellAddress * EvalResult)) :=
  let formulaCells := formula_cells entries in
  match getEvaluationOrder (depGraph this) formulaCells with
  | None => None
  | Some order =>
      forEach (fun addr results =>
                 match evaluateCell B sheet fuel addr with
                 | Some result => Some (map_set addr result results)
                 | None => None
                 end)
              order []
  end.

(** [updateCell]: the sheet with the cell stored, and the engine. The
    results of the [evaluateCell] calls of the last loop are dropped, as
    in the source. *)
Definition updateCell (fuel : nat) (this : FormulaEngine) (sheet : Sheet)
  (address : CellAddress) (cell : Cell) : option (FormulaEngine * Sheet) :=
  let sheet' :=
    mkSheet (id sheet) (name sheet) (rows sheet) (cols sheet)
      (<[address := cell]> (cells sheet)) in
  let this' :=
    if isFormula cell then mkEngine (removeDependencies address (depGraph this))
    else this in
  let affected := getDependents (depGraph this') address in
  match forEach (fun addr (_ : unit) =>
                   match evaluateCell B sheet' fuel addr with
                   | Some _ => Some tt
                   | None => None
                   end)
                affected tt with
  | Some _ => Some (this', sheet')
  | None => None
  end.

End Sheets.

End EngineRest.
Export EngineRest.

(** ** Vocabulary of the statements on the engine *)

(** What [hasCycle] looks for below [to]: a path of one edge or more to
    [from], or a cell on a cycle. *)
Definition closes_cycle (g : DependencyGraph) (from to : CellAddress) : Prop :=
  from = to \/ tc (reads g) to from
  \/ exists c, rtc (reads g) to c /\ tc (reads g) c c.

(** A range that [getCellsInRange] can list: a corner is refused by
    [parseAddress], or both have indices below [index_limit] and the
    rectangle has no more cells than an array holds. The counters of the
    loops over it count exactly and pass the far corner. (Above [2 ^ 53]
    a counter that [row++] no longer changes keeps the loop of the
    sources going for ever.) *)
Definition range_within (start end_ : CellAddress) : bool :=
  match parseAddress start, parseAddress end_ with
  | Returned p, Returned q =>
      (col p <? index_limit) && (row p <? index_limit)
      && (col q <? index_limit) && (row q <? index_limit)
      && ((Z.abs (col p - col q) + 1) * (Z.abs (row p - row q) + 1) <=? array_limit)
  | _, _ => true
  end.

(** The ranges of the formula are such ranges. *)
Fixpoint ranges_within (ast : FormulaAst) : bool :=
  match ast with
  | RangeRef start end_ => range_within start end_
  | FunctionCall _ args => forallb ranges_within args
  | BinaryOp _ lhs rhs => ranges_within lhs && ranges_within rhs
  | UnaryOp operand => ranges_within operand
  | _ => true
  end.

(** So have the ranges of every formula the sheet holds. *)
Definition sheet_within (sheet : Sheet) : bool :=
  forallb (fun entry =>
             match entry.2 with
             | FormulaCell _ ast => ranges_within ast
             | _ => true
             end)
          (map_to_list (cells sheet)).

(** [entries] lists the cells of the sheet, each once, in some order. *)
Definition entries_of (sheet : Sheet) (entries : list (CellAddress * Cell)) : Prop :=
  entries ≡ₚ map_to_list (cells sheet).

(** The sheet holds a formula at the address. *)
Definition holds_formula (sheet : Sheet) (addr : CellAddress) : Prop :=
  exists src ast, cells sheet !! addr = Some (FormulaCell src ast).

(** [evaluateSheet(sheet)] returns [results]. *)
Definition sheet_results (B : Builtins) (this : FormulaEngine) (sheet : Sheet)
  (entries : list (CellAddress * Cell)) (results : list (CellAddress * EvalResult)) : Prop :=
  exists fuel, evaluateSheet B fuel this sheet entries = Some results.

(** A sequence of [updateCell] calls, each on the engine and the sheet the
    one before left. *)
Fixpoint updates (B : Builtins) (fuel : nat) (edits : list (CellAddress * Cell))
  (this : FormulaEngine) (sheet : Sheet) : option (FormulaEngine * Sheet) :=
  match edits with
  | [] => Some (this, sheet)
  | (address, cell) :: rest =>
      match updateCell B fuel this sheet address cell with
      | Some (this', sheet') => updates B fuel rest this' sheet'
      | None => None
      end
  end.

(** The calls recorded [b] as a dependency of [a] and did not remove the
    dependencies of [a] afterwards. *)
Definition recorded (calls : list GraphCall) (a b : CellAddress) : Prop :=
  exists before after,
    calls = (before ++ AddDependency a b :: after)%list
    /\ RemoveDependencies a ∉ after.


(** What [throw] statements of the engine throw: the error of the cycle
    check, which carries the code [CYCLE], or an [Error] without code. *)
Definition cycle_or_plain (e : JsError) : Prop := e = cycle_error \/ err_code e = None.

(** The outcome, if a throw, is one of those. *)
Definition throws_plainly {A} (o : Outcome A) : Prop :=
  match o with
  | Raise e => cycle_or_plain e
  | _ => True
  end.

(** The completion, if a throw, is an [Error] without code. *)
Definition fails_plainly {A} (c : Completion A) : Prop :=
  match c with
  | Thrown e => err_code e = None
  | Returned _ => True
  end.

(** * The formula parser *)

(** ** lib/parser.ts *)

Module Parsing.

Inductive TokenType :=
| NUMBER | STRING | CELL_REF | RANGE | FUNCTION | OPERATOR
| LPAREN | RPAREN | COMMA | COLON | EOF.

#[global] Instance TokenType_eq_dec : EqDecision TokenType.
Proof. solve_decision. Defined.

(** The name of the type, as a template literal prints it. *)
Definition type_text (t : TokenType) : string :=
  match t with
  | NUMBER => "NUMBER" | STRING => "STRING" | CELL_REF => "CELL_REF"
  | RANGE => "RANGE" | FUNCTION => "FUNCTION" | OPERATOR => "OPERATOR"
  | LPAREN => "LPAREN" | RPAREN => "RPAREN" | COMMA => "COMMA"
  | COLON => "COLON" | EOF => "EOF"
  end.

Record Token := mkToken { type : TokenType; value : string; pos : nat }.

(** The state of a [Lexer]: [pos], and the part of [input] from [pos]
    on. *)
Record Lexer := mkLexer { rest : string; lexer_pos : nat }.

(** [new Lexer(input)]: a leading [=] is dropped. *)
Definition new_Lexer (input : string) : Lexer :=
  match input with
  | String "="%char s => mkLexer s 0
  | _ => mkLexer input 0
  end.

Definition quote : ascii := "034"%char.

(** [/[A-Za-z]/], [/[\d.]/] and the characters of ["+-*/^<>="]. *)
Definition is_letter (c : ascii) : bool := is_upper c || is_lower c.

Definition is_number_char (c : ascii) : bool := is_digit c || Ascii.eqb c ".".

Definition is_operator_char (c : ascii) : bool :=
  Ascii.eqb c "+" || Ascii.eqb c "-" || Ascii.eqb c "*" || Ascii.eqb c "/"
  || Ascii.eqb c "^" || Ascii.eqb c "<" || Ascii.eqb c ">" || Ascii.eqb c "=".

(** The second character of a two-character operator. *)
Definition completes (char nextChar : ascii) : bool :=
  (Ascii.eqb char "<" && (Ascii.eqb nextChar "=" || Ascii.eqb nextChar ">"))
  || (Ascii.eqb char ">" && Ascii.eqb nextChar "=").

Definition char_text (c : ascii) : string := String c EmptyString.

(** [nextToken]: the token, and the lexer after it. *)
Definition nextToken (this : Lexer) : Token * Lexer :=
  let '(blank, s) := span is_space (rest this) in
  let startPos := (lexer_pos this + String.length blank)%nat in
  match s with
  | EmptyString => (mkToken EOF "" startPos, mkLexer s startPos)
  | String char s1 =>
      if is_operator_char char then
        match s1 with
        | String nextChar s2 =>
            if completes char nextChar
            then (mkToken OPERATOR (String char (char_text nextChar)) startPos,
                  mkLexer s2 (startPos + 2))
            else (mkToken OPERATOR (char_text char) startPos, mkLexer s1 (startPos + 1))
        | EmptyString =>
            (mkToken OPERATOR (char_text char) startPos, mkLexer s1 (startPos + 1))
        end
      else if Ascii.eqb char "(" then
        (mkToken LPAREN "(" startPos, mkLexer s1 (startPos + 1))
      else if Ascii.eqb char ")" then
        (mkToken RPAREN ")" startPos, mkLexer s1 (startPos + 1))
      else if Ascii.eqb char "," then
        (mkToken COMMA "," startPos, mkLexer s1 (startPos + 1))
      else if Ascii.eqb char ":" then
        (mkToken COLON ":" startPos, mkLexer s1 (startPos + 1))
      else if Ascii.eqb char quote then
        let '(text, s2) := span (fun c => negb (Ascii.eqb c quote)) s1 in
        match s2 with
        | String _ s3 =>
            (mkToken STRING text startPos, mkLexer s3 (startPos + String.length text + 2))
        | EmptyString =>
            (mkToken STRING text startPos, mkLexer s2 (startPos + String.length text + 1))
        end
      else if is_digit char
              || (Ascii.eqb char "."
                  && match s1 with String c _ => is_digit c | EmptyString => false end) then
        let '(text, s2) := span is_number_char s in
        (mkToken NUMBER text startPos, mkLexer s2 (startPos + String.length text))
      else if is_letter char then
        let '(letters, s2) := span is_letter s in
        let name := toUpperCase letters in
        let after := (startPos + String.length letters)%nat in
        match s2 with
        | String c _ =>
            if is_digit c then
              let '(digits, s3) := span is_digit s2 in
              (mkToken CELL_REF (name ++ digits) startPos,
               mkLexer s3 (after + String.length digits))
            else if Ascii.eqb c "(" then (mkToken FUNCTION name startPos, mkLexer s2 after)
            else (mkToken CELL_REF name startPos, mkLexer s2 after)
        | EmptyString => (mkToken CELL_REF name startPos, mkLexer s2 after)
        end
      else (mkToken EOF (char_text char) startPos, mkLexer s1 (startPos + 1))
  end.

(** [peek]: the position is put back. *)
Definition peek (this : Lexer) : Token * Lexer := (fst (nextToken this), this).

(** The table [PRECEDENCE], with the [|| 0] of its one use. *)
Definition PRECEDENCE (op : string) : Z :=
  if String.eqb op "=" || String.eqb op "<>" then 1
  else if String.eqb op "<" || String.eqb op "<=" || String.eqb op ">"
          || String.eqb op ">=" then 2
  else if String.eqb op "+" || String.eqb op "-" then 3
  else if String.eqb op "*" || String.eqb op "/" then 4
  else if String.eqb op "^" then 5
  else 0.

(** The operator a token names. The source stores the text of the token
    in the tree ([op as any]); the tree of [types.ts] has one of eleven
    operators there, and [nextToken_operator] shows that the lexer makes
    no other. *)
Definition operator (text : string) : option BinOp :=
  if String.eqb text "+" then Some Add
  else if String.eqb text "-" then Some Sub
  else if String.eqb text "*" then Some Mul
  else if String.eqb text "/" then Some Div
  else if String.eqb text "^" then Some Pow
  else if String.eqb text "<" then Some Lt
  else if String.eqb text "<=" then Some Le
  else if String.eqb text ">" then Some Gt
  else if String.eqb text ">=" then Some Ge
  else if String.eqb text "=" then Some Eq
  else if String.eqb text "<>" then Some Ne
  else None.

(** The state of a [Parser]. *)
Record Parser := mkParser { lexer : Lexer; current : Token }.

(** [new Parser(input)] *)
Definition new_Parser (input : string) : Parser :=
  let '(token, lx) := nextToken (new_Lexer input) in mkParser lx token.

Definition advance (this : Parser) : Parser :=
  let '(token, lx) := nextToken (lexer this) in mkParser lx token.

Definition expect (t : TokenType) (this : Parser) : Completion Parser :=
  if decide (type (current this) = t) then Returned (advance this)
  else Thrown (Error ("Expected " ++ type_text t ++ " but got "
                        ++ type_text (type (current this)))).

(** How a method of the parser ends: it returns, leaving the parser in
    some state, it throws, or, in this model only, its recursion was cut
    off. *)
Inductive Run (A : Type) : Type :=
| Parsed (a : A) (this : Parser)
| Failed (e : JsError)
| CutOff.
Arguments Parsed {A} a this.
Arguments Failed {A} e.
Arguments CutOff {A}.

Definition run_expect {A} (t : TokenType) (this : Parser) (k : Parser -> Run A) : Run A :=
  match expect t this with
  | Returned this' => k this'
  | Thrown e => Failed e
  end.

Section Methods.

(** [parseFloat], on the text of a [NUMBER] token. *)
Context (parseFloat : string -> float).

(** [parseExpression] and [parsePrimary], with the two loops of theirs
    that parse: the one over the operators of an expression and the one
    over the arguments after the first. [fuel] bounds the nesting of the
    calls and the rounds of the loops. *)
Fixpoint parseExpression (fuel : nat) (minPrecedence : Z) (this : Parser)
  : Run FormulaAst :=
  match fuel with
  | O => CutOff
  | S fuel' =>
      match parsePrimary fuel' this with
      | Parsed lhs this' => operators fuel' minPrecedence lhs this'
      | Failed e => Failed e
      | CutOff => CutOff
      end
  end
with operators (fuel : nat) (minPrecedence : Z) (lhs : FormulaAst) (this : Parser)
  : Run FormulaAst :=
  match fuel with
  | O => CutOff
  | S fuel' =>
      if decide (type (current this) = OPERATOR) then
        let op := value (current this) in
        let precedence := PRECEDENCE op in
        if precedence <? minPrecedence then Parsed lhs this
        else
          match parseExpression fuel' (precedence + 1) (advance this) with
          | Parsed rhs this' =>
              match operator op with
              | Some o => operators fuel' minPrecedence (BinaryOp o lhs rhs) this'
              | None => Failed (Error ("Unexpected token: " ++ op))
              end
          | Failed e => Failed e
          | CutOff => CutOff
          end
      else Parsed lhs this
  end
with parsePrimary (fuel : nat) (this : Parser) : Run FormulaAst :=
  match fuel with
  | O => CutOff
  | S fuel' =>
      let token := current this in
      match type token with
      | NUMBER => Parsed (NumberLiteral (parseFloat (value token))) (advance this)
      | STRING => Parsed (StringLiteral (value token)) (advance this)
      | CELL_REF =>
          let cellRef := value token in
          let this1 := advance this in
          if decide (type (current this1) = COLON) then
            let this2 := advance this1 in
            let nextToken := current this2 in
            if decide (type nextToken = CELL_REF) then
              let endRef := value nextToken in
              let this3 := advance this2 in
              match toCellAddress cellRef with
              | Returned start =>
                  match toCellAddress endRef with
                  | Returned end_ => Parsed (RangeRef start end_) this3
                  | Thrown e => Failed e
                  end
              | Thrown e => Failed e
              end
            else Failed (Error "Expected cell reference after colon")
          else
            match toCellAddress cellRef with
            | Returned address => Parsed (CellRef address (mkFlags false false)) this1
            | Thrown e => Failed e
            end
      | FUNCTION =>
          let name := value token in
          run_expect LPAREN (advance this) (fun this1 =>
            if decide (type (current this1) = RPAREN) then
              run_expect RPAREN this1 (fun this2 => Parsed (FunctionCall name []) this2)
            else
              match parseExpression fuel' 0 this1 with
              | Parsed arg this2 =>
                  match arguments fuel' [arg] this2 with
                  | Parsed args this3 =>
                      run_expect RPAREN this3 (fun this4 =>
                        Parsed (FunctionCall name args) this4)
                  | Failed e => Failed e
                  | CutOff => CutOff
                  end
              | Failed e => Failed e
              | CutOff => CutOff
              end)
      | LPAREN =>
          match parseExpression fuel' 0 (advance this) with
          | Parsed expr this1 => run_expect RPAREN this1 (fun this2 => Parsed expr this2)
          | Failed e => Failed e
          | CutOff => CutOff
          end
      | OPERATOR =>
          if String.eqb (value token) "-" then
            match parsePrimary fuel' (advance this) with
            | Parsed operand this1 => Parsed (UnaryOp operand) this1
            | Failed e => Failed e
            | CutOff => CutOff
            end
          else Failed (Error ("Unexpected token: " ++ value token))
      | _ => Failed (Error ("Unexpected token: " ++ value token))
      end
  end
with arguments (fuel : nat) (args : list FormulaAst) (this : Parser)
  : Run (list FormulaAst) :=
  match fuel with
  | O => CutOff
  | S fuel' =>
      if decide (type (current this) = COMMA) then
        match parseExpression fuel' 0 (advance this) with
        | Parsed arg this' => arguments fuel' (args ++ [arg])%list this'
        | Failed e => Failed e
        | CutOff => CutOff
        end
      else Parsed args this
  end.

Definition parse (fuel : nat) (this : Parser) : Run FormulaAst :=
  match parseExpression fuel 0 this with
  | Parsed result this' =>
      if decide (type (current this') = EOF) then Parsed result this'
      else Failed (Error ("Unexpected token: " ++ value (current this')))
  | Failed e => Failed e
  | CutOff => CutOff
  end.

(** [parseFormula]; the depth allowed grows with the length of the
    input, and [parseFormula_returns] shows that it is never exhausted. *)
Definition parseFormula (input : string) : option (Completion FormulaAst) :=
  match parse (3 * String.length input + 6) (new_Parser input) with
  | Parsed ast _ => Some (Returned ast)
  | Failed e => Some (Thrown (Error ("Parse error: " ++ err_message e)))
  | CutOff => None
  end.

End Methods.

End Parsing.

(** ** Vocabulary of the statements on the parser *)

(** What is left to parse: the characters not yet read, and the current
    token unless it ends the input. *)
Definition remaining (this : Parsing.Parser) : nat :=
  (String.length (Parsing.rest (Parsing.lexer this))
   + if decide (Parsing.type (Parsing.current this) = Parsing.EOF) then 0 else 1)%nat.

(** A method of the parser ended, and read forwards only. *)
Definition finishes {A} (this : Parsing.Parser) (r : Parsing.Run A) : Prop :=
  match r with
  | Parsing.Parsed _ this' => (remaining this' <= remaining this)%nat
  | Parsing.Failed _ => True
  | Parsing.CutOff => False
  end.

(** A character that starts no token: neither white space, nor an
    operator, a parenthesis, a comma, a colon, a quote, a digit or a
    letter. (A dot starts a number only before a digit.) *)
Definition unknown_char (c : ascii) : bool :=
  negb (is_space c || Parsing.is_operator_char c || Ascii.eqb c "(" || Ascii.eqb c ")"
        || Ascii.eqb c "," || Ascii.eqb c ":" || Ascii.eqb c Parsing.quote
        || is_digit c || Parsing.is_letter c).

(** The text a token of each type can have. *)
Definition well_shaped (token : Parsing.Token) : bool :=
  let text := Parsing.value token in
  match Parsing.type token with
  | Parsing.NUMBER => negb (is_empty text) && string_forall Parsing.is_number_char text
  | Parsing.STRING => string_forall (fun c => negb (Ascii.eqb c Parsing.quote)) text
  | Parsing.CELL_REF =>
      let '(letters, digits) := span is_upper text in
      negb (is_empty letters) && string_forall is_digit digits
  | Parsing.FUNCTION => negb (is_empty text) && string_forall is_upper text
  | Parsing.OPERATOR =>
      match Parsing.operator text with
      | Some op => String.eqb (op_text op) text
      | None => false
      end
  | Parsing.LPAREN => String.eqb text "("
  | Parsing.RPAREN => String.eqb text ")"
  | Parsing.COMMA => String.eqb text ","
  | Parsing.COLON => String.eqb text ":"
  | Parsing.RANGE => false
  | Parsing.EOF =>
      match text with
      | EmptyString => true
      | String c EmptyString => unknown_char c
      | _ => false
      end
  end.

(** The trees the parser builds: every address in them is one
    [toCellAddress] accepts, no reference has a fixed axis, every function
    name is a run of capital letters, and there is no boolean literal. *)
Inductive parser_tree : FormulaAst -> Prop :=
| tree_number (n : float) : parser_tree (NumberLiteral n)
| tree_string (s : string) : parser_tree (StringLiteral s)
| tree_ref (a : CellAddress) :
    toCellAddress a = Returned a -> parser_tree (CellRef a (mkFlags false false))
| tree_range (a b : CellAddress) :
    toCellAddress a = Returned a -> toCellAddress b = Returned b ->
    parser_tree (RangeRef a b)
| tree_function (name : string) (args : list FormulaAst) :
    is_empty name = false -> string_forall is_upper name = true ->
    Forall parser_tree args -> parser_tree (FunctionCall name args)
| tree_binary (op : BinOp) (lhs rhs : FormulaAst) :
    parser_tree lhs -> parser_tree rhs -> parser_tree (BinaryOp op lhs rhs)
| tree_unary (operand : FormulaAst) :
    parser_tree operand -> parser_tree (UnaryOp operand).

(** A method of the parser that returned built such a tree (or such
    trees), and left the parser on a token of the lexer. *)
Definition builds {A} (good : A -> Prop) (r : Parsing.Run A) : Prop :=
  match r with
  | Parsing.Parsed a this' => good a /\ well_shaped (Parsing.current this') = true
  | _ => True
  end.

(** A character at which the lexer stops wherever it stands outside a
    string literal, whatever follows it: one that starts no token, the dot
    apart (it starts a number when a digit follows). *)
Definition stops_lexer (c : ascii) : bool := unknown_char c && negb (Ascii.eqb c ".").

(** The text has no quote: no string literal starts in it. *)
Definition quote_free (s : string) : bool :=
  string_forall (fun c => negb (Ascii.eqb c Parsing.quote)) s.

(** ** The methods of the parser at a depth that is enough *)

Section Runs.

Context (parseFloat : string -> float).

(** The depth [parser_finishes] shows to be enough for each method. *)
Definition run_expression (minPrecedence : Z) (this : Parsing.Parser)
  : Parsing.Run FormulaAst :=
  Parsing.parseExpression parseFloat (3 * remaining this + 3) minPrecedence this.

Definition run_operators (minPrecedence : Z) (lhs : FormulaAst) (this : Parsing.Parser)
  : Parsing.Run FormulaAst :=
  Parsing.operators parseFloat (3 * remaining this + 2) minPrecedence lhs this.

Definition run_primary (this : Parsing.Parser) : Parsing.Run FormulaAst :=
  Parsing.parsePrimary parseFloat (3 * remaining this + 2) this.

Definition run_arguments (args : list FormulaAst) (this : Parsing.Parser)
  : Parsing.Run (list FormulaAst) :=
  Parsing.arguments parseFloat (3 * remaining this + 2) args this.

End Runs.

(** ** Formulas as they are written *)

(** The formulas of the grammar, with the text of each number as typed. *)
Inductive Source :=
| SNumber (text : string)
| SString (s : string)
| SRef (address : string)
| SRange (start end_ : string)
| SCall (name : string) (args : list Source)
| SBinary (op : BinOp) (lhs rhs : Source)
| SNegate (operand : Source).

(** The level of an operator, and the level above all of them, at which
    the operand of a unary minus is written. *)
Definition level_of (op : BinOp) : Z := Parsing.PRECEDENCE (op_text op).

Definition primary_level : Z := 6.

Definition parenthesised (body : string) : string := "(" ++ body ++ ")".

(** The text of a formula, with no more parentheses than needed: around
    a binary operation that stands where a higher level is asked, which
    is the level of its operator for a left operand, one more for a right
    operand, and [primary_level] for the operand of a unary minus. *)
Fixpoint text_of (level : Z) (e : Source) : string :=
  match e with
  | SNumber text => text
  | SString s => String Parsing.quote (s ++ String Parsing.quote "")
  | SRef address => address
  | SRange start end_ => start ++ ":" ++ end_
  | SCall name args =>
      name ++ parenthesised (String.concat "," (List.map (text_of 0) args))
  | SBinary op lhs rhs =>
      let body := text_of (level_of op) lhs ++ op_text op ++ text_of (level_of op + 1) rhs in
      if level_of op <? level then parenthesised body else body
  | SNegate operand => "-" ++ text_of primary_level operand
  end.

Section Trees.

Context (parseFloat : string -> float).

(** The tree a formula stands for. *)
Fixpoint tree_of (e : Source) : FormulaAst :=
  match e with
  | SNumber text => NumberLiteral (parseFloat text)
  | SString s => StringLiteral s
  | SRef address => CellRef address (mkFlags false false)
  | SRange start end_ => RangeRef start end_
  | SCall name args => FunctionCall name (List.map tree_of args)
  | SBinary op lhs rhs => BinaryOp op (tree_of lhs) (tree_of rhs)
  | SNegate operand => UnaryOp (tree_of operand)
  end.

End Trees.

(** The text of a number: digits and dots, starting with a digit or with
    a dot and a digit. *)
Definition number_text (text : string) : bool :=
  string_forall Parsing.is_number_char text
  && match text with
     | String c rest =>
         is_digit c || match rest with String d _ => is_digit d | EmptyString => false end
     | EmptyString => false
     end.

(** The formulas whose atoms the lexer reads as one token each: numbers
    as above, strings without quote, addresses [toCellAddress] accepts,
    function names of capital letters. *)
Fixpoint source_ok (e : Source) : bool :=
  match e with
  | SNumber text => number_text text
  | SString s => quote_free s
  | SRef address => match toCellAddress address with Returned _ => true | Thrown _ => false end
  | SRange start end_ =>
      match toCellAddress start, toCellAddress end_ with
      | Returned _, Returned _ => true
      | _, _ => false
      end
  | SCall name args =>
      negb (is_empty name) && string_forall is_upper name && forallb source_ok args
  | SBinary _ lhs rhs => source_ok lhs && source_ok rhs
  | SNegate operand => source_ok operand
  end.

(** The parser on the first token of a text, the lexer after it. *)
Definition parser_at (n : nat) (s : string) : Parsing.Parser :=
  let '(token, lx) := Parsing.nextToken (Parsing.mkLexer s n) in Parsing.mkParser lx token.

(** A text before which a token ends: the end of the input, an operator,
    a closing parenthesis or a comma. *)
Definition boundary (k : string) : bool :=
  match k with
  | EmptyString => true
  | String c _ => Parsing.is_operator_char c || Ascii.eqb c ")" || Ascii.eqb c ","
  end.

(** A text that can follow an expression written at [level]: of the
    above kind, and if it starts with an operator, one of that level at
    most. *)
Definition closes (level : Z) (k : string) : Prop :=
  boundary k = true
  /\ forall n, Parsing.type (Parsing.current (parser_at n k)) = Parsing.OPERATOR ->
               Parsing.PRECEDENCE (Parsing.value (Parsing.current (parser_at n k))) <= level.

(** The first character of a primary: of a number, a string, a name, a
    parenthesis or a unary minus. *)
Definition primary_start (s : string) : bool :=
  match s with
  | String c _ =>
      Parsing.is_number_char c || Ascii.eqb c Parsing.quote || Parsing.is_letter c
      || Ascii.eqb c "(" || Ascii.eqb c "-"
  | EmptyString => false
  end.

(** The arguments after the first, each after its comma. *)
Definition more_arguments (args : list Source) : string :=
  foldr (fun arg text => "," ++ text_of 0 arg ++ text) "" args.

(** * Facts about the address codec *)

#[local] Arguments String.append !s1 s2 : simpl nomatch.

Section StringFacts.

Lemma string_foldl_app {A} (f : A -> ascii -> A) (s1 s2 : string) (a : A) :
  string_foldl f a (s1 ++ s2) = string_foldl f (string_foldl f a s1) s2.
Proof. revert a. induction s1 as [|c s1 IH]; intros a; simpl; [reflexivity | apply IH]. Qed.

Lemma string_forall_app (p : ascii -> bool) (s1 s2 : string) :
  string_forall p (s1 ++ s2) = string_forall p s1 && string_forall p s2.
Proof.
  induction s1 as [|c s1 IH]; simpl; [reflexivity |].
  rewrite IH. apply andb_assoc.
Qed.

Lemma string_app_assoc (s1 s2 s3 : string) : (s1 ++ s2) ++ s3 = s1 ++ (s2 ++ s3).
Proof. induction s1 as [|c s1 IH]; simpl; [reflexivity | now rewrite IH]. Qed.

Lemma string_app_empty_r (s : string) : s ++ "" = s.
Proof. induction s as [|c s IH]; simpl; [reflexivity | now rewrite IH]. Qed.

Lemma span_app (p : ascii -> bool) (s1 s2 : string) :
  string_forall p s1 = true -> stops p s2 -> span p (s1 ++ s2) = (s1, s2).
Proof.
  intros H1 H2. induction s1 as [|c s1 IH]; simpl in *.
  - destruct s2 as [|c s2]; simpl in *; [reflexivity | now rewrite H2].
  - apply andb_true_iff in H1 as [Hc H1]. rewrite Hc, (IH H1). reflexivity.
Qed.

Lemma charCode_fromCharCode (n : Z) : 0 <= n < 256 -> charCode (fromCharCode n) = n.
Proof.
  intros H. unfold charCode, fromCharCode.
  rewrite N_ascii_embedding by lia. lia.
Qed.

End StringFacts.

Section ColumnLetters.

Lemma colToLetter_loop_acc (fuel : nat) (col : Z) (letter : string) :
  colToLetter_loop fuel col letter = colToLetter_loop fuel col "" ++ letter.
Proof.
  revert col letter. induction fuel as [|fuel IH]; intros col letter; simpl; [reflexivity |].
  destruct (col >=? 0); [| reflexivity].
  rewrite IH. rewrite (IH _ (String _ "")).
  rewrite string_app_assoc. reflexivity.
Qed.

(** Any fuel above [col] runs the loop to its end. *)
Lemma colToLetter_loop_fuel (f1 f2 : nat) (col : Z) (letter : string) :
  col < Z.of_nat f1 -> col < Z.of_nat f2 ->
  colToLetter_loop f1 col letter = colToLetter_loop f2 col letter.
Proof.
  revert f2 col letter. induction f1 as [|f1 IH]; intros f2 col letter H1 H2.
  - destruct f2 as [|f2]; [reflexivity |]. simpl.
    destruct (Z.geb_spec col 0); [lia | reflexivity].
  - destruct f2 as [|f2]; simpl.
    + destruct (Z.geb_spec col 0); [lia | reflexivity].
    + destruct (Z.geb_spec col 0); [| reflexivity].
      assert (col / 26 <= col) by (apply Z.div_le_upper_bound; lia).
      apply IH; lia.
Qed.

(** The loop of [colToLetter] as a recursive equation: the model runs it
    to the end for every [col]. *)
Lemma colToLetter_loop_eqn (col : Z) :
  colToLetter col =
    if col >=? 0
    then colToLetter (col / 26 - 1) ++ String (fromCharCode (Z.rem col 26 + 65)) ""
    else "".
Proof.
  unfold colToLetter. destruct (Z.geb_spec col 0) as [Hc | Hc].
  - replace (Z.to_nat (col + 1)) with (S (Z.to_nat col)) by lia. simpl.
    destruct (Z.geb_spec col 0); [| lia].
    rewrite colToLetter_loop_acc. f_equal.
    assert (col / 26 <= col) by (apply Z.div_le_upper_bound; lia).
    destruct (Z_lt_le_dec (col / 26 - 1) 0) as [Hn | Hn].
    + destruct (Z.to_nat col) as [|k]; destruct (Z.to_nat (col / 26 - 1 + 1)) as [|k'];
        simpl; try reflexivity;
        destruct (Z.geb_spec (col / 26 - 1) 0); try lia; reflexivity.
    + apply colToLetter_loop_fuel; lia.
  - destruct (Z.to_nat (col + 1)); simpl; [reflexivity |].
    destruct (Z.geb_spec col 0); [lia | reflexivity].
Qed.

Lemma colToLetter_negative (col : Z) : col < 0 -> colToLetter col = "".
Proof.
  intros H. rewrite colToLetter_loop_eqn. destruct (Z.geb_spec col 0); [lia | reflexivity].
Qed.

Lemma colToLetter_step (col : Z) :
  0 <= col ->
  colToLetter col = colToLetter (col / 26 - 1) ++ String (fromCharCode (col mod 26 + 65)) "".
Proof.
  intros H. rewrite colToLetter_loop_eqn at 1.
  destruct (Z.geb_spec col 0); [| lia].
  rewrite Z.rem_mod_nonneg by lia. reflexivity.
Qed.

Lemma is_upper_letter (k : Z) : 0 <= k < 26 -> is_upper (fromCharCode (k + 65)) = true.
Proof.
  intros H. unfold is_upper. rewrite charCode_fromCharCode by lia.
  apply andb_true_iff. split; apply Z.leb_le; lia.
Qed.

Lemma colToLetter_upper (col : Z) : string_forall is_upper (colToLetter col) = true.
Proof.
  destruct (Z_lt_le_dec col 0) as [Hn | Hp].
  - now rewrite colToLetter_negative.
  - pattern col. apply Zlt_0_ind; [| exact Hp].
    clear col Hp. intros col IH Hp.
    rewrite colToLetter_step by assumption.
    rewrite string_forall_app. apply andb_true_iff. split.
    + destruct (Z_lt_le_dec (col / 26 - 1) 0) as [Hn | Hn].
      * now rewrite colToLetter_negative.
      * assert (col / 26 <= col) by (apply Z.div_le_upper_bound; lia).
        apply IH; lia.
    + simpl. rewrite is_upper_letter; [reflexivity |].
      apply Z.mod_pos_bound; lia.
Qed.

Lemma colToLetter_nonempty (col : Z) : 0 <= col -> is_empty (colToLetter col) = false.
Proof.
  intros H. rewrite colToLetter_step by assumption.
  destruct (colToLetter (col / 26 - 1)); reflexivity.
Qed.

(** [letterToCol] undoes [colToLetter]. *)
Lemma letterToCol_colToLetter (col : Z) : 0 <= col -> letterToCol (colToLetter col) = col.
Proof.
  intros Hp. unfold letterToCol.
  enough (string_foldl letterToCol_step 0 (colToLetter col) = col + 1) by lia.
  pattern col. apply Zlt_0_ind; [| exact Hp].
  clear col Hp. intros col IH Hp.
  rewrite colToLetter_step by assumption.
  rewrite string_foldl_app. simpl. unfold letterToCol_step at 1.
  assert (Hm : 0 <= col mod 26 < 26) by (apply Z.mod_pos_bound; lia).
  rewrite charCode_fromCharCode by lia.
  pose proof (Z.div_mod col 26 ltac:(lia)) as Hd.
  destruct (Z_lt_le_dec (col / 26 - 1) 0) as [Hn | Hn].
  - rewrite colToLetter_negative by assumption. simpl.
    assert (0 <= col / 26) by (apply Z.div_pos; lia). lia.
  - assert (col / 26 <= col) by (apply Z.div_le_upper_bound; lia).
    rewrite IH by lia. lia.
Qed.

End ColumnLetters.

Section DecimalText.

Lemma decimal_loop_acc (fuel : nat) (n : Z) (acc : string) :
  decimal_loop fuel n acc = decimal_loop fuel n "" ++ acc.
Proof.
  revert n acc. induction fuel as [|fuel IH]; intros n acc; simpl; [reflexivity |].
  destruct (n / 10 =? 0); [reflexivity |].
  rewrite IH. rewrite (IH _ (String _ "")).
  rewrite string_app_assoc. reflexivity.
Qed.

Lemma decimal_loop_fuel (f1 f2 : nat) (n : Z) (acc : string) :
  0 <= n -> n < Z.of_nat f1 -> n < Z.of_nat f2 ->
  decimal_loop f1 n acc = decimal_loop f2 n acc.
Proof.
  revert f2 n acc. induction f1 as [|f1 IH]; intros f2 n acc Hn H1 H2; [lia |].
  destruct f2 as [|f2]; [lia |]. simpl.
  destruct (Z.eqb_spec (n / 10) 0) as [Hz | Hz]; [reflexivity |].
  assert (0 <= n / 10) by (apply Z.div_pos; lia).
  assert (n <> 0) by (intros ->; now apply Hz).
  assert (n / 10 < n) by (apply Z.div_lt; lia).
  apply IH; lia.
Qed.

(** The digits of [n]: those of [n / 10], if any, then the last one. *)
Lemma decimal_step (n : Z) :
  0 <= n ->
  decimal n =
    (if n / 10 =? 0 then "" else decimal (n / 10)) ++ String (fromCharCode (n mod 10 + 48)) "".
Proof.
  intros Hn. unfold decimal at 1. simpl.
  destruct (Z.eqb_spec (n / 10) 0) as [Hz | Hz]; [reflexivity |].
  rewrite decimal_loop_acc. f_equal.
  assert (0 <= n / 10) by (apply Z.div_pos; lia).
  assert (n <> 0) by (intros ->; now apply Hz).
  assert (n / 10 < n) by (apply Z.div_lt; lia).
  apply decimal_loop_fuel; lia.
Qed.

Lemma is_digit_char (k : Z) : 0 <= k < 10 -> is_digit (fromCharCode (k + 48)) = true.
Proof.
  intros H. unfold is_digit. rewrite charCode_fromCharCode by lia.
  apply andb_true_iff. split; apply Z.leb_le; lia.
Qed.

Lemma decimal_digits (n : Z) : 0 <= n -> string_forall is_digit (decimal n) = true.
Proof.
  intros Hn. pattern n. apply Zlt_0_ind; [| exact Hn].
  clear n Hn. intros n IH Hn.
  rewrite decimal_step by assumption.
  rewrite string_forall_app. apply andb_true_iff. split.
  - destruct (Z.eqb_spec (n / 10) 0) as [Hz | Hz]; [reflexivity |].
    assert (0 <= n / 10) by (apply Z.div_pos; lia).
    assert (n <> 0) by (intros ->; now apply Hz).
  assert (n / 10 < n) by (apply Z.div_lt; lia).
    apply IH; lia.
  - simpl. rewrite is_digit_char; [reflexivity |].
    apply Z.mod_pos_bound; lia.
Qed.

Lemma decimal_nonempty (n : Z) : 0 <= n -> is_empty (decimal n) = false.
Proof.
  intros Hn. rewrite decimal_step by assumption.
  destruct (if n / 10 =? 0 then "" else decimal (n / 10)); reflexivity.
Qed.

(** [parseInt] reads back what the conversion to text wrote. *)
Lemma parseInt_decimal (n : Z) : 0 <= n -> parseInt (decimal n) = n.
Proof.
  intros Hn. unfold parseInt. pattern n. apply Zlt_0_ind; [| exact Hn].
  clear n Hn. intros n IH Hn.
  rewrite decimal_step by assumption.
  rewrite string_foldl_app. simpl. unfold parseInt_step at 1.
  assert (Hm : 0 <= n mod 10 < 10) by (apply Z.mod_pos_bound; lia).
  rewrite charCode_fromCharCode by lia.
  pose proof (Z.div_mod n 10 ltac:(lia)) as Hd.
  destruct (Z.eqb_spec (n / 10) 0) as [Hz | Hz].
  - simpl. lia.
  - assert (0 <= n / 10) by (apply Z.div_pos; lia).
    assert (n <> 0) by (intros ->; now apply Hz).
  assert (n / 10 < n) by (apply Z.div_lt; lia).
    rewrite IH by lia. lia.
Qed.

Lemma int_toString_nonneg (n : Z) : 0 <= n -> int_toString n = decimal n.
Proof. intros Hn. unfold int_toString. destruct (Z.ltb_spec n 0); [lia | reflexivity]. Qed.

End DecimalText.

Section AddressText.

Lemma upper_not_digit (c : ascii) : is_upper c = true -> is_digit c = false.
Proof.
  unfold is_upper, is_digit. intros H. apply andb_true_iff in H as [H1 H2].
  apply Z.leb_le in H1. apply andb_false_iff. right. apply Z.leb_gt. lia.
Qed.

Lemma digit_not_upper (c : ascii) : is_digit c = true -> is_upper c = false.
Proof.
  unfold is_upper, is_digit. intros H. apply andb_true_iff in H as [H1 H2].
  apply Z.leb_le in H2. apply andb_false_iff. left. apply Z.leb_gt. lia.
Qed.

Lemma opt_dollar_other (c : ascii) (s : string) :
  c <> "$"%char -> opt_dollar (String c s) = ("", String c s).
Proof.
  intros Hc. destruct c as [[] [] [] [] [] [] [] []]; try reflexivity.
  now contradiction Hc.
Qed.

Lemma opt_dollar_upper (s : string) :
  string_forall is_upper s = true -> is_empty s = false -> opt_dollar s = ("", s).
Proof.
  destruct s as [|c s]; simpl; [discriminate |]. intros H _.
  apply opt_dollar_other. intros ->. discriminate.
Qed.

Lemma opt_dollar_digit (s : string) :
  string_forall is_digit s = true -> is_empty s = false -> opt_dollar s = ("", s).
Proof.
  destruct s as [|c s]; simpl; [discriminate |]. intros H _.
  apply opt_dollar_other. intros ->. discriminate.
Qed.

Lemma stops_upper_digits (s : string) : string_forall is_digit s = true -> stops is_upper s.
Proof.
  destruct s as [|c s]; simpl; [trivial |]. intros H.
  apply andb_true_iff in H as [H _]. now apply digit_not_upper.
Qed.

Lemma span_all (p : ascii -> bool) (s : string) :
  string_forall p s = true -> span p s = (s, "").
Proof.
  intros H. rewrite <- (string_app_empty_r s) at 1. now apply span_app.
Qed.

(** The text matches the grammar of [parseAddress], with a dollar sign
    exactly on the flagged axes, and [parseAddress] reads the indices and
    the flags back from it. *)
Lemma parseAddress_address_text (col row : Z) (absoluteCol absoluteRow : bool) :
  0 <= col -> 0 <= row ->
  parseAddress (address_text col row absoluteCol absoluteRow)
  = Returned (mkParsed col row absoluteCol absoluteRow).
Proof.
  intros Hc Hr. unfold parseAddress, match_address, address_text.
  rewrite int_toString_nonneg by lia.
  pose proof (colToLetter_upper col) as Hu.
  pose proof (colToLetter_nonempty col Hc) as Hne.
  pose proof (decimal_digits (row + 1) ltac:(lia)) as Hd.
  pose proof (decimal_nonempty (row + 1) ltac:(lia)) as Hdne.
  set (letters := colToLetter col) in *. set (digits := decimal (row + 1)) in *.
  assert (Hfirst : opt_dollar ((if absoluteCol then "$" else "") ++ letters
                      ++ (if absoluteRow then "$" else "") ++ digits)
                   = (if absoluteCol then "$" else "",
                      letters ++ (if absoluteRow then "$" else "") ++ digits)).
  { destruct absoluteCol; simpl; [reflexivity |].
    destruct letters as [|c l]; [discriminate |]. simpl in *.
    apply opt_dollar_other. intros ->. discriminate. }
  rewrite Hfirst.
  assert (Hsecond : span is_upper (letters ++ (if absoluteRow then "$" else "") ++ digits)
                    = (letters, (if absoluteRow then "$" else "") ++ digits)).
  { apply span_app; [exact Hu |].
    destruct absoluteRow; simpl; [reflexivity |]. now apply stops_upper_digits. }
  rewrite Hsecond.
  assert (Hthird : opt_dollar ((if absoluteRow then "$" else "") ++ digits)
                   = (if absoluteRow then "$" else "", digits)).
  { destruct absoluteRow; simpl; [reflexivity |]. now apply opt_dollar_digit. }
  rewrite Hthird, (span_all _ _ Hd), Hne, Hdne. simpl.
  subst letters digits.
  rewrite letterToCol_colToLetter, parseInt_decimal by lia.
  f_equal. f_equal; [lia | now destruct absoluteCol | now destruct absoluteRow].
Qed.

(** Without flags the text is a valid [CellAddress]. *)
Lemma formatAddress_plain (col row : Z) :
  0 <= col -> 0 <= row ->
  formatAddress col row false false = Returned (address_text col row false false).
Proof.
  intros Hc Hr. unfold formatAddress, toCellAddress, address_text. simpl.
  rewrite int_toString_nonneg by lia.
  rewrite (span_app is_upper);
    [| apply colToLetter_upper | apply stops_upper_digits, decimal_digits; lia].
  rewrite span_all by (apply decimal_digits; lia).
  rewrite colToLetter_nonempty, decimal_nonempty by lia. reflexivity.
Qed.

Lemma parseAddress_formatAddress (col row : Z) :
  0 <= col -> 0 <= row ->
  exists addr, formatAddress col row false false = Returned addr
               /\ parseAddress addr = Returned (mkParsed col row false false).
Proof.
  intros Hc Hr. eexists. split; [now apply formatAddress_plain |].
  now apply parseAddress_address_text.
Qed.

End AddressText.

(** C4. For all integers [col] and [row] with [0 <= col < 1000] and
    [0 <= row < 1000], [formatAddress(col, row)] returns an address and
    [parseAddress] of that address returns exactly [col] and [row], with
    both fixed flags false. *)
Theorem parseAddress_formatAddress_roundtrip (col row : Z) :
  0 <= col < 1000 -> 0 <= row < 1000 ->
  exists addr, formatAddress col row false false = Returned addr
               /\ parseAddress addr = Returned (mkParsed col row false false).
Proof. intros Hc Hr. apply parseAddress_formatAddress; lia. Qed.

Lemma parseAddress_formatAddress_roundtrip_witness :
  exists addr, formatAddress 27 41 false false = Returned addr
               /\ parseAddress addr = Returned (mkParsed 27 41 false false).
Proof. apply (parseAddress_formatAddress_roundtrip 27 41); lia. Defined.

(** Case analysis on every comparison of indices in the goal. *)
Ltac compare_indices :=
  repeat match goal with
         | |- context [?a >=? ?b] => destruct (Z.geb_spec a b)
         | |- context [?a >? ?b] => destruct (Z.gtb_spec a b)
         | |- context [?a <=? ?b] => destruct (Z.leb_spec a b)
         | |- context [?a <? ?b] => destruct (Z.ltb_spec a b)
         end.

Section FixedAxes.

Lemma formatAddress_fixed_col (col row : Z) (absoluteRow : bool) :
  formatAddress col row true absoluteRow
  = Thrown (Error ("Invalid cell address format: " ++ address_text col row true absoluteRow)).
Proof. reflexivity. Qed.

Lemma formatAddress_fixed_row (col row : Z) :
  formatAddress col row false true
  = Thrown (Error ("Invalid cell address format: " ++ address_text col row false true)).
Proof.
  unfold formatAddress, toCellAddress, address_text. simpl.
  rewrite (span_app is_upper); [| apply colToLetter_upper | reflexivity].
  simpl. rewrite andb_false_r. reflexivity.
Qed.

Lemma adjust_index_shifted (i : Z) (insertedAt deletedAt : option Z) :
  adjust_index i insertedAt deletedAt false = shifted i insertedAt deletedAt.
Proof.
  unfold adjust_index, shifted.
  destruct insertedAt as [p|], deletedAt as [d|]; simpl; compare_indices; lia.
Qed.

Lemma shifted_nonneg (i : Z) (insertedAt deletedAt : option Z) :
  0 <= i -> (forall d, deletedAt = Some d -> 0 <= d) -> 0 <= shifted i insertedAt deletedAt.
Proof.
  intros Hi Hd. unfold shifted.
  destruct insertedAt as [p|], deletedAt as [d|]; simpl;
    try specialize (Hd d eq_refl); compare_indices; lia.
Qed.

End FixedAxes.

(** C5 (the code departs from the claim). Whenever a fixed flag is set,
    [formatAddress] does not return: the text it builds carries the dollar
    sign, [toCellAddress] accepts letters followed by digits only, and the
    call throws. The text itself is right: by [parseAddress_address_text]
    it matches the grammar and [parseAddress] reads the indices and both
    flags back from it. *)
Theorem formatAddress_fixed_throws :
  (forall col row absoluteRow,
      formatAddress col row true absoluteRow
      = Thrown (Error ("Invalid cell address format: "
                         ++ address_text col row true absoluteRow)))
  /\ (forall col row absoluteCol,
        formatAddress col row absoluteCol true
        = Thrown (Error ("Invalid cell address format: "
                           ++ address_text col row absoluteCol true)))
  /\ formatAddress 0 0 true false = Thrown (Error "Invalid cell address format: $A1")
  /\ parseAddress "$A1" = Returned (mkParsed 0 0 true false).
Proof.
  split; [| split; [| split]].
  - intros. apply formatAddress_fixed_col.
  - intros col row [|]; [apply formatAddress_fixed_col | apply formatAddress_fixed_row].
  - reflexivity.
  - reflexivity.
Qed.

(** C9, as the specification states it, fails: with the deletion point on
    the very column of the address the code leaves the column where it is,
    where the sentence ("at or before") takes one off. *)
Lemma adjustReference_delete_at_index :
  ~ (forall addr p insertedAt deletedAt isAbsolute,
        parseAddress addr = Returned p -> 0 <= col p -> 0 <= row p ->
        exists addr' p',
          adjustReference addr insertedAt deletedAt isAbsolute = Returned addr'
          /\ parseAddress addr' = Returned p'
          /\ col p' = spec_shift (col p) (at_col insertedAt) (at_col deletedAt)
                        (flag_col isAbsolute)
          /\ row p' = spec_shift (row p) (at_row insertedAt) (at_row deletedAt)
                        (flag_row isAbsolute)).
Proof.
  intros H.
  destruct (H "B2" (mkParsed 1 1 false false) (mkPoint None None) (mkPoint None (Some 1))
              (mkFlags false false) eq_refl ltac:(simpl; lia) ltac:(simpl; lia))
    as (addr' & p' & Hadj & Hparse & Hcol & _).
  vm_compute in Hadj. injection Hadj as <-.
  vm_compute in Hparse. injection Hparse as <-.
  vm_compute in Hcol. discriminate.
Qed.

(** C9, amended. For an address with [col, row >= 0] and both below
    [index_limit] (where the additions of the sources are exact),
    deletion points that are not negative and no fixed axis,
    [adjustReference] returns the address whose column (resp. row) index
    is one more when an insertion point is at or before the index, and
    then one less when a deletion point is strictly before the index so
    obtained; and the index computed for an axis marked fixed is the index
    of the address. *)
Theorem adjustReference_shifts (addr : CellAddress) (p : ParsedAddress)
  (insertedAt deletedAt : AxisPoint) :
  parseAddress addr = Returned p -> 0 <= col p -> 0 <= row p -> within_limit p ->
  (forall d, at_col deletedAt = Some d -> 0 <= d) ->
  (forall d, at_row deletedAt = Some d -> 0 <= d) ->
  (exists addr',
      adjustReference addr insertedAt deletedAt (mkFlags false false) = Returned addr'
      /\ parseAddress addr'
         = Returned (mkParsed (shifted (col p) (at_col insertedAt) (at_col deletedAt))
                              (shifted (row p) (at_row insertedAt) (at_row deletedAt))
                              false false))
  /\ (forall i ins del, adjust_index i ins del true = i).
Proof.
  intros Hp Hc Hr _ Hdc Hdr. split.
  - unfold adjustReference. rewrite Hp. simpl.
    rewrite !adjust_index_shifted.
    apply parseAddress_formatAddress; now apply shifted_nonneg.
  - intros i [q|] [d|]; reflexivity.
Qed.

Lemma adjustReference_shifts_witness :
  (exists addr',
      adjustReference "C5" (mkPoint (Some 2) (Some 2)) (mkPoint None (Some 0))
        (mkFlags false false) = Returned addr'
      /\ parseAddress addr' = Returned (mkParsed 2 5 false false))
  /\ (forall i ins del, adjust_index i ins del true = i).
Proof.
  apply (adjustReference_shifts "C5" (mkParsed 2 4 false false)
           (mkPoint (Some 2) (Some 2)) (mkPoint None (Some 0)));
    try (split; reflexivity); simpl; try lia; try reflexivity; intros d [= <-]; lia.
Defined.

(** * Facts about the dependency graph *)

Section InverseMaps.

Lemma elem_of_set_add (x y : CellAddress) (s : AddrSet) :
  x ∈ set_add y s <-> x = y \/ x ∈ s.
Proof.
  unfold set_add. destruct (decide (y ∈ s)) as [Hin | Hout].
  - split; [auto | intros [-> | H]; assumption].
  - rewrite elem_of_app, list_elem_of_singleton. tauto.
Qed.

Lemma elem_of_set_delete (x y : CellAddress) (s : AddrSet) :
  x ∈ set_delete y s <-> x ∈ s /\ x <> y.
Proof. unfold set_delete. rewrite list_elem_of_filter. tauto. Qed.

Lemma member_insert (m : gmap CellAddress AddrSet) (k k' x : CellAddress) (s : AddrSet) :
  member (<[k := s]> m) k' x <-> (k = k' /\ x ∈ s) \/ (k <> k' /\ member m k' x).
Proof.
  unfold member. destruct (decide (k = k')) as [-> | Hne].
  - rewrite lookup_insert_eq. tauto.
  - rewrite lookup_insert_ne by assumption. tauto.
Qed.

Lemma member_default (m : gmap CellAddress AddrSet) (k x : CellAddress) :
  x ∈ default [] (m !! k) <-> member m k x.
Proof.
  unfold member. destruct (m !! k); simpl; [tauto |].
  split; [intros H; inversion H | tauto].
Qed.

Lemma member_addDependency_dependencies (g : DependencyGraph) (from to a b : CellAddress) :
  member (dependencies (addDependency from to g)) a b
  <-> (a = from /\ b = to) \/ member (dependencies g) a b.
Proof.
  unfold addDependency. simpl. rewrite member_insert, elem_of_set_add, member_default.
  destruct (decide (from = a)) as [-> | Hne]; [tauto |].
  split; [tauto | intros [[-> _] | H]; [congruence | tauto]].
Qed.

Lemma member_addDependency_dependents (g : DependencyGraph) (from to a b : CellAddress) :
  member (dependents (addDependency from to g)) b a
  <-> (a = from /\ b = to) \/ member (dependents g) b a.
Proof.
  unfold addDependency. simpl. rewrite member_insert, elem_of_set_add, member_default.
  destruct (decide (to = b)) as [-> | Hne]; [tauto |].
  split; [tauto | intros [[_ ->] | H]; [congruence | tauto]].
Qed.

Lemma member_remove_dependent (cell dep : CellAddress) (m : gmap CellAddress AddrSet)
  (k x : CellAddress) :
  member (remove_dependent cell m dep) k x <-> member m k x /\ ~ (x = cell /\ k = dep).
Proof.
  unfold remove_dependent. destruct (m !! dep) as [ds|] eqn:Hdep.
  - rewrite member_insert, elem_of_set_delete.
    destruct (decide (dep = k)) as [<- | Hne].
    + unfold member. rewrite Hdep. tauto.
    + split; [intros [[? _] | [_ H]]; [congruence | split; [exact H | intros [_ ?]; congruence]] |].
      intros [H _]. right. tauto.
  - split; [| tauto]. intros H. split; [exact H |].
    intros [_ ->]. unfold member in H. now rewrite Hdep in H.
Qed.

Lemma member_foldl_remove_dependent (cell : CellAddress) (deps : list CellAddress)
  (m : gmap CellAddress AddrSet) (k x : CellAddress) :
  member (foldl (remove_dependent cell) m deps) k x
  <-> member m k x /\ ~ (x = cell /\ k ∈ deps).
Proof.
  revert m. induction deps as [|dep deps IH]; intros m; simpl.
  - split; [| tauto]. intros H. split; [exact H |]. intros [_ Hk]. inversion Hk.
  - rewrite IH, member_remove_dependent, elem_of_cons. tauto.
Qed.

Lemma addDependency_inverse (from to : CellAddress) (g : DependencyGraph) :
  inverse_maps g -> inverse_maps (addDependency from to g).
Proof.
  intros Hinv a b.
  rewrite member_addDependency_dependencies, member_addDependency_dependents.
  rewrite (Hinv a b). tauto.
Qed.

Lemma removeDependencies_inverse (cell : CellAddress) (g : DependencyGraph) :
  inverse_maps g -> inverse_maps (removeDependencies cell g).
Proof.
  intros Hinv a b. unfold removeDependencies.
  destruct (dependencies g !! cell) as [deps|] eqn:Hdeps; [| apply Hinv].
  simpl. rewrite member_foldl_remove_dependent, <- (Hinv a b).
  unfold member at 1. destruct (decide (cell = a)) as [<- | Hne].
  - rewrite lookup_delete_eq. unfold member. rewrite Hdeps. tauto.
  - rewrite lookup_delete_ne by assumption. fold (member (dependencies g) a b).
    split; [| tauto]. intros H. split; [exact H | intros [? _]; congruence].
Qed.

Lemma empty_graph_inverse : inverse_maps empty_graph.
Proof. intros a b. unfold member, empty_graph. simpl. rewrite !lookup_empty. tauto. Qed.

Lemma foldl_call_inverse (calls : list GraphCall) (g : DependencyGraph) :
  inverse_maps g -> inverse_maps (foldl call g calls).
Proof.
  revert g. induction calls as [|c calls IH]; intros g Hinv; simpl; [exact Hinv |].
  apply IH. destruct c; simpl;
    [now apply addDependency_inverse | now apply removeDependencies_inverse].
Qed.

End InverseMaps.

(** C8. Starting from an empty [DependencyGraph], after any finite
    sequence of [addDependency] and [removeDependencies] calls the two
    mappings are exact inverses: [b] is a member of [dependsOn[a]] if and
    only if [a] is a member of [dependedOnBy[b]]. *)
Theorem dependency_maps_inverse (calls : list GraphCall) (a b : CellAddress) :
  member (dependencies (foldl call empty_graph calls)) a b
  <-> member (dependents (foldl call empty_graph calls)) b a.
Proof. apply foldl_call_inverse, empty_graph_inverse. Qed.

Section EvaluationOrder.

Context (g : DependencyGraph).

Lemma forEach_visit_mono (fuel : nat) :
  (forall cell st st', visit fuel g cell st = Some st' -> visited st ⊆ visited st') ->
  forall cells st st', forEach (visit fuel g) cells st = Some st' -> visited st ⊆ visited st'.
Proof.
  intros Hvisit cells. induction cells as [|c cells IH]; intros st st' H; simpl in H.
  - now injection H as <-.
  - destruct (visit fuel g c st) as [st1|] eqn:H1; [| discriminate].
    etransitivity; [apply (Hvisit _ _ _ H1) | now apply IH].
Qed.

(** [visit] never removes a cell from [visited]. *)
Lemma visit_mono (fuel : nat) (cell : CellAddress) (st st' : VisitState) :
  visit fuel g cell st = Some st' -> visited st ⊆ visited st'.
Proof.
  revert cell st st'. induction fuel as [|fuel IH]; intros cell st st' H; simpl in H;
    [discriminate |].
  destruct (decide (cell ∈ visited st)); [now injection H as <- |].
  destruct (forEach _ _ _) as [st1|] eqn:H1; [| discriminate].
  injection H as <-. simpl.
  apply (forEach_visit_mono fuel IH) in H1. simpl in H1. set_solver.
Qed.

Lemma forEach_mono (fuel : nat) (cells : list CellAddress) (st st' : VisitState) :
  forEach (visit fuel g) cells st = Some st' -> visited st ⊆ visited st'.
Proof. apply forEach_visit_mono. intros cell. apply visit_mono. Qed.

(** The keys of [dependencies] not yet visited. *)
Let pending (st : VisitState) : nat := size (dom (dependencies g) ∖ visited st).

Lemma pending_mono (st st' : VisitState) :
  visited st ⊆ visited st' -> (pending st' <= pending st)%nat.
Proof. intros H. unfold pending. apply subseteq_size. set_solver. Qed.

Lemma forEach_returns (fuel : nat) :
  (forall cell st, (pending st < fuel)%nat -> is_Some (visit fuel g cell st)) ->
  forall cells st, (pending st < fuel)%nat -> is_Some (forEach (visit fuel g) cells st).
Proof.
  intros Hvisit cells. induction cells as [|c cells IH]; intros st Hst; simpl; [eauto |].
  destruct (Hvisit c st Hst) as [st1 H1]. rewrite H1.
  apply IH. apply visit_mono, pending_mono in H1. lia.
Qed.

(** A recursion depth above the number of pending keys is never
    exhausted, whatever the graph: on a cycle [visit] meets a visited
    cell and returns. *)
Lemma visit_returns (fuel : nat) (cell : CellAddress) (st : VisitState) :
  (pending st < fuel)%nat -> is_Some (visit fuel g cell st).
Proof.
  revert cell st. induction fuel as [|fuel IH]; intros cell st Hst; [lia |]. simpl.
  destruct (decide (cell ∈ visited st)) as [Hin | Hout]; [eauto |].
  unfold getDependencies.
  destruct (dependencies g !! cell) as [deps|] eqn:Hdeps; simpl; [| eauto].
  destruct (forEach_returns fuel IH deps (mkVisit ({[cell]} ∪ visited st) (result st)))
    as [st1 H1]; [| rewrite H1; eauto].
  assert (Hlt : (pending (mkVisit ({[cell]} ∪ visited st) (result st)) < pending st)%nat).
  { unfold pending. apply subset_size. simpl. apply strict_spec_alt. split; [set_solver |].
    assert (cell ∈ dom (dependencies g)) by (apply elem_of_dom; eauto).
    intros Heq. assert (cell ∈ dom (dependencies g) ∖ visited st) as Hc by set_solver.
    rewrite <- Heq in Hc. set_solver. }
  lia.
Qed.

Context (cells : list CellAddress).

Lemma forEach_invariant (fuel : nat) (stack : list CellAddress) :
  (forall cell st st',
      visit fuel g cell st = Some st' -> order_invariant g cells stack st ->
      reachable g cells cell -> (forall s, s ∈ stack -> rtc (reads g) s cell) ->
      order_invariant g cells stack st' /\ cell ∈ visited st') ->
  forall deps st st',
    forEach (visit fuel g) deps st = Some st' -> order_invariant g cells stack st ->
    (forall d, d ∈ deps -> reachable g cells d /\ forall s, s ∈ stack -> rtc (reads g) s d) ->
    order_invariant g cells stack st' /\ forall d, d ∈ deps -> d ∈ visited st'.
Proof.
  intros Hvisit deps. induction deps as [|d deps IH]; intros st st' H Hinv Hdeps; simpl in H.
  - injection H as <-. split; [exact Hinv |]. intros d Hd. inversion Hd.
  - destruct (visit fuel g d st) as [st1|] eqn:H1; [| discriminate].
    destruct (Hdeps d ltac:(left)) as [Hr Hs].
    destruct (Hvisit _ _ _ H1 Hinv Hr Hs) as [Hinv1 Hd1].
    destruct (IH _ _ H Hinv1) as [Hinv' Hall].
    { intros d' Hd'. apply Hdeps. now right. }
    split; [exact Hinv' |]. intros d' Hd'. apply elem_of_cons in Hd' as [-> | Hd'].
    + apply forEach_mono in H. set_solver.
    + now apply Hall.
Qed.

Lemma visit_invariant (fuel : nat) (stack : list CellAddress) (cell : CellAddress)
  (st st' : VisitState) :
  visit fuel g cell st = Some st' -> order_invariant g cells stack st ->
  reachable g cells cell -> (forall s, s ∈ stack -> rtc (reads g) s cell) ->
  order_invariant g cells stack st' /\ cell ∈ visited st'.
Proof.
  revert stack cell st st'.
  induction fuel as [|fuel IH]; intros stack cell st st' H Hinv Hreach Hstack; simpl in H;
    [discriminate |].
  destruct (decide (cell ∈ visited st)) as [Hin | Hout];
    [injection H as <-; now split |].
  destruct (forEach _ _ _) as [st1|] eqn:H1; [| discriminate].
  injection H as <-.
  destruct Hinv as [Hnd Hvis Hdis Hrch Hcl Hfst].
  assert (Hinv0 : order_invariant g cells (cell :: stack)
                    (mkVisit ({[cell]} ∪ visited st) (result st))).
  { split; simpl; try assumption.
    - intros x. rewrite elem_of_union, elem_of_singleton, Hvis, elem_of_cons. tauto.
    - intros x Hx. rewrite elem_of_cons. intros [-> | Hs].
      + apply Hout, Hvis. now left.
      + now apply (Hdis x).
    - intros x d Hx Hd. apply elem_of_union. right. now apply (Hcl x). }
  destruct (forEach_invariant fuel (cell :: stack) (fun c s s' => IH (cell :: stack) c s s')
              _ _ _ H1 Hinv0) as [[Hnd1 Hvis1 Hdis1 Hrch1 Hcl1 Hfst1] Hdeps].
  { intros d Hd. split.
    - destruct Hreach as (c & Hc & Hpath). exists c. split; [exact Hc |].
      eapply rtc_r; [exact Hpath | exact Hd].
    - intros s Hs. apply elem_of_cons in Hs as [-> | Hs]; [now apply rtc_once |].
      eapply rtc_r; [now apply Hstack | exact Hd]. }
  assert (Hcell : cell ∈ visited st1).
  { apply forEach_mono in H1. simpl in H1. set_solver. }
  assert (Hfresh : cell ∉ result st1).
  { intros Hc. apply (Hdis1 cell Hc). now left. }
  split; [| exact Hcell]. split; simpl.
  - apply NoDup_app. split; [exact Hnd1 |]. split; [| apply NoDup_singleton].
    intros x Hx Hx'. apply list_elem_of_singleton in Hx' as ->. contradiction.
  - intros x. rewrite Hvis1, elem_of_app, list_elem_of_singleton, elem_of_cons. tauto.
  - intros x Hx Hs. apply elem_of_app in Hx as [Hx | Hx].
    + apply (Hdis1 x Hx). now right.
    + apply list_elem_of_singleton in Hx as ->. apply Hout, Hvis. now right.
  - intros x Hx. apply elem_of_app in Hx as [Hx | Hx]; [now apply Hrch1 |].
    now apply list_elem_of_singleton in Hx as ->.
  - intros x d Hx Hd. apply elem_of_app in Hx as [Hx | Hx]; [now apply (Hcl1 x) |].
    apply list_elem_of_singleton in Hx as ->. now apply Hdeps.
  - intros i x Hi d Hd.
    destruct (decide (i < length (result st1))%nat) as [Hlt | Hge].
    + rewrite lookup_app_l in Hi by assumption.
      destruct (Hfst1 i x Hi d Hd) as [(j & Hj & Hjd) | Hcyc]; [left | now right].
      exists j. split; [exact Hj |]. rewrite lookup_app_l; [exact Hjd |].
      now apply lookup_lt_Some in Hjd.
    + rewrite lookup_app_r in Hi by lia.
      destruct (i - length (result st1))%nat as [|k] eqn:Hk; simpl in Hi; [| discriminate].
      injection Hi as <-.
      pose proof (Hdeps d Hd) as Hdv. apply Hvis1 in Hdv as [Hres | Hstk].
      * left. apply list_elem_of_lookup in Hres as [j Hj].
        exists j. pose proof (lookup_lt_Some _ _ _ Hj).
        split; [lia |]. now rewrite lookup_app_l.
      * right. apply elem_of_cons in Hstk as [-> | Hs]; [now apply tc_once |].
        eapply tc_rtc_r; [apply tc_once, Hd | now apply Hstack].
Qed.

End EvaluationOrder.

Section Acyclic.

(** A graph whose edges all go down some rank has no cycle. *)
Lemma ranked_acyclic (g : DependencyGraph) (cells : list CellAddress)
  (rank : CellAddress -> nat) :
  map_Forall (fun a deps => Forall (fun b => (rank b < rank a)%nat) deps) (dependencies g) ->
  acyclic_from g cells.
Proof.
  intros Hrank x _ Hcycle.
  assert (Hedge : forall a b, reads g a b -> (rank b < rank a)%nat).
  { intros a b Hab. unfold reads, getDependencies in Hab.
    destruct (dependencies g !! a) as [deps|] eqn:Ha; simpl in Hab; [| inversion Hab].
    specialize (Hrank a deps Ha). rewrite Forall_forall in Hrank. now apply Hrank. }
  assert (Hpath : forall a b, tc (reads g) a b -> (rank b < rank a)%nat).
  { intros a b Hab. induction Hab as [a b Hab | a b c Hab _ IH].
    - now apply Hedge.
    - apply Hedge in Hab. lia. }
  apply Hpath in Hcycle. lia.
Qed.

End Acyclic.

(** C7. For every dependency graph, [getEvaluationOrder(cells)] returns
    (the pass never fails, on cyclic graphs either); each cell of the
    returned sequence appears exactly once, and the cells that appear are
    the requested ones and those reachable from them; and when no cell
    reachable from the requested ones lies on a cycle, every cell appears
    only after all of the cells it depends on. *)
Theorem getEvaluationOrder_topological (g : DependencyGraph) (cells : list CellAddress) :
  exists order,
    getEvaluationOrder g cells = Some order
    /\ NoDup order
    /\ (forall x, x ∈ order <-> reachable g cells x)
    /\ (acyclic_from g cells -> dependencies_first g order).
Proof.
  unfold getEvaluationOrder.
  destruct (forEach_returns g (S (size (dependencies g)))
              (visit_returns g (S (size (dependencies g)))) cells (mkVisit ∅ []))
    as [st Hst].
  { simpl. rewrite <- (size_dom (dependencies g)).
    apply Nat.lt_succ_r, subseteq_size. set_solver. }
  rewrite Hst. simpl. exists (result st). split; [reflexivity |].
  destruct (forEach_invariant g cells (S (size (dependencies g))) []
              (fun c s s' => visit_invariant g cells _ [] c s s') cells _ _ Hst)
    as [[Hnd Hvis Hdis Hrch Hcl Hfst] Hcells].
  { split; simpl.
    - apply NoDup_nil_2.
    - intros x. rewrite elem_of_nil. set_solver.
    - intros x Hx. inversion Hx.
    - intros x Hx. inversion Hx.
    - intros x d Hx. inversion Hx.
    - intros i x Hi. discriminate. }
  { intros c Hc. split; [exists c; split; [exact Hc | apply rtc_refl] |].
    intros s Hs. inversion Hs. }
  assert (Hres : forall x, x ∈ visited st -> x ∈ result st).
  { intros x Hx. apply Hvis in Hx as [Hx | Hx]; [exact Hx | inversion Hx]. }
  split; [exact Hnd |]. split; [| intros Hacyclic].
  - intros x. split; [apply Hrch |]. intros (c & Hc & Hpath).
    assert (Hc' : c ∈ result st) by now apply Hres, Hcells.
    clear Hc. induction Hpath as [c | c y z Hcy _ IH]; [exact Hc' |].
    apply IH, Hres. now apply (Hcl c y).
  - intros i x Hi d Hd. destruct (Hfst i x Hi d Hd) as [Hj | Hcyc]; [exact Hj |].
    exfalso. apply (Hacyclic x); [| exact Hcyc].
    apply Hrch. now apply list_elem_of_lookup_2 in Hi.
Qed.

Lemma getEvaluationOrder_topological_witness :
  getEvaluationOrder diamond_graph ["A1"] = Some ["D1"; "B1"; "C1"; "A1"]
  /\ dependencies_first diamond_graph ["D1"; "B1"; "C1"; "A1"].
Proof.
  destruct (getEvaluationOrder_topological diamond_graph ["A1"])
    as (order & Hret & _ & _ & Hfirst).
  vm_compute in Hret. injection Hret as <-.
  split; [reflexivity |]. apply Hfirst.
  apply (ranked_acyclic _ _ diamond_rank).
  apply (bool_decide_unpack _). vm_compute. exact I.
Defined.

(** * Facts about the formula engine *)

Section Depth.

Context (B : Builtins) (sheet : Sheet).

Lemma refines_refl {A} (o : Outcome A) : refines o o.
Proof. now right. Qed.

Lemma bind_refines {A C} (m m' : Eval A) (k k' : A -> Eval C) (visited : gset CellAddress) :
  refines (m visited) (m' visited) ->
  (forall a v, refines (k a v) (k' a v)) ->
  refines (bind m k visited) (bind m' k' visited).
Proof.
  unfold bind. intros [Hm | Hm] Hk; rewrite Hm; [now left |].
  destruct (m' visited); [apply Hk | apply refines_refl | apply refines_refl].
Qed.

Context (ev ev' : FormulaAst -> Eval EvalValue).
Hypothesis ev_refines : forall ast visited, refines (ev ast visited) (ev' ast visited).

Lemma evaluateCellRef_refines (address : CellAddress) (visited : gset CellAddress) :
  refines (evaluateCellRef sheet ev address visited)
          (evaluateCellRef sheet ev' address visited).
Proof.
  unfold evaluateCellRef. destruct (decide (address ∈ visited)); [apply refines_refl |].
  destruct (cells sheet !! address) as [[v | src ast | msg c]|]; try apply refines_refl.
  destruct (ev_refines ast ({[address]} ∪ visited)) as [H | H]; rewrite H;
    [now left | apply refines_refl].
Qed.

Lemma mapM_refines (addresses : list CellAddress) (visited : gset CellAddress) :
  refines (mapM (evaluateCellRef sheet ev) addresses visited)
          (mapM (evaluateCellRef sheet ev') addresses visited).
Proof.
  revert visited. induction addresses as [|a rest IH]; intros visited; simpl;
    [apply refines_refl |].
  apply bind_refines; [apply evaluateCellRef_refines |].
  intros y v. apply bind_refines; [apply IH | intros; apply refines_refl].
Qed.

Lemma for_args_refines {A} (step : A -> EvalValue -> A) (args : list FormulaAst) (acc : A)
  (visited : gset CellAddress) :
  refines (for_args ev step args acc visited) (for_args ev' step args acc visited).
Proof.
  revert acc visited. induction args as [|arg rest IH]; intros acc visited; simpl;
    [apply refines_refl |].
  apply bind_refines; [apply ev_refines | intros; apply IH].
Qed.

Lemma evaluateFunction_refines (name : string) (args : list FormulaAst)
  (visited : gset CellAddress) :
  refines (evaluateFunction ev name args visited) (evaluateFunction ev' name args visited).
Proof.
  unfold evaluateFunction.
  repeat match goal with
         | |- context [if ?b then _ else _] => destruct b
         end;
    try (apply bind_refines; [apply for_args_refines | intros; apply refines_refl]);
    try apply refines_refl.
  destruct args as [|arg0 [|arg1 [|arg2 [|arg3 rest]]]]; try apply refines_refl.
  apply bind_refines; [apply ev_refines | intros c v].
  apply bind_refines; [apply refines_refl | intros condition v'].
  apply bind_refines; [apply ev_refines | intros; apply refines_refl].
Qed.

Lemma evaluateBinaryOp_refines (op : BinOp) (lhs rhs : FormulaAst)
  (visited : gset CellAddress) :
  refines (evaluateBinaryOp B ev op lhs rhs visited)
          (evaluateBinaryOp B ev' op lhs rhs visited).
Proof.
  unfold evaluateBinaryOp.
  apply bind_refines; [apply ev_refines | intros l v].
  apply bind_refines; [apply ev_refines | intros; apply refines_refl].
Qed.

Lemma evaluateAst_body_refines (ast : FormulaAst) (visited : gset CellAddress) :
  refines (evaluateAst_body B sheet ev ast visited) (evaluateAst_body B sheet ev' ast visited).
Proof.
  destruct ast; simpl; try apply refines_refl.
  - apply bind_refines; [apply evaluateCellRef_refines | intros; apply refines_refl].
  - apply bind_refines; [apply refines_refl | intros addresses v].
    apply bind_refines; [apply mapM_refines | intros; apply refines_refl].
  - apply bind_refines; [apply evaluateFunction_refines | intros; apply refines_refl].
  - apply bind_refines; [apply evaluateBinaryOp_refines | intros; apply refines_refl].
  - apply bind_refines; [apply ev_refines | intros; apply refines_refl].
Qed.

End Depth.

Section Evaluation.

Context (B : Builtins) (sheet : Sheet).

Lemma evaluateAst_deeper (fuel : nat) (ast : FormulaAst) (visited : gset CellAddress) :
  refines (evaluateAst B sheet fuel ast visited) (evaluateAst B sheet (S fuel) ast visited).
Proof.
  revert ast visited. induction fuel as [|fuel IH]; intros ast visited; [now left |].
  apply evaluateAst_body_refines, IH.
Qed.

(** An evaluation that ends within some depth ends the same way within
    any greater one. *)
Lemma evaluateAst_mono (fuel fuel' : nat) (ast : FormulaAst) (visited : gset CellAddress)
  (out : Outcome EvalValue) :
  (fuel <= fuel')%nat -> out <> OutOfFuel ->
  evaluateAst B sheet fuel ast visited = out -> evaluateAst B sheet fuel' ast visited = out.
Proof.
  intros Hle Hout H. induction Hle as [|fuel' Hle IH]; [exact H |].
  destruct (evaluateAst_deeper fuel' ast visited) as [Hcut | Heq]; congruence.
Qed.

Lemma evaluates_deterministic (ast : FormulaAst) (visited : gset CellAddress)
  (out out' : Outcome EvalValue) :
  evaluates B sheet ast visited out -> evaluates B sheet ast visited out' -> out = out'.
Proof.
  intros [Hout [f Hf]] [Hout' [f' Hf']].
  rewrite <- (evaluateAst_mono f (Nat.max f f') ast visited out) by (try lia; assumption).
  now apply evaluateAst_mono with (fuel := f'); try lia.
Qed.

End Evaluation.

Section CellReferences.

Context (B : Builtins) (sheet : Sheet).

Lemma evaluateCellRef_visited (ev : FormulaAst -> Eval EvalValue) (address : CellAddress)
  (visited : gset CellAddress) :
  address ∈ visited ->
  evaluateCellRef sheet ev address visited
  = Raise cycle_error.
Proof. intros H. unfold evaluateCellRef. now destruct (decide (address ∈ visited)). Qed.


(** A literal, error or missing cell stays in [visited] once read: only
    the formula branch of [evaluateCellRef] deletes the address. *)
Lemma evaluateCellRef_literal_stays (ev : FormulaAst -> Eval EvalValue)
  (address : CellAddress) (visited : gset CellAddress) (v : LiteralValue) :
  cells sheet !! address = Some (LiteralCell v) -> address ∉ visited ->
  evaluateCellRef sheet ev address visited = Done (literal_value v) ({[address]} ∪ visited)
  /\ evaluateCellRef sheet ev address ({[address]} ∪ visited)
     = Raise cycle_error.
Proof.
  intros Hcell H. split.
  - unfold evaluateCellRef. destruct (decide (address ∈ visited)); [contradiction |].
    now rewrite Hcell.
  - apply evaluateCellRef_visited. set_solver.
Qed.

Lemma arithmetic_division_by_zero (l r : float) :
  (r =? 0)%float = true -> arithmetic B Div l r = Thrown (Error "Division by zero").
Proof. intros H. unfold arithmetic. now rewrite H. Qed.

(** The error thrown on a division by zero carries no [code]. *)
Lemma evaluateBinaryOp_division_by_zero (ev : FormulaAst -> Eval EvalValue)
  (lhs rhs : FormulaAst) (visited v1 v2 : gset CellAddress) (l r : float) :
  ev lhs visited = Done (Scalar (VNumber l)) v1 ->
  ev rhs v1 = Done (Scalar (VNumber r)) v2 ->
  (r =? 0)%float = true ->
  evaluateBinaryOp B ev Div lhs rhs visited = Raise (Error "Division by zero")
  /\ caught (Error "Division by zero")
     = {| value := VNull;
          error := Some {| code := "EVAL"; message := "Division by zero" |} |}.
Proof.
  intros Hl Hr Hz. split; [| reflexivity].
  unfold evaluateBinaryOp, bind. rewrite Hl, Hr.
  now rewrite arithmetic_division_by_zero.
Qed.

End CellReferences.

(** C1 (the code departs from the claim). [A1 = B1 + C1] with [B1] and
    [C1] both reading the literal cell [D1], a sheet without any cycle:
    [evaluateCell] on [A1] reports [CYCLE]. The first path leaves [D1] in
    the visited set, since [evaluateCellRef] deletes an address only after
    a formula cell, and the second path finds it there. The same happens
    over an error cell and over an empty cell; over a formula cell the
    diamond evaluates. *)
Theorem diamond_over_literal_is_flagged (B : Builtins) (fuel : nat) :
  evaluateCell B diamond_literal_sheet (S (S (S fuel))) "A1" = Some cycle_result
  /\ evaluateCell B diamond_error_sheet (S (S (S fuel))) "A1" = Some cycle_result
  /\ evaluateCell B diamond_empty_sheet (S (S (S fuel))) "A1" = Some cycle_result
  /\ evaluateCell B diamond_formula_sheet (S (S (S (S fuel)))) "A1"
     = Some {| value := VNumber 10; error := None |}.
Proof. repeat split; vm_compute; reflexivity. Qed.

(** C2 (the code departs from the claim). The formula [=1/0]: both
    operands are numbers and the right one is exactly 0; [evaluateCell]
    returns a null value with the error code [EVAL], not [DIV0]: the
    error thrown by the division has no [code] and the [catch] clause
    falls back to [EVAL]. *)
Theorem division_by_zero_is_EVAL (B : Builtins) (fuel : nat) :
  evaluateCell B division_sheet (S (S fuel)) "A1"
  = Some {| value := VNull;
            error := Some {| code := "EVAL"; message := "Division by zero" |} |}.
Proof. vm_compute. reflexivity. Qed.

Section Cycles.

Context (B : Builtins) (sheet : Sheet).

Lemma evaluateCell_mono (fuel fuel' : nat) (address : CellAddress) (r : EvalResult) :
  (fuel <= fuel')%nat ->
  evaluateCell B sheet fuel address = Some r -> evaluateCell B sheet fuel' address = Some r.
Proof.
  intros Hle. unfold evaluateCell.
  destruct (cells sheet !! address) as [[v | src ast | msg c]|]; try (intros H; exact H).
  destruct (evaluateAst B sheet fuel ast {[address]}) as [a v | e |] eqn:H; [| | discriminate].
  - now rewrite (evaluateAst_mono B sheet fuel fuel' ast {[address]} (Done a v) Hle)
      by (discriminate || exact H).
  - now rewrite (evaluateAst_mono B sheet fuel fuel' ast {[address]} (Raise e) Hle)
      by (discriminate || exact H).
Qed.

(** [evaluateCell] has one result. *)
Lemma cell_result_deterministic (address : CellAddress) (r r' : EvalResult) :
  cell_result B sheet address r -> cell_result B sheet address r' -> r = r'.
Proof.
  intros [f Hf] [f' Hf'].
  apply (evaluateCell_mono f (Nat.max f f')) in Hf; [| lia].
  apply (evaluateCell_mono f' (Nat.max f f')) in Hf'; [| lia]. congruence.
Qed.

End Cycles.

(** C3, as the specification states it, fails: on [guarded_sheet], [A1]
    holds a formula that mentions [B1] and [B1] a formula that mentions
    [A1], and both evaluate to 5; the reference to [B1] stands in the
    branch that [IF] does not evaluate. *)
Lemma unreached_reference_is_no_cycle :
  ~ (forall B sheet a b srcA astA srcB astB,
        cells sheet !! a = Some (FormulaCell srcA astA) ->
        cells sheet !! b = Some (FormulaCell srcB astB) ->
        mentions astA b -> mentions astB a ->
        cell_result B sheet a cycle_result /\ cell_result B sheet b cycle_result).
Proof.
  intros H.
  pose (B := mkBuiltins (fun _ _ => nan) (fun _ => "")).
  destruct (H B guarded_sheet "A1" "B1" _ _ _ _ eq_refl eq_refl) as [HA _].
  - apply mentions_arg with (arg := CellRef "B1" relative); [| constructor].
    repeat constructor.
  - constructor.
  - assert (Hfive : cell_result B guarded_sheet "A1" {| value := VNumber 5; error := None |})
      by (exists 3%nat; reflexivity).
    pose proof (cell_result_deterministic _ _ _ _ _ HA Hfive) as Heq.
    apply (f_equal error) in Heq. discriminate.
Qed.

(** The two cells of the specification's example, [A1 = B1] and
    [B1 = A1], at every recursion depth of 2 or more. *)
Lemma direct_references_are_cycles (B : Builtins) (sheet : Sheet) (a b : CellAddress)
  (srcA srcB : string) (absA absB : AxisFlags) (fuel : nat) :
  cells sheet !! a = Some (FormulaCell srcA (CellRef b absA)) ->
  cells sheet !! b = Some (FormulaCell srcB (CellRef a absB)) ->
  evaluateCell B sheet (S (S fuel)) a = Some cycle_result
  /\ evaluateCell B sheet (S (S fuel)) b = Some cycle_result.
Proof.
  assert (Hone : forall x y srcX srcY absX absY,
             cells sheet !! x = Some (FormulaCell srcX (CellRef y absX)) ->
             cells sheet !! y = Some (FormulaCell srcY (CellRef x absY)) ->
             evaluateCell B sheet (S (S fuel)) x = Some cycle_result).
  { intros x y srcX srcY absX absY Hx Hy. unfold evaluateCell. rewrite Hx.
    cbn [evaluateAst evaluateAst_body]. unfold bind at 1.
    unfold evaluateCellRef at 1.
    destruct (decide (y ∈ ({[x]} : gset string))) as [Hin | Hout]; [reflexivity |].
    rewrite Hy. cbn [evaluateAst evaluateAst_body]. unfold bind at 1.
    rewrite evaluateCellRef_visited by set_solver. reflexivity. }
  intros Ha Hb. split; eauto.
Qed.

Section Conditional.

Context (B : Builtins) (sheet : Sheet).

Lemma evaluateAst_IF (fuel : nat) (arg0 arg1 arg2 : FormulaAst)
  (visited v1 : gset CellAddress) (c : CellValue) :
  evaluateAst B sheet fuel arg0 visited = Done (Scalar c) v1 ->
  evaluateAst B sheet (S fuel) (FunctionCall "IF" [arg0; arg1; arg2]) visited
  = scalar_only "IF branch result"
      (evaluateAst B sheet fuel (if js_truthy c then arg1 else arg2) v1).
Proof.
  intros H0. cbn [evaluateAst evaluateAst_body]. unfold bind at 1.
  change (evaluateFunction (evaluateAst B sheet fuel) "IF" [arg0; arg1; arg2] visited)
    with (bind (evaluateAst B sheet fuel arg0) (fun c =>
          bind (lift (ensureScalar c "IF condition")) (fun condition =>
          bind (evaluateAst B sheet fuel (if js_truthy condition then arg1 else arg2))
               (fun r => lift (ensureScalar r "IF branch result")))) visited).
  unfold bind at 1. rewrite H0. cbn [ensureScalar lift]. unfold bind at 1, ret at 1.
  unfold bind.
  destruct (evaluateAst B sheet fuel (if js_truthy c then arg1 else arg2) v1)
    as [[v | vs] v2 | e |]; reflexivity.
Qed.

Lemma scalar_only_finished (context : string) (out : Outcome EvalValue) :
  out <> OutOfFuel -> scalar_only context out <> OutOfFuel.
Proof. destruct out as [[v | vs] v2 | e |]; simpl; congruence. Qed.

Lemma evaluateAst_IF_arity (fuel : nat) (args : list FormulaAst) (visited : gset CellAddress) :
  length args <> 3%nat ->
  evaluateAst B sheet (S fuel) (FunctionCall "IF" args) visited
  = Raise (Error "IF requires exactly 3 arguments").
Proof.
  intros Hlen. destruct args as [|arg0 [|arg1 [|arg2 [|arg3 rest]]]];
    try reflexivity. now contradiction Hlen.
Qed.

End Conditional.

(** C6, as the specification states it, fails: a condition that
    evaluates to [false] is not null, not 0 and not the empty string, and
    [IF] selects its third argument all the same. *)
Lemma IF_false_selects_third :
  ~ (forall B sheet arg0 arg1 arg2 visited c v1 out,
        evaluates B sheet arg0 visited (Done (Scalar c) v1) ->
        evaluates B sheet (if spec_truthy c then arg1 else arg2) v1 out ->
        evaluates B sheet (FunctionCall "IF" [arg0; arg1; arg2]) visited
          (scalar_only "IF branch result" out)).
Proof.
  intros H.
  pose (B := mkBuiltins (fun _ _ => nan) (fun _ => "")).
  specialize (H B (sheet_of []) (BooleanLiteral false) (NumberLiteral 1) (NumberLiteral 2)
                ∅ (VBoolean false) ∅ (Done (Scalar (VNumber 1)) ∅)).
  assert (Hactual : evaluates B (sheet_of [])
                      (FunctionCall "IF" [BooleanLiteral false; NumberLiteral 1; NumberLiteral 2])
                      ∅ (Done (Scalar (VNumber 2)) ∅)).
  { split; [discriminate | exists 2%nat; reflexivity]. }
  assert (Hclaimed := H ltac:(split; [discriminate | exists 1%nat; reflexivity])
                        ltac:(split; [discriminate | exists 1%nat; reflexivity])).
  pose proof (evaluates_deterministic _ _ _ _ _ _ Hclaimed Hactual) as Heq.
  apply (f_equal (fun o => match o with
                           | Done (Scalar (VNumber x)) _ => (x =? 1)%float
                           | _ => false
                           end)) in Heq.
  vm_compute in Heq. discriminate.
Qed.

(** C6, amended. For every argument list of exactly 3 expressions, [IF]
    evaluates its condition, selects the second argument when the
    condition is truthy in the JavaScript sense (not null, not [false],
    not 0 nor NaN, not the empty string) and the third argument otherwise,
    and ends as the selected argument does, a range result being refused;
    nothing is asked of the unselected argument, which is not evaluated.
    An [IF] call with an argument count other than 3 throws, and
    [evaluateCell] on a cell holding such a call returns an [EVAL]
    result. *)
Theorem IF_selects_by_truthiness (B : Builtins) (sheet : Sheet) :
  (forall arg0 arg1 arg2 visited c v1 out,
      evaluates B sheet arg0 visited (Done (Scalar c) v1) ->
      evaluates B sheet (if js_truthy c then arg1 else arg2) v1 out ->
      evaluates B sheet (FunctionCall "IF" [arg0; arg1; arg2]) visited
        (scalar_only "IF branch result" out))
  /\ (forall args visited,
        length args <> 3%nat ->
        evaluates B sheet (FunctionCall "IF" args) visited
          (Raise (Error "IF requires exactly 3 arguments")))
  /\ (forall address src args fuel,
        cells sheet !! address = Some (FormulaCell src (FunctionCall "IF" args)) ->
        length args <> 3%nat ->
        evaluateCell B sheet (S fuel) address
        = Some {| value := VNull;
                  error := Some {| code := "EVAL";
                                   message := "IF requires exactly 3 arguments" |} |}).
Proof.
  split; [| split].
  - intros arg0 arg1 arg2 visited c v1 out [_ [f0 H0]] [Hout [f1 H1]].
    split; [now apply scalar_only_finished |].
    exists (S (Nat.max f0 f1)).
    rewrite (evaluateAst_IF B sheet _ arg0 arg1 arg2 visited v1 c).
    + f_equal. apply (evaluateAst_mono B sheet f1); [lia | exact Hout | exact H1].
    + apply (evaluateAst_mono B sheet f0); [lia | discriminate | exact H0].
  - intros args visited Hlen. split; [discriminate |].
    exists 1%nat. now apply evaluateAst_IF_arity.
  - intros address src args fuel Hcell Hlen. unfold evaluateCell. rewrite Hcell.
    now rewrite evaluateAst_IF_arity.
Qed.

(** The conditionals of the specification's examples; in the last one
    the unselected argument is a division by zero. *)
Lemma IF_selects_by_truthiness_witness :
  (forall B, evaluates B (sheet_of []) if_yes_no ∅ (Done (Scalar (VString "yes")) ∅))
  /\ (forall B, evaluates B (sheet_of []) if_unequal ∅ (Done (Scalar (VNumber 2)) ∅))
  /\ (forall B, evaluates B (sheet_of []) if_guarded ∅ (Done (Scalar (VNumber 2)) ∅)).
Proof.
  repeat split; try discriminate.
  - apply (proj1 (IF_selects_by_truthiness B (sheet_of [])) _ _ _ ∅ (VBoolean true) ∅
             (Done (Scalar (VString "yes")) ∅));
      (split; [discriminate | exists 2%nat; reflexivity]).
  - apply (proj1 (IF_selects_by_truthiness B (sheet_of [])) _ _ _ ∅ (VBoolean false) ∅
             (Done (Scalar (VNumber 2)) ∅));
      (split; [discriminate | exists 2%nat; reflexivity]).
  - apply (proj1 (IF_selects_by_truthiness B (sheet_of [])) _ _ _ ∅ (VBoolean false) ∅
             (Done (Scalar (VNumber 2)) ∅));
      (split; [discriminate | exists 2%nat; reflexivity]).
Defined.

Section ErrorCells.

Context (B : Builtins) (sheet : Sheet) (address : CellAddress) (msg : string) (c : ErrorCode).
Hypothesis cell_is_error : cells sheet !! address = Some (ErrorCell msg c).


Context (ev ev' : FormulaAst -> Eval EvalValue).
Hypothesis ev_ext : forall ast visited, ev ast visited = ev' ast visited.







End ErrorCells.





(** [SUM] over a range that holds an error cell adds up the numbers and
    passes over the error cell as over an empty one. *)
Lemma sum_passes_over_error_cell (B : Builtins) (fuel : nat) :
  evaluateCell B error_sheet (S (S (S fuel))) "A1" = Some {| value := VNull; error := None |}
  /\ evaluateCell B error_sheet (S (S (S fuel))) "A2"
     = Some {| value := VNumber 7.5; error := None |}.
Proof. split; vm_compute; reflexivity. Qed.

(** [=E1+E1] over an error cell [E1] evaluates to [CYCLE]: the second
    reference finds the address in the visited set. *)
Lemma error_cell_twice_is_cycle (B : Builtins) (fuel : nat) :
  evaluateCell B twice_sheet (S (S fuel)) "A1" = Some cycle_result.
Proof. vm_compute. reflexivity. Qed.

Section Termination.

Context (B : Builtins) (sheet : Sheet).

Lemma cell_depth_bound (address : CellAddress) (src : string) (ast : FormulaAst) :
  cells sheet !! address = Some (FormulaCell src ast) -> (depth ast <= max_depth sheet)%nat.
Proof.
  intros H. apply elem_of_map_to_list in H.
  pose proof (proj1 (list_max_le _ (max_depth sheet)) (Nat.le_refl _)) as Hall.
  rewrite Forall_forall in Hall.
  apply (Hall (cell_depth (FormulaCell src ast))).
  apply list_elem_of_fmap. now exists (address, FormulaCell src ast).
Qed.

Lemma unvisited_mono (v v' : gset CellAddress) :
  v ⊆ v' -> (unvisited sheet v' <= unvisited sheet v)%nat.
Proof. intros H. unfold unvisited. apply subseteq_size. set_solver. Qed.

Lemma unvisited_insert (address : CellAddress) (v : gset CellAddress) :
  is_Some (cells sheet !! address) -> address ∉ v ->
  (unvisited sheet ({[address]} ∪ v) < unvisited sheet v)%nat.
Proof.
  intros Hcell Hfresh. unfold unvisited. apply subset_size.
  apply elem_of_dom in Hcell. apply strict_spec_alt. split; [set_solver |].
  intros Heq. assert (Hin : address ∈ dom (cells sheet) ∖ v) by set_solver.
  rewrite <- Heq in Hin. set_solver.
Qed.

Lemma settled_bind {A C} (m : Eval A) (k : A -> Eval C) (v : gset CellAddress) :
  settled v (m v) -> (forall a v', v ⊆ v' -> settled v' (k a v')) -> settled v (bind m k v).
Proof.
  unfold bind. destruct (m v) as [a v' | e |]; simpl; [| trivial | trivial].
  intros Hv Hk. specialize (Hk a v' Hv).
  destruct (k a v') as [c v'' | e |]; simpl in *; [set_solver | trivial | trivial].
Qed.

Lemma settled_lift {A} (c : Completion A) (v : gset CellAddress) : settled v (lift c v).
Proof. destruct c; simpl; [reflexivity | trivial]. Qed.

Lemma settled_ret {A} (a : A) (v : gset CellAddress) : settled v (ret a v).
Proof. simpl. reflexivity. Qed.

Section Step.

(** One more level of recursion: [ev] settles whatever fits in [fuel]. *)
Context (fuel : nat) (ev : FormulaAst -> Eval EvalValue).
Hypothesis ev_settles : forall ast v, (enough sheet ast v <= fuel)%nat -> settled v (ev ast v).

Lemma evaluateCellRef_settles (address : CellAddress) (v : gset CellAddress) :
  (unvisited sheet v * S (max_depth sheet) <= fuel)%nat ->
  settled v (evaluateCellRef sheet ev address v).
Proof.
  intros Hfuel. unfold evaluateCellRef.
  destruct (decide (address ∈ v)) as [Hin | Hout]; [exact I |].
  destruct (cells sheet !! address) as [[lit | src ast | msg c]|] eqn:Hcell;
    simpl; try set_solver.
  pose proof (cell_depth_bound _ _ _ Hcell) as Hdepth.
  pose proof (unvisited_insert address v ltac:(eauto) Hout) as Hless.
  assert (Hfit : (enough sheet ast ({[address]} ∪ v) <= fuel)%nat) by (unfold enough; nia).
  specialize (ev_settles ast _ Hfit).
  destruct (ev ast ({[address]} ∪ v)) as [r v' | e |]; simpl in *; [| trivial | trivial].
  destruct r; simpl; [set_solver | trivial].
Qed.

Lemma mapM_settles (addresses : list CellAddress) (v : gset CellAddress) :
  (unvisited sheet v * S (max_depth sheet) <= fuel)%nat ->
  settled v (mapM (evaluateCellRef sheet ev) addresses v).
Proof.
  revert v. induction addresses as [|a rest IH]; intros v Hfuel; [apply settled_ret |].
  cbn [mapM]. apply settled_bind; [now apply evaluateCellRef_settles |].
  intros y v' Hv. apply settled_bind; [| intros; apply settled_ret].
  apply IH. pose proof (unvisited_mono v v' Hv). nia.
Qed.

Lemma for_args_settles {A} (step : A -> EvalValue -> A) (args : list FormulaAst) (acc : A)
  (v : gset CellAddress) :
  Forall (fun arg => enough sheet arg v <= fuel)%nat args ->
  settled v (for_args ev step args acc v).
Proof.
  revert acc v. induction args as [|arg rest IH]; intros acc v Hargs; [apply settled_ret |].
  cbn [for_args]. apply Forall_cons in Hargs as [Harg Hrest].
  apply settled_bind; [now apply ev_settles |].
  intros value v' Hv. apply IH. eapply Forall_impl; [exact Hrest |].
  intros x Hx. simpl in Hx. unfold enough in *. pose proof (unvisited_mono v v' Hv). nia.
Qed.

Lemma evaluateFunction_settles (name : string) (args : list FormulaAst) (v : gset CellAddress) :
  Forall (fun arg => enough sheet arg v <= fuel)%nat args ->
  settled v (evaluateFunction ev name args v).
Proof.
  intros Hargs. unfold evaluateFunction.
  repeat match goal with
         | |- context [if ?b then _ else _] => destruct b
         end;
    try (apply settled_bind; [now apply for_args_settles | intros; try destruct a; apply settled_ret]);
    try exact I.
  destruct args as [|arg0 [|arg1 [|arg2 [|arg3 rest]]]]; try exact I.
  apply Forall_cons in Hargs as [H0 Hargs]. apply Forall_cons in Hargs as [H1 Hargs].
  apply Forall_cons in Hargs as [H2 _].
  apply settled_bind; [now apply ev_settles | intros c v' Hv].
  apply settled_bind; [apply settled_lift | intros condition v'' Hv'].
  apply settled_bind; [| intros; apply settled_lift].
  apply ev_settles. unfold enough in *.
  pose proof (unvisited_mono v v' Hv). pose proof (unvisited_mono v' v'' Hv').
  destruct (js_truthy condition); nia.
Qed.

Lemma evaluateAst_body_settles (ast : FormulaAst) (v : gset CellAddress) :
  (enough sheet ast v <= S fuel)%nat -> settled v (evaluateAst_body B sheet ev ast v).
Proof.
  intros Hfuel. unfold enough in Hfuel.
  destruct ast as [n | s | b | address absolute | start end_ | name args | op lhs rhs | operand];
    cbn [evaluateAst_body depth] in *; try apply settled_ret.
  - apply settled_bind; [apply evaluateCellRef_settles; lia | intros; apply settled_ret].
  - apply settled_bind; [apply settled_lift | intros addresses v' Hv].
    apply settled_bind; [| intros; apply settled_ret].
    apply mapM_settles. pose proof (unvisited_mono v v' Hv). nia.
  - apply settled_bind; [| intros; apply settled_ret].
    apply evaluateFunction_settles.
    assert (Hmax : Forall (fun arg => depth arg
                     <= foldr (fun arg n => Nat.max (depth arg) n) 0 args)%nat args).
    { clear. induction args as [|arg rest IH]; constructor; simpl; [lia |].
      eapply Forall_impl; [exact IH |]. simpl. intros; lia. }
    eapply Forall_impl; [exact Hmax |]. simpl. intros arg Harg. unfold enough. lia.
  - apply settled_bind; [| intros; apply settled_ret].
    unfold evaluateBinaryOp.
    apply settled_bind; [apply ev_settles; unfold enough; lia | intros l v' Hv].
    apply settled_bind; [| intros; apply settled_lift].
    apply ev_settles. unfold enough. pose proof (unvisited_mono v v' Hv). nia.
  - apply settled_bind; [apply ev_settles; unfold enough; lia |].
    intros value v' Hv. destruct value as [[n | s | b |] | vs]; simpl; trivial; reflexivity.
Qed.

End Step.

(** Every evaluation ends, returning or throwing, within the depth
    [enough] computes; a return leaves in the visited set all that was
    in it. *)
Lemma evaluateAst_settles (fuel : nat) (ast : FormulaAst) (v : gset CellAddress) :
  (enough sheet ast v <= fuel)%nat -> settled v (evaluateAst B sheet fuel ast v).
Proof.
  revert ast v. induction fuel as [|fuel IH]; intros ast v Hfuel.
  - unfold enough in Hfuel. destruct ast; simpl in Hfuel; lia.
  - cbn [evaluateAst]. now apply (evaluateAst_body_settles fuel).
Qed.

Lemma evaluates_total (ast : FormulaAst) (v : gset CellAddress) :
  exists out, evaluates B sheet ast v out.
Proof.
  pose proof (evaluateAst_settles _ ast v (Nat.le_refl _)) as H.
  exists (evaluateAst B sheet (enough sheet ast v) ast v). split; [| eauto].
  intros Heq. rewrite Heq in H. exact H.
Qed.

End Termination.

(** X1. [evaluateCell] returns a result for every address of a sheet
    whose formulas name ranges with corners below [index_limit] only: the
    recursion through references ends, on sheets with circular references
    too, the loops over the ranges end, and whatever is thrown inside is
    caught and turned into a result. *)
Theorem evaluateCell_returns (B : Builtins) (sheet : Sheet) (address : CellAddress) :
  sheet_within sheet = true ->
  exists r, cell_result B sheet address r.
Proof.
  intros _. unfold cell_result, evaluateCell.
  destruct (cells sheet !! address) as [[lit | src ast | msg c]|];
    try (eexists; exists 0%nat; reflexivity).
  destruct (evaluates_total B sheet ast {[address]}) as [out [Hout [fuel Hfuel]]].
  destruct out as [[v | vs] v' | e |]; [| | | congruence];
    eexists; exists fuel; rewrite Hfuel; reflexivity.
Qed.

Lemma evaluateCell_returns_witness :
  (forall B, exists r, cell_result B error_sheet "A2" r)
  /\ sheet_within error_sheet = true.
Proof.
  split; [| reflexivity]. intros B.
  apply (evaluateCell_returns B error_sheet "A2"). reflexivity.
Defined.

(** * References that close a cycle *)

Section Reaching.

Context (B : Builtins) (sheet : Sheet).

(** A return leaves in the visited set all that was in it. *)
Lemma evaluates_grows (ast : FormulaAst) (v v1 : gset CellAddress) (value : EvalValue) :
  evaluates B sheet ast v (Done value v1) -> v ⊆ v1.
Proof.
  intros [Hout [fuel Hfuel]].
  pose proof (evaluateAst_settles B sheet (Nat.max fuel (enough sheet ast v)) ast v
                ltac:(lia)) as Hsettled.
  rewrite (evaluateAst_mono B sheet fuel _ ast v (Done value v1)) in Hsettled
    by (try lia; assumption).
  exact Hsettled.
Qed.

Lemma returns_all_grows (asts : list FormulaAst) (v v' : gset CellAddress) :
  returns_all B sheet asts v v' -> v ⊆ v'.
Proof.
  induction 1 as [v | ast rest v value v1 v' Hast _ IH]; [reflexivity |].
  pose proof (evaluates_grows _ _ _ _ Hast). set_solver.
Qed.

Lemma reaches_grows (ast : FormulaAst) (v v' : gset CellAddress) (x : CellAddress) :
  reaches B sheet ast v x v' -> v ⊆ v'.
Proof.
  induction 1 as
    [x absolute v | start end_ before x after v v' _ Hbefore
    | name before arg after v v1 x v' _ Hbefore _ IH
    | name arg0 arg1 arg2 v x v' _ _ IH
    | name arg0 arg1 arg2 v condition v1 x v' _ Hcond _ IH
    | op lhs rhs v x v' _ IH
    | op lhs rhs v value v1 x v' Hlhs _ IH
    | operand v x v' _ IH]; try assumption; try reflexivity.
  - exact (returns_all_grows _ _ _ Hbefore).
  - pose proof (returns_all_grows _ _ _ Hbefore). set_solver.
  - pose proof (evaluates_grows _ _ _ _ Hcond). set_solver.
  - pose proof (evaluates_grows _ _ _ _ Hlhs). set_solver.
Qed.

(** What returned at some depth returns at every depth from there on. *)
Lemma evaluates_from (ast : FormulaAst) (v : gset CellAddress) (out : Outcome EvalValue) :
  evaluates B sheet ast v out ->
  exists m, forall n, (m <= n)%nat -> evaluateAst B sheet n ast v = out.
Proof.
  intros [Hout [fuel Hfuel]]. exists fuel. intros n Hn.
  now apply (evaluateAst_mono B sheet fuel n).
Qed.

(** A throw of the argument that the loop of an aggregate function comes
    to, the arguments before it having returned, is the outcome of the
    loop. *)
Lemma for_args_raises {A} (step : A -> EvalValue -> A) (before after : list FormulaAst)
  (arg : FormulaAst) (e : JsError) (v v1 : gset CellAddress) :
  returns_all B sheet before v v1 ->
  (exists m, forall n, (m <= n)%nat -> evaluateAst B sheet n arg v1 = Raise e) ->
  exists m, forall n, (m <= n)%nat -> forall acc,
    for_args (evaluateAst B sheet n) step (before ++ arg :: after) acc v = Raise e.
Proof.
  intros Hbefore [m0 Hraise].
  induction Hbefore as [v | ast rest v value v1 v' Hast _ IH].
  - exists m0. intros n Hn acc. cbn [app for_args]. unfold bind. now rewrite Hraise.
  - destruct (IH Hraise) as [m Hm]. destruct (evaluates_from _ _ _ Hast) as [k Hk].
    exists (Nat.max m k). intros n Hn acc.
    change ((ast :: rest) ++ arg :: after)%list with (ast :: (rest ++ arg :: after))%list.
    cbn [for_args]. unfold bind. rewrite Hk by lia. apply Hm. lia.
Qed.

(** The same for the cells of a range. *)
Lemma mapM_raises (before after : list CellAddress) (x : CellAddress) (e : JsError)
  (v v1 : gset CellAddress) :
  returns_all B sheet ((fun addr => CellRef addr (mkFlags false false)) <$> before) v v1 ->
  (exists m, forall n, (m <= n)%nat ->
     evaluateCellRef sheet (evaluateAst B sheet n) x v1 = Raise e) ->
  exists m, forall n, (m <= n)%nat ->
    mapM (evaluateCellRef sheet (evaluateAst B sheet n)) (before ++ x :: after) v = Raise e.
Proof.
  intros Hbefore [m0 Hraise]. revert v Hbefore.
  induction before as [|addr before IH]; intros v Hbefore.
  - inversion Hbefore; subst. exists m0. intros n Hn.
    cbn [app mapM]. unfold bind. now rewrite Hraise.
  - rewrite fmap_cons in Hbefore. inversion Hbefore as [| ast rest v0 value v2 v' Hast Hrest];
      subst.
    destruct (IH _ Hrest) as [m Hm]. destruct (evaluates_from _ _ _ Hast) as [k Hk].
    exists (Nat.max m k). intros n Hn.
    change ((addr :: before) ++ x :: after)%list with (addr :: (before ++ x :: after))%list.
    cbn [mapM]. unfold bind at 1.
    pose proof (Hk (S n) ltac:(lia)) as Hread.
    cbn [evaluateAst evaluateAst_body] in Hread. unfold bind, ret in Hread.
    destruct (evaluateCellRef sheet (evaluateAst B sheet n) addr v) as [cv v3 | |];
      try discriminate.
    injection Hread as _ ->. unfold bind. now rewrite Hm by lia.
Qed.

Lemma evaluateFunction_aggregate_raises (name : string) (before after : list FormulaAst)
  (arg : FormulaAst) (e : JsError) (v v1 : gset CellAddress) :
  is_aggregate name = true ->
  returns_all B sheet before v v1 ->
  (exists m, forall n, (m <= n)%nat -> evaluateAst B sheet n arg v1 = Raise e) ->
  exists m, forall n, (m <= n)%nat ->
    evaluateFunction (evaluateAst B sheet n) name (before ++ arg :: after) v = Raise e.
Proof.
  intros Hname Hbefore Hraise.
  destruct (for_args_raises sum_step before after arg e v v1 Hbefore Hraise) as [m1 H1].
  destruct (for_args_raises avg_step before after arg e v v1 Hbefore Hraise) as [m2 H2].
  destruct (for_args_raises min_step before after arg e v v1 Hbefore Hraise) as [m3 H3].
  destruct (for_args_raises max_step before after arg e v v1 Hbefore Hraise) as [m4 H4].
  destruct (for_args_raises count_step before after arg e v v1 Hbefore Hraise) as [m5 H5].
  exists (m1 + m2 + m3 + m4 + m5)%nat. intros n Hn.
  unfold is_aggregate in Hname. unfold evaluateFunction. revert Hname. cbv zeta.
  destruct (String.eqb (toUpperCase name) "SUM");
    [intros _; unfold bind; now rewrite H1 by lia |].
  destruct (String.eqb (toUpperCase name) "AVG");
    [intros _; cbn [orb]; unfold bind; now rewrite H2 by lia |].
  destruct (String.eqb (toUpperCase name) "AVERAGE");
    [intros _; cbn [orb]; unfold bind; now rewrite H2 by lia |].
  destruct (String.eqb (toUpperCase name) "MIN");
    [intros _; cbn [orb]; unfold bind; now rewrite H3 by lia |].
  destruct (String.eqb (toUpperCase name) "MAX");
    [intros _; cbn [orb]; unfold bind; now rewrite H4 by lia |].
  destruct (String.eqb (toUpperCase name) "COUNT");
    [intros _; cbn [orb]; unfold bind; now rewrite H5 by lia |].
  discriminate.
Qed.

(** A throw of the reference the evaluation of a formula comes to is the
    outcome of the formula: what was evaluated before has returned, and
    nothing catches the throw. *)
Lemma reaches_raises (ast : FormulaAst) (x : CellAddress) (e : JsError)
  (v v' : gset CellAddress) :
  reaches B sheet ast v x v' ->
  (exists m, forall n, (m <= n)%nat ->
     evaluateCellRef sheet (evaluateAst B sheet n) x v' = Raise e) ->
  exists m, forall n, (m <= n)%nat -> evaluateAst B sheet n ast v = Raise e.
Proof.
  intros Hreaches Hraise. induction Hreaches as
    [x absolute v | start end_ before x after v v' Hrange Hbefore
    | name before arg after v v1 x v' Hname Hbefore _ IH
    | name arg0 arg1 arg2 v x v' Hname _ IH
    | name arg0 arg1 arg2 v condition v1 x v' Hname Hcond _ IH
    | op lhs rhs v x v' _ IH
    | op lhs rhs v value v1 x v' Hlhs _ IH
    | operand v x v' _ IH].
  - destruct Hraise as [m0 Hraise]. exists (S m0). intros [|n] Hn; [lia |].
    cbn [evaluateAst evaluateAst_body]. unfold bind. now rewrite Hraise by lia.
  - destruct (mapM_raises before after x e v v' Hbefore Hraise) as [m Hm].
    exists (S m). intros [|n] Hn; [lia |].
    cbn [evaluateAst evaluateAst_body]. rewrite Hrange. cbn [lift].
    unfold bind at 1, ret at 1. unfold bind at 1. now rewrite Hm by lia.
  - destruct (evaluateFunction_aggregate_raises name before after arg e v v1
                Hname Hbefore (IH Hraise)) as [m Hm].
    exists (S m). intros [|n] Hn; [lia |].
    cbn [evaluateAst evaluateAst_body]. unfold bind at 1. now rewrite Hm by lia.
  - destruct (IH Hraise) as [m Hm]. exists (S m). intros [|n] Hn; [lia |].
    cbn [evaluateAst evaluateAst_body]. unfold bind at 1.
    enough (evaluateFunction (evaluateAst B sheet n) name [arg0; arg1; arg2] v = Raise e)
      as -> by reflexivity.
    unfold evaluateFunction. rewrite Hname. cbn -[evaluateAst].
    unfold bind. now rewrite Hm by lia.
  - destruct (IH Hraise) as [m Hm]. destruct (evaluates_from _ _ _ Hcond) as [k Hk].
    exists (S (Nat.max m k)). intros [|n] Hn; [lia |].
    cbn [evaluateAst evaluateAst_body]. unfold bind at 1.
    enough (evaluateFunction (evaluateAst B sheet n) name [arg0; arg1; arg2] v = Raise e)
      as -> by reflexivity.
    unfold evaluateFunction. rewrite Hname. cbn -[evaluateAst].
    unfold bind at 1. rewrite Hk by lia. cbn [ensureScalar lift]. unfold bind at 1, ret at 1.
    unfold bind at 1. now rewrite Hm by lia.
  - destruct (IH Hraise) as [m Hm]. exists (S m). intros [|n] Hn; [lia |].
    cbn [evaluateAst evaluateAst_body]. unfold evaluateBinaryOp, bind.
    now rewrite Hm by lia.
  - destruct (IH Hraise) as [m Hm]. destruct (evaluates_from _ _ _ Hlhs) as [k Hk].
    exists (S (Nat.max m k)). intros [|n] Hn; [lia |].
    cbn [evaluateAst evaluateAst_body]. unfold evaluateBinaryOp, bind.
    rewrite Hk by lia. now rewrite Hm by lia.
  - destruct (IH Hraise) as [m Hm]. exists (S m). intros [|n] Hn; [lia |].
    cbn [evaluateAst evaluateAst_body]. unfold bind. now rewrite Hm by lia.
Qed.

(** The evaluation of [a] comes to the reference to [b], and that of the
    formula of [b], from there, to a reference to [a]: the cycle error of
    that reference is the outcome for [a]. *)
Lemma there_and_back_is_cycle (a b : CellAddress) (srcA srcB : string)
  (astA astB : FormulaAst) (v1 v2 : gset CellAddress) :
  cells sheet !! a = Some (FormulaCell srcA astA) ->
  cells sheet !! b = Some (FormulaCell srcB astB) ->
  reaches B sheet astA {[a]} b v1 -> reaches B sheet astB ({[b]} ∪ v1) a v2 ->
  cell_result B sheet a cycle_result.
Proof.
  intros Ha Hb HA HB.
  pose proof (reaches_grows _ _ _ _ HA) as Hv1.
  pose proof (reaches_grows _ _ _ _ HB) as Hv2.
  destruct (reaches_raises astA b cycle_error {[a]} v1 HA) as [m Hm].
  { destruct (decide (b ∈ v1)) as [Hin | Hout].
    - exists 0%nat. intros n _. now apply evaluateCellRef_visited.
    - destruct (reaches_raises astB a cycle_error ({[b]} ∪ v1) v2 HB) as [m Hm].
      { exists 0%nat. intros n _. apply evaluateCellRef_visited. set_solver. }
      exists m. intros n Hn. unfold evaluateCellRef.
      destruct (decide (b ∈ v1)); [contradiction |].
      now rewrite Hb, Hm. }
  exists m. unfold evaluateCell. now rewrite Ha, Hm.
Qed.

(** Two cells that each add a number and the other cell, as in
    [A1 = 1 + B1] and [B1 = 1 + A1]: the references are the right
    operands, and both cells evaluate to [CYCLE]. *)
Lemma right_references_are_cycles (a b : CellAddress) (srcA srcB : string)
  (opA opB : BinOp) (n m : float) (absA absB : AxisFlags) :
  cells sheet !! a = Some (FormulaCell srcA (BinaryOp opA (NumberLiteral n) (CellRef b absA))) ->
  cells sheet !! b = Some (FormulaCell srcB (BinaryOp opB (NumberLiteral m) (CellRef a absB))) ->
  cell_result B sheet a cycle_result /\ cell_result B sheet b cycle_result.
Proof.
  assert (Hright : forall op k x absolute v,
             reaches B sheet (BinaryOp op (NumberLiteral k) (CellRef x absolute)) v x v).
  { intros op k x absolute v. eapply reaches_right; [| apply reaches_ref].
    split; [discriminate | exists 1%nat; reflexivity]. }
  intros Ha Hb. split.
  - exact (there_and_back_is_cycle a b _ _ _ _ _ _ Ha Hb (Hright _ _ _ _ _) (Hright _ _ _ _ _)).
  - exact (there_and_back_is_cycle b a _ _ _ _ _ _ Hb Ha (Hright _ _ _ _ _) (Hright _ _ _ _ _)).
Qed.

(** On [early_throw_sheet] the division by zero is thrown before the
    evaluation of [A1] comes to its reference to [B1]: both cells
    evaluate to [EVAL]. *)
Lemma thrown_before_reference_is_no_cycle (fuel : nat) :
  evaluateCell B early_throw_sheet (S (S (S fuel))) "A1"
  = Some {| value := VNull;
            error := Some {| code := "EVAL"; message := "Division by zero" |} |}
  /\ evaluateCell B early_throw_sheet (S (S (S (S fuel)))) "B1"
     = Some {| value := VNull;
               error := Some {| code := "EVAL"; message := "Division by zero" |} |}.
Proof. split; vm_compute; reflexivity. Qed.

End Reaching.

(** C3, amended. Take a sheet whose formulas name ranges that
    [getCellsInRange] can list ([sheet_within]: corners below
    [index_limit], no more cells than an array holds). When cell [a]
    holds a formula whose evaluation comes to its reference to cell [b]
    (what the formula evaluates before it has returned, and the reference
    stands in no branch that [IF] leaves out), and the evaluation of the
    formula [b] holds comes from there to its reference to [a], and so
    with [a] and [b] exchanged, [evaluateCell] on [a] and on [b] each
    return (nothing is thrown out of the engine) a null value with the
    error code [CYCLE]. The reference may stand anywhere in the formula:
    as the right operand, as a later argument, inside a range. *)
Theorem mutual_references_are_cycles (B : Builtins) (sheet : Sheet) (a b : CellAddress)
  (srcA srcB : string) (astA astB : FormulaAst) (v1 v2 w1 w2 : gset CellAddress) :
  sheet_within sheet = true ->
  cells sheet !! a = Some (FormulaCell srcA astA) ->
  cells sheet !! b = Some (FormulaCell srcB astB) ->
  reaches B sheet astA {[a]} b v1 -> reaches B sheet astB ({[b]} ∪ v1) a v2 ->
  reaches B sheet astB {[b]} a w1 -> reaches B sheet astA ({[a]} ∪ w1) b w2 ->
  cell_result B sheet a cycle_result /\ cell_result B sheet b cycle_result.
Proof.
  intros _ Ha Hb HA HBA HB HAB. split.
  - exact (there_and_back_is_cycle B sheet a b srcA srcB astA astB v1 v2 Ha Hb HA HBA).
  - exact (there_and_back_is_cycle B sheet b a srcB srcA astB astA w1 w2 Hb Ha HB HAB).
Qed.

Lemma mutual_references_are_cycles_witness :
  (forall B, cell_result B late_mutual_sheet "A1" cycle_result)
  /\ (forall B, cell_result B late_mutual_sheet "B1" cycle_result).
Proof.
  assert (Hone : forall B v,
             evaluates B late_mutual_sheet (NumberLiteral 1) v (Done (Scalar (VNumber 1)) v))
    by (intros B v; split; [discriminate | exists 1%nat; reflexivity]).
  assert (HA : forall B v,
             reaches B late_mutual_sheet (BinaryOp Add (NumberLiteral 1) (CellRef "B1" relative))
               v "B1" v)
    by (intros B v; eapply reaches_right; [apply Hone | apply reaches_ref]).
  assert (HB : forall B v,
             reaches B late_mutual_sheet
               (FunctionCall "SUM" [NumberLiteral 1; CellRef "A1" relative]) v "A1" v).
  { intros B v.
    apply (reaches_argument B late_mutual_sheet "SUM" [NumberLiteral 1]
             (CellRef "A1" relative) [] v v "A1" v); [reflexivity | | apply reaches_ref].
    eapply returns_next; [apply Hone | apply returns_none]. }
  split; intros B.
  - exact (proj1 (mutual_references_are_cycles B late_mutual_sheet "A1" "B1" _ _ _ _
                    _ _ _ _ eq_refl eq_refl eq_refl (HA B _) (HB B _) (HB B _) (HA B _))).
  - exact (proj2 (mutual_references_are_cycles B late_mutual_sheet "A1" "B1" _ _ _ _
                    _ _ _ _ eq_refl eq_refl eq_refl (HA B _) (HB B _) (HB B _) (HA B _))).
Defined.

(** * More facts about the address codec *)

Section ParsedIndices.

Lemma span_spec (p : ascii -> bool) (s a b : string) :
  span p s = (a, b) -> s = a ++ b /\ string_forall p a = true /\ stops p b.
Proof.
  revert a b. induction s as [|c s IH]; intros a b H; simpl in H.
  - injection H as <- <-. repeat split.
  - destruct (p c) eqn:Hc.
    + destruct (span p s) as [a' b'] eqn:Hs. injection H as <- <-.
      destruct (IH a' b' eq_refl) as (-> & Ha & Hb).
      repeat split; [simpl; now rewrite Hc, Ha | exact Hb].
    + injection H as <- <-. repeat split. exact Hc.
Qed.

Lemma letterToCol_fold_lower (s : string) (a : Z) :
  0 <= a -> string_forall is_upper s = true -> a <= string_foldl letterToCol_step a s.
Proof.
  revert a. induction s as [|c s IH]; intros a Ha Hs; simpl in *; [lia |].
  apply andb_true_iff in Hs as [Hc Hs]. unfold is_upper in Hc.
  apply andb_true_iff in Hc as [Hc1 Hc2]. apply Z.leb_le in Hc1, Hc2.
  etransitivity; [| apply IH; [unfold letterToCol_step; lia | exact Hs]].
  unfold letterToCol_step. lia.
Qed.

Lemma letterToCol_nonneg (s : string) :
  string_forall is_upper s = true -> is_empty s = false -> 0 <= letterToCol s.
Proof.
  destruct s as [|c s]; [discriminate |]. simpl. intros Hs _. unfold letterToCol. simpl.
  apply andb_true_iff in Hs as [Hc Hs]. unfold is_upper in Hc.
  apply andb_true_iff in Hc as [Hc1 Hc2]. apply Z.leb_le in Hc1, Hc2.
  pose proof (letterToCol_fold_lower s (letterToCol_step 0 c)
                ltac:(unfold letterToCol_step; lia) Hs).
  unfold letterToCol_step in *. lia.
Qed.

Lemma parseInt_fold_lower (s : string) (a : Z) :
  0 <= a -> string_forall is_digit s = true -> a <= string_foldl parseInt_step a s.
Proof.
  revert a. induction s as [|c s IH]; intros a Ha Hs; simpl in *; [lia |].
  apply andb_true_iff in Hs as [Hc Hs]. unfold is_digit in Hc.
  apply andb_true_iff in Hc as [Hc1 Hc2]. apply Z.leb_le in Hc1, Hc2.
  etransitivity; [| apply IH; [unfold parseInt_step; lia | exact Hs]].
  unfold parseInt_step. lia.
Qed.

Lemma parseInt_nonneg (s : string) : string_forall is_digit s = true -> 0 <= parseInt s.
Proof. intros H. now apply parseInt_fold_lower. Qed.

(** What a successful match says about the text. *)
Lemma match_address_spec (addr dollarCol letters dollarRow digits : string) :
  match_address addr = Some (dollarCol, letters, dollarRow, digits) ->
  addr = dollarCol ++ letters ++ dollarRow ++ digits
  /\ (dollarCol = "" \/ dollarCol = "$") /\ (dollarRow = "" \/ dollarRow = "$")
  /\ string_forall is_upper letters = true /\ is_empty letters = false
  /\ string_forall is_digit digits = true /\ is_empty digits = false.
Proof.
  unfold match_address.
  destruct (opt_dollar addr) as [dc s1] eqn:H1.
  destruct (span is_upper s1) as [l s2] eqn:H2.
  destruct (opt_dollar s2) as [dr s3] eqn:H3.
  destruct (span is_digit s3) as [d s4] eqn:H4.
  destruct (negb (is_empty l) && negb (is_empty d) && is_empty s4) eqn:Hok; [| discriminate].
  intros [= <- <- <- <-].
  apply andb_true_iff in Hok as [Hok Hs4]. apply andb_true_iff in Hok as [Hl Hd].
  apply negb_true_iff in Hl, Hd.
  apply span_spec in H2 as (-> & Hup & _). apply span_spec in H4 as (-> & Hdig & _).
  destruct s4; [| discriminate]. rewrite string_app_empty_r in *.
  assert (Hdollar : forall s a b, opt_dollar s = (a, b) -> s = a ++ b /\ (a = "" \/ a = "$")).
  { intros s a b. unfold opt_dollar. destruct s as [|c s]; [intros [= <- <-]; auto |].
    destruct c as [[] [] [] [] [] [] [] []]; intros [= <- <-]; auto. }
  apply Hdollar in H1 as [-> Hdc]. apply Hdollar in H3 as [H3 Hdr]. rewrite H3.
  repeat split; assumption.
Qed.

(** A parsed column is never negative, and a parsed row is [-1] at the
    least (for the row text [0]). *)
Lemma parseAddress_bounds (addr : string) (p : ParsedAddress) :
  parseAddress addr = Returned p -> 0 <= col p /\ -1 <= row p.
Proof.
  unfold parseAddress. destruct (match_address addr) as [[[[dc l] dr] d]|] eqn:Hm;
    [| discriminate].
  intros [= <-]. simpl. apply match_address_spec in Hm as (_ & _ & _ & Hl & Hle & Hd & _).
  split; [now apply letterToCol_nonneg |]. pose proof (parseInt_nonneg d Hd). lia.
Qed.

Lemma opt_dollar_letters (letters rest : string) :
  string_forall is_upper letters = true -> is_empty letters = false ->
  opt_dollar (letters ++ rest) = ("", letters ++ rest).
Proof.
  destruct letters as [|c l]; [discriminate |]. simpl. intros H _.
  apply opt_dollar_other. intros ->. discriminate.
Qed.

(** [formatAddress] without flags returns for every column from 0 and
    every row from [-1], and [parseAddress] reads the indices back. *)
Lemma formatAddress_returns (col row : Z) :
  0 <= col -> -1 <= row ->
  formatAddress col row false false = Returned (address_text col row false false)
  /\ parseAddress (address_text col row false false) = Returned (mkParsed col row false false).
Proof.
  intros Hc Hr.
  pose proof (colToLetter_upper col) as Hu.
  pose proof (colToLetter_nonempty col Hc) as Hne.
  pose proof (decimal_digits (row + 1) ltac:(lia)) as Hd.
  pose proof (decimal_nonempty (row + 1) ltac:(lia)) as Hdne.
  unfold formatAddress, toCellAddress, parseAddress, match_address, address_text. simpl.
  rewrite int_toString_nonneg by lia.
  rewrite (opt_dollar_letters _ _ Hu Hne).
  rewrite (span_app is_upper) by (try assumption; now apply stops_upper_digits).
  rewrite (opt_dollar_digit _ Hd Hdne), (span_all _ _ Hd), Hne, Hdne. simpl.
  rewrite letterToCol_colToLetter, parseInt_decimal by lia.
  split; [reflexivity |]. f_equal. f_equal. lia.
Qed.

(** Two index pairs with the same text are the same pair. *)
Lemma address_text_inj (c1 r1 c2 r2 : Z) :
  0 <= c1 -> -1 <= r1 -> 0 <= c2 -> -1 <= r2 ->
  address_text c1 r1 false false = address_text c2 r2 false false -> c1 = c2 /\ r1 = r2.
Proof.
  intros H1 H2 H3 H4 Heq.
  pose proof (proj2 (formatAddress_returns c1 r1 H1 H2)) as P1.
  pose proof (proj2 (formatAddress_returns c2 r2 H3 H4)) as P2.
  rewrite Heq, P2 in P1. injection P1 as -> ->. now split.
Qed.

End ParsedIndices.

Section Ranges.

Lemma cmap_returned {A C} (f : A -> Completion C) (g : A -> C) (l : list A) :
  (forall x, x ∈ l -> f x = Returned (g x)) -> cmap f l = Returned (g <$> l).
Proof.
  induction l as [|x l IH]; intros H; simpl; [reflexivity |].
  rewrite (H x) by left. simpl. rewrite IH; [reflexivity |].
  intros y Hy. apply H. now right.
Qed.

Lemma elem_of_range_indices (minCol maxCol minRow maxRow r c : Z) :
  (r, c) ∈ range_indices minCol maxCol minRow maxRow
  <-> minRow <= r <= maxRow /\ minCol <= c <= maxCol.
Proof.
  unfold range_indices. rewrite list_elem_of_bind. split.
  - intros (r' & Hc & Hr). apply list_elem_of_bind in Hc as (c' & Hrc & Hc).
    apply list_elem_of_singleton in Hrc as [= -> ->].
    apply elem_of_seqZ in Hr, Hc. lia.
  - intros [Hr Hc]. exists r. split; [| apply elem_of_seqZ; lia].
    apply list_elem_of_bind. exists c. split; [now left | apply elem_of_seqZ; lia].
Qed.

Lemma length_bind_constant {A C} (f : A -> list C) (k : nat) (l : list A) :
  (forall x, length (f x) = k) -> length (l ≫= f) = (length l * k)%nat.
Proof.
  intros H. induction l as [|x l IH]; [reflexivity |].
  change ((x :: l) ≫= f) with (f x ++ (l ≫= f))%list.
  rewrite length_app, H, IH. simpl. lia.
Qed.

Lemma length_range_indices (minCol maxCol minRow maxRow : Z) :
  minCol <= maxCol -> minRow <= maxRow ->
  length (range_indices minCol maxCol minRow maxRow)
  = Z.to_nat ((maxCol - minCol + 1) * (maxRow - minRow + 1)).
Proof.
  intros Hc Hr. unfold range_indices.
  rewrite (length_bind_constant _ (Z.to_nat (maxCol - minCol + 1))).
  - rewrite length_seqZ, Z2Nat.inj_mul by lia. lia.
  - intros r. rewrite (length_bind_constant _ 1%nat) by reflexivity.
    rewrite length_seqZ. lia.
Qed.

Lemma NoDup_range_indices (minCol maxCol minRow maxRow : Z) :
  NoDup (range_indices minCol maxCol minRow maxRow).
Proof.
  unfold range_indices. apply NoDup_bind; [| | apply NoDup_seqZ].
  - intros r1 r2 [r c] _ _ H1 H2.
    apply list_elem_of_bind in H1 as (c1 & H1 & _), H2 as (c2 & H2 & _).
    apply list_elem_of_singleton in H1, H2. congruence.
  - intros r _. apply NoDup_bind; [| | apply NoDup_seqZ].
    + intros c1 c2 y _ _ H1 H2. apply list_elem_of_singleton in H1, H2. congruence.
    + intros c _. apply NoDup_singleton.
Qed.

(** The list [getCellsInRange] returns, for corners that parse. *)
Lemma getCellsInRange_returns (a b : CellAddress) (pa pb : ParsedAddress) :
  parseAddress a = Returned pa -> parseAddress b = Returned pb ->
  getCellsInRange a b
  = Returned ((fun '(r, c) => address_text c r false false)
                <$> range_indices (Z.min (col pa) (col pb)) (Z.max (col pa) (col pb))
                      (Z.min (row pa) (row pb)) (Z.max (row pa) (row pb))).
Proof.
  intros Ha Hb. unfold getCellsInRange. rewrite Ha, Hb. simpl.
  apply cmap_returned. intros [r c] Hrc. apply elem_of_range_indices in Hrc.
  apply parseAddress_bounds in Ha, Hb. apply formatAddress_returns; lia.
Qed.

End Ranges.

(** X2. For two corners that [parseAddress] accepts (in either order,
    with or without dollar signs) with indices below [index_limit], where
    the counters of the two loops count exactly, and that span no more
    cells than an array holds, [getCellsInRange] does not throw: it
    returns the addresses of the rectangle the corners span, each once,
    (width times height of them), every one an address that parses back
    to its column and row. *)
Theorem getCellsInRange_rectangle (a b : CellAddress) (pa pb : ParsedAddress) :
  parseAddress a = Returned pa -> parseAddress b = Returned pb ->
  within_limit pa -> within_limit pb ->
  (Z.abs (col pa - col pb) + 1) * (Z.abs (row pa - row pb) + 1) <= array_limit ->
  exists addresses,
    getCellsInRange a b = Returned addresses
    /\ length addresses
       = Z.to_nat ((Z.abs (col pa - col pb) + 1) * (Z.abs (row pa - row pb) + 1))
    /\ NoDup addresses
    /\ (forall addr, addr ∈ addresses <->
          exists c r, in_rectangle pa pb c r
                      /\ formatAddress c r false false = Returned addr
                      /\ parseAddress addr = Returned (mkParsed c r false false)).
Proof.
  intros Ha Hb _ _ _. eexists. split; [exact (getCellsInRange_returns a b pa pb Ha Hb) |].
  pose proof (parseAddress_bounds _ _ Ha) as [Hca Hra].
  pose proof (parseAddress_bounds _ _ Hb) as [Hcb Hrb].
  split; [| split].
  - rewrite length_fmap, length_range_indices by lia. f_equal. lia.
  - apply NoDup_fmap_2_strong; [| apply NoDup_range_indices].
    intros [r1 c1] [r2 c2] H1 H2 Heq.
    apply elem_of_range_indices in H1, H2.
    apply address_text_inj in Heq as [-> ->]; [reflexivity | lia..].
  - intros addr. rewrite list_elem_of_fmap. split.
    + intros ([r c] & -> & Hrc). apply elem_of_range_indices in Hrc.
      exists c, r. split; [unfold in_rectangle; lia |].
      apply formatAddress_returns; lia.
    + intros (c & r & [Hc Hr] & Hfmt & _). exists (r, c).
      rewrite (proj1 (formatAddress_returns c r ltac:(lia) ltac:(lia))) in Hfmt.
      injection Hfmt as <-. split; [reflexivity |].
      apply elem_of_range_indices. lia.
Qed.

Lemma getCellsInRange_rectangle_witness :
  exists addresses,
    getCellsInRange "C2" "$A$1" = Returned addresses
    /\ length addresses = 6%nat
    /\ NoDup addresses
    /\ (forall addr, addr ∈ addresses <->
          exists c r, in_rectangle (mkParsed 2 1 false false) (mkParsed 0 0 true true) c r
                      /\ formatAddress c r false false = Returned addr
                      /\ parseAddress addr = Returned (mkParsed c r false false)).
Proof.
  apply (getCellsInRange_rectangle "C2" "$A$1" (mkParsed 2 1 false false)
           (mkParsed 0 0 true true)); try (split; reflexivity); try reflexivity.
  unfold array_limit. simpl. lia.
Defined.

(** X3. [getCellsInRange] depends on the rectangle only: two pairs of
    corners that span the same rectangle, such as a pair and the same
    pair swapped, or the other two corners, give the same list in the
    same order. *)
Theorem getCellsInRange_same_rectangle (a b a' b' : CellAddress)
  (pa pb pa' pb' : ParsedAddress) :
  parseAddress a = Returned pa -> parseAddress b = Returned pb ->
  parseAddress a' = Returned pa' -> parseAddress b' = Returned pb' ->
  same_rectangle pa pb pa' pb' ->
  getCellsInRange a b = getCellsInRange a' b'.
Proof.
  intros Ha Hb Ha' Hb' (H1 & H2 & H3 & H4).
  rewrite (getCellsInRange_returns a b pa pb), (getCellsInRange_returns a' b' pa' pb')
    by assumption.
  now rewrite H1, H2, H3, H4.
Qed.

Lemma getCellsInRange_same_rectangle_witness :
  getCellsInRange "A3" "C1" = getCellsInRange "C3" "A1".
Proof.
  apply (getCellsInRange_same_rectangle "A3" "C1" "C3" "A1"
           (mkParsed 0 2 false false) (mkParsed 2 0 false false)
           (mkParsed 2 2 false false) (mkParsed 0 0 false false));
    try reflexivity.
  repeat split.
Defined.

Section BackToText.

Lemma string_snoc_ind (P : string -> Prop) :
  P "" -> (forall s c, P s -> P (s ++ String c "")) -> forall s, P s.
Proof.
  intros Hnil Hsnoc.
  assert (H : forall n s, String.length s = n -> P s).
  { induction n as [|n IH]; intros s Hn.
    - destruct s; [exact Hnil | discriminate].
    - assert (Hsplit : exists s' c, s = s' ++ String c "" /\ String.length s' = n).
      { clear IH Hnil Hsnoc. revert n Hn. induction s as [|a s IHs]; intros n Hn;
          [discriminate |].
        destruct s as [|b s].
        - exists "", a. split; [reflexivity |]. simpl in Hn. simpl. lia.
        - destruct n as [|n]; [discriminate |].
          destruct (IHs n ltac:(simpl in *; lia)) as (s' & c & Heq & Hlen).
          exists (String a s'), c. split; [simpl; now rewrite <- Heq | simpl; lia]. }
      destruct Hsplit as (s' & c & -> & Hlen). apply Hsnoc, IH, Hlen. }
  intros s. now apply (H (String.length s)).
Qed.

Lemma fromCharCode_charCode (c : ascii) : fromCharCode (charCode c) = c.
Proof. unfold fromCharCode, charCode. rewrite N2Z.id. apply ascii_N_embedding. Qed.

(** [colToLetter] undoes [letterToCol] on a run of capital letters. *)
Lemma colToLetter_letterToCol (s : string) :
  string_forall is_upper s = true -> colToLetter (letterToCol s) = s.
Proof.
  unfold letterToCol. pattern s. apply string_snoc_ind; clear s.
  - intros _. reflexivity.
  - intros s c IH Hs. rewrite string_forall_app in Hs.
    apply andb_true_iff in Hs as [Hs Hc]. simpl in Hc. rewrite andb_true_r in Hc.
    unfold is_upper in Hc. apply andb_true_iff in Hc as [Hc1 Hc2].
    apply Z.leb_le in Hc1, Hc2.
    rewrite string_foldl_app. simpl. unfold letterToCol_step at 1.
    pose proof (letterToCol_fold_lower s 0 ltac:(lia) Hs) as Hlow.
    set (v := string_foldl letterToCol_step 0 s) in *.
    rewrite colToLetter_step by lia.
    replace ((v * 26 + (charCode c - 65 + 1) - 1) / 26) with v
      by (apply Z.div_unique with (r := charCode c - 65); lia).
    replace ((v * 26 + (charCode c - 65 + 1) - 1) mod 26) with (charCode c - 65)
      by (apply Z.mod_unique with (q := v); lia).
    rewrite (IH Hs). f_equal. f_equal.
    replace (charCode c - 65 + 65) with (charCode c) by lia. apply fromCharCode_charCode.
Qed.

Lemma canonical_digits_snoc (d : string) (c : ascii) :
  is_empty d = false -> canonical_digits (d ++ String c "") = true ->
  canonical_digits d = true /\ d <> "0".
Proof.
  destruct d as [|a d]; [discriminate |]. intros _. simpl.
  destruct a as [[] [] [] [] [] [] [] []]; destruct d; simpl; try (intros; split; congruence).
Qed.

Lemma parseInt_positive (d : string) :
  string_forall is_digit d = true -> is_empty d = false ->
  canonical_digits d = true -> d <> "0" -> 0 < parseInt d.
Proof.
  destruct d as [|a d]; [discriminate |]. intros Hd _ Hcan Hne.
  simpl in Hd. apply andb_true_iff in Hd as [Ha Hd].
  unfold parseInt. simpl.
  assert (Hpos : 0 < parseInt_step 0 a).
  { unfold parseInt_step. unfold is_digit in Ha. apply andb_true_iff in Ha as [Ha1 Ha2].
    apply Z.leb_le in Ha1, Ha2.
    destruct (Z.eq_dec (charCode a) 48) as [Hz | Hz]; [| lia].
    exfalso. assert (a = "0"%char) as ->.
    { rewrite <- (fromCharCode_charCode a), Hz. reflexivity. }
    destruct d; [now apply Hne | discriminate]. }
  pose proof (parseInt_fold_lower d (parseInt_step 0 a) ltac:(lia) Hd). lia.
Qed.

(** The conversion to text undoes [parseInt] on a canonical run of
    digits. *)
Lemma decimal_parseInt (d : string) :
  string_forall is_digit d = true -> is_empty d = false -> canonical_digits d = true ->
  decimal (parseInt d) = d.
Proof.
  pattern d. apply string_snoc_ind; clear d; [discriminate |].
  intros d c IH Hd _ Hcan. rewrite string_forall_app in Hd.
  apply andb_true_iff in Hd as [Hd Hc]. simpl in Hc. rewrite andb_true_r in Hc.
  pose proof Hc as Hc'. unfold is_digit in Hc'. apply andb_true_iff in Hc' as [Hc1 Hc2].
  apply Z.leb_le in Hc1, Hc2.
  unfold parseInt. rewrite string_foldl_app. simpl. unfold parseInt_step at 1.
  fold (parseInt d). pose proof (parseInt_nonneg d Hd) as Hnn.
  rewrite decimal_step by lia.
  replace ((parseInt d * 10 + (charCode c - 48)) / 10) with (parseInt d)
    by (apply Z.div_unique with (r := charCode c - 48); lia).
  replace ((parseInt d * 10 + (charCode c - 48)) mod 10) with (charCode c - 48)
    by (apply Z.mod_unique with (q := parseInt d); lia).
  replace (charCode c - 48 + 48) with (charCode c) by lia.
  rewrite fromCharCode_charCode.
  destruct (is_empty d) eqn:He.
  - destruct d; [reflexivity | discriminate].
  - destruct (canonical_digits_snoc d c He Hcan) as [Hcan' Hne].
    pose proof (parseInt_positive d Hd He Hcan' Hne) as Hpos.
    destruct (Z.eqb_spec (parseInt d) 0); [lia |]. now rewrite IH.
Qed.

End BackToText.

Lemma parsed_text (addr : string) (p : ParsedAddress) :
  parseAddress addr = Returned p -> canonical_digits (row_text addr) = true ->
  address_text (col p) (row p) (absoluteCol p) (absoluteRow p) = addr.
Proof.
  intros Hp Hcan. unfold parseAddress, row_text in *.
  destruct (match_address addr) as [[[[dc l] dr] d]|] eqn:Hm; [| discriminate].
  injection Hp as <-. simpl.
  apply match_address_spec in Hm as (-> & Hdc & Hdr & Hl & Hle & Hd & Hde).
  unfold address_text.
  rewrite colToLetter_letterToCol by assumption.
  replace (parseInt d - 1 + 1) with (parseInt d) by lia.
  rewrite int_toString_nonneg by now apply parseInt_nonneg.
  rewrite decimal_parseInt by assumption.
  destruct Hdc as [-> | ->], Hdr as [-> | ->]; reflexivity.
Qed.

(** X4. The round trip from text to indices and back: when [parseAddress]
    accepts a text whose row is written without a leading zero, with
    indices below [index_limit], the text
    [formatAddress] builds from the parsed indices and flags is the text
    itself, and without dollar signs [formatAddress] returns it. (With a
    leading zero the round trip gives another text for the same cell, the
    one without it.) *)
Theorem formatAddress_parseAddress (addr : string) (p : ParsedAddress) :
  parseAddress addr = Returned p -> canonical_digits (row_text addr) = true ->
  within_limit p ->
  address_text (col p) (row p) (absoluteCol p) (absoluteRow p) = addr
  /\ (absoluteCol p = false -> absoluteRow p = false ->
      formatAddress (col p) (row p) false false = Returned addr).
Proof.
  intros Hp Hcan _. pose proof (parsed_text addr p Hp Hcan) as Htext.
  split; [exact Htext |]. intros Hc Hr. rewrite Hc, Hr in Htext.
  pose proof (parseAddress_bounds _ _ Hp) as [Hcol Hrow].
  rewrite (proj1 (formatAddress_returns _ _ Hcol Hrow)). now rewrite Htext.
Qed.

Lemma formatAddress_parseAddress_witness :
  address_text 27 11 false false = "AB12"
  /\ (false = false -> false = false -> formatAddress 27 11 false false = Returned "AB12").
Proof.
  apply (formatAddress_parseAddress "AB12" (mkParsed 27 11 false false));
    try (split; reflexivity); reflexivity.
Defined.

Section Neighbours.

Lemma isValidAddress_parsed (addr : string) (maxRows maxCols : Z) :
  isValidAddress addr maxRows maxCols = true <->
  exists p, parseAddress addr = Returned p
            /\ 0 <= col p < maxCols /\ 0 <= row p < maxRows.
Proof.
  unfold isValidAddress. destruct (parseAddress addr) as [p | e].
  - rewrite !andb_true_iff, Z.geb_le, Z.geb_le, !Z.ltb_lt. split.
    + intros H. exists p. split; [reflexivity | lia].
    + intros (p' & [= <-] & H). lia.
  - split; [discriminate | intros (p & [=] & _)].
Qed.

Lemma getNeighbor_moves (addr : string) (p : ParsedAddress) (direction : Direction)
  (maxRows maxCols : Z) :
  parseAddress addr = Returned p -> 0 <= col p < maxCols -> 0 <= row p < maxRows ->
  (at_edge direction (col p) (row p) maxRows maxCols
   /\ getNeighbor addr direction maxRows maxCols = Returned None)
  \/ (exists c r, step direction (col p) (row p) = (c, r)
        /\ 0 <= c < maxCols /\ 0 <= r < maxRows
        /\ getNeighbor addr direction maxRows maxCols
           = Returned (Some (address_text c r false false))).
Proof.
  intros Hp Hc Hr. unfold getNeighbor. rewrite Hp. simpl.
  destruct direction; simpl.
  - destruct (Z.gtb_spec (row p) 0); [right | left; split; [lia | reflexivity]].
    exists (col p), (row p - 1). repeat split; try lia.
    now rewrite (proj1 (formatAddress_returns (col p) (row p - 1) ltac:(lia) ltac:(lia))).
  - destruct (Z.ltb_spec (row p) (maxRows - 1)); [right | left; split; [lia | reflexivity]].
    exists (col p), (row p + 1). repeat split; try lia.
    now rewrite (proj1 (formatAddress_returns (col p) (row p + 1) ltac:(lia) ltac:(lia))).
  - destruct (Z.gtb_spec (col p) 0); [right | left; split; [lia | reflexivity]].
    exists (col p - 1), (row p). repeat split; try lia.
    now rewrite (proj1 (formatAddress_returns (col p - 1) (row p) ltac:(lia) ltac:(lia))).
  - destruct (Z.ltb_spec (col p) (maxCols - 1)); [right | left; split; [lia | reflexivity]].
    exists (col p + 1), (row p). repeat split; try lia.
    now rewrite (proj1 (formatAddress_returns (col p + 1) (row p) ltac:(lia) ltac:(lia))).
Qed.

End Neighbours.

(** X5. From an address inside a sheet of at most [index_limit] rows and
    columns, [getNeighbor] does not throw:
    it returns [null] exactly when the address is on the edge of the sheet
    in the direction asked, and otherwise the address of the cell one step
    away, which is inside the sheet too. *)
Theorem getNeighbor_within (addr : string) (p : ParsedAddress) (direction : Direction)
  (maxRows maxCols : Z) :
  parseAddress addr = Returned p -> isValidAddress addr maxRows maxCols = true ->
  maxRows <= index_limit -> maxCols <= index_limit ->
  (at_edge direction (col p) (row p) maxRows maxCols
   /\ getNeighbor addr direction maxRows maxCols = Returned None)
  \/ (~ at_edge direction (col p) (row p) maxRows maxCols
      /\ exists n c r,
           getNeighbor addr direction maxRows maxCols = Returned (Some n)
           /\ step direction (col p) (row p) = (c, r)
           /\ parseAddress n = Returned (mkParsed c r false false)
           /\ isValidAddress n maxRows maxCols = true).
Proof.
  intros Hp Hvalid _ _. apply isValidAddress_parsed in Hvalid as (p' & Hp' & Hc & Hr).
  rewrite Hp in Hp'. injection Hp' as <-.
  destruct (getNeighbor_moves addr p direction maxRows maxCols Hp Hc Hr)
    as [Hedge | (c & r & Hstep & Hc' & Hr' & Hn)]; [now left | right].
  pose proof (proj2 (formatAddress_returns c r ltac:(lia) ltac:(lia))) as Hparse.
  split.
  - destruct direction; simpl in *; injection Hstep as <- <-; lia.
  - exists (address_text c r false false), c, r. repeat split; try assumption.
    apply isValidAddress_parsed. eexists. split; [exact Hparse | simpl; lia].
Qed.

Lemma getNeighbor_within_witness :
  (at_edge Right 1 2 10 5 /\ getNeighbor "B3" Right 10 5 = Returned None)
  \/ (~ at_edge Right 1 2 10 5
      /\ exists n c r,
           getNeighbor "B3" Right 10 5 = Returned (Some n)
           /\ step Right 1 2 = (c, r)
           /\ parseAddress n = Returned (mkParsed c r false false)
           /\ isValidAddress n 10 5 = true).
Proof.
  apply (getNeighbor_within "B3" (mkParsed 1 2 false false) Right 10 5);
    try reflexivity; unfold index_limit; lia.
Defined.

(** X6. A step and the step back: when [getNeighbor] from an address
    inside a sheet of at most [index_limit] rows and columns returns a
    neighbour, [getNeighbor] from that
    neighbour in the opposite direction returns an address of the cell
    one started from; it is the starting text itself when that text has
    no dollar sign and no leading zero in its row. *)
Theorem getNeighbor_back (addr n : string) (p : ParsedAddress) (direction : Direction)
  (maxRows maxCols : Z) :
  parseAddress addr = Returned p -> isValidAddress addr maxRows maxCols = true ->
  maxRows <= index_limit -> maxCols <= index_limit ->
  getNeighbor addr direction maxRows maxCols = Returned (Some n) ->
  exists m,
    getNeighbor n (opposite direction) maxRows maxCols = Returned (Some m)
    /\ parseAddress m = Returned (mkParsed (col p) (row p) false false)
    /\ (absoluteCol p = false -> absoluteRow p = false ->
        canonical_digits (row_text addr) = true -> m = addr).
Proof.
  intros Hp Hvalid _ _ Hn. apply isValidAddress_parsed in Hvalid as (p' & Hp' & Hc & Hr).
  rewrite Hp in Hp'. injection Hp' as <-.
  destruct (getNeighbor_moves addr p direction maxRows maxCols Hp Hc Hr)
    as [[_ Hnone] | (c & r & Hstep & Hc' & Hr' & Hsome)]; [congruence |].
  rewrite Hsome in Hn. injection Hn as <-.
  pose proof (proj2 (formatAddress_returns c r ltac:(lia) ltac:(lia))) as Hparse.
  destruct (getNeighbor_moves _ _ (opposite direction) maxRows maxCols Hparse
              ltac:(simpl; lia) ltac:(simpl; lia))
    as [[Hedge _] | (c2 & r2 & Hstep2 & _ & _ & Hback)].
  { exfalso. destruct direction; simpl in *; injection Hstep as <- <-; lia. }
  assert (c2 = col p /\ r2 = row p) as [-> ->].
  { destruct direction; simpl in *; injection Hstep as <- <-;
      injection Hstep2 as <- <-; lia. }
  exists (address_text (col p) (row p) false false).
  split; [exact Hback |]. split; [apply formatAddress_returns; lia |].
  intros Hac Har Hcan. pose proof (parsed_text addr p Hp Hcan) as Htext.
  now rewrite Hac, Har in Htext.
Qed.

Lemma getNeighbor_back_witness :
  exists m,
    getNeighbor "B2" (opposite Up) 10 5 = Returned (Some m)
    /\ parseAddress m = Returned (mkParsed 1 2 false false)
    /\ (false = false -> false = false -> canonical_digits (row_text "B3") = true ->
        m = "B3").
Proof.
  apply (getNeighbor_back "B3" "B2" (mkParsed 1 2 false false) Up 10 5);
    try reflexivity; unfold index_limit; lia.
Defined.

Section RangeText.

Lemma string_forall_impl (p q : ascii -> bool) (s : string) :
  (forall c, p c = true -> q c = true) -> string_forall p s = true -> string_forall q s = true.
Proof.
  intros Hpq. induction s as [|c s IH]; simpl; [trivial |].
  intros H. apply andb_true_iff in H as [Hc Hs]. now rewrite (Hpq c Hc), IH.
Qed.

(** The characters of an address: capital letters and digits. *)
Lemma toCellAddress_characters (addr a : string) :
  toCellAddress addr = Returned a ->
  a = addr /\ is_empty addr = false
  /\ string_forall (fun c => is_upper c || is_digit c) addr = true.
Proof.
  unfold toCellAddress.
  destruct (span is_upper addr) as [l s1] eqn:H1.
  destruct (span is_digit s1) as [d s2] eqn:H2.
  destruct (negb (is_empty l) && negb (is_empty d) && is_empty s2) eqn:Hok; [| discriminate].
  intros [= <-]. apply andb_true_iff in Hok as [Hok Hs2].
  apply andb_true_iff in Hok as [Hl Hd]. apply negb_true_iff in Hl.
  apply span_spec in H1 as (-> & Hup & _). apply span_spec in H2 as (-> & Hdig & _).
  destruct s2; [| discriminate]. rewrite string_app_empty_r.
  split; [reflexivity |]. split; [now destruct l |].
  rewrite string_forall_app. apply andb_true_iff. split.
  - eapply string_forall_impl; [| exact Hup]. intros c ->. reflexivity.
  - eapply string_forall_impl; [| exact Hdig]. intros c ->. apply orb_true_r.
Qed.

Lemma address_character (c : ascii) :
  is_upper c || is_digit c = true -> is_space c = false /\ Ascii.eqb c ":" = false.
Proof.
  intros H. assert (Hrange : 48 <= charCode c <= 57 \/ 65 <= charCode c <= 90).
  { apply orb_true_iff in H as [H | H]; unfold is_upper, is_digit in H;
      apply andb_true_iff in H as [H1 H2]; apply Z.leb_le in H1, H2; lia. }
  split.
  - unfold is_space. cbv zeta.
    destruct (Z.leb_spec 9 (charCode c)), (Z.leb_spec (charCode c) 13),
      (Z.eqb_spec (charCode c) 32), (Z.eqb_spec (charCode c) 160); simpl; try reflexivity; lia.
  - apply Ascii.eqb_neq. intros ->. change (charCode ":") with 58 in Hrange. lia.
Qed.

Lemma space_not_colon (c : ascii) : is_space c = true -> Ascii.eqb c ":" = false.
Proof.
  intros H. apply Ascii.eqb_neq. intros ->. discriminate.
Qed.

Lemma split_colon_nonempty (s : string) : split_colon s <> [].
Proof.
  induction s as [|c s IH]; simpl; [discriminate |].
  destruct (Ascii.eqb c ":"); [discriminate |]. now destruct (split_colon s).
Qed.

Lemma split_colon_none (s : string) :
  string_forall (fun c => negb (Ascii.eqb c ":")) s = true -> split_colon s = [s].
Proof.
  induction s as [|c s IH]; simpl; [reflexivity |].
  intros H. apply andb_true_iff in H as [Hc Hs]. apply negb_true_iff in Hc.
  now rewrite Hc, IH.
Qed.

Lemma split_colon_app (s t : string) :
  string_forall (fun c => negb (Ascii.eqb c ":")) s = true ->
  split_colon (s ++ String ":" t) = s :: split_colon t.
Proof.
  induction s as [|c s IH]; simpl; [reflexivity |].
  intros H. apply andb_true_iff in H as [Hc Hs]. apply negb_true_iff in Hc.
  now rewrite Hc, IH.
Qed.

Lemma trim_start_spaces (w s : string) : spaces w -> trim_start (w ++ s) = trim_start s.
Proof.
  unfold spaces. induction w as [|c w IH]; simpl; [reflexivity |].
  intros H. apply andb_true_iff in H as [Hc Hw]. now rewrite Hc, IH.
Qed.

Lemma trim_end_spaces (s w : string) :
  string_forall (fun c => negb (is_space c)) s = true -> spaces w -> trim_end (s ++ w) = s.
Proof.
  unfold spaces. intros Hs Hw. induction s as [|c s IH]; simpl in *.
  - induction w as [|c w IHw]; simpl in *; [reflexivity |].
    apply andb_true_iff in Hw as [Hc Hw]. now rewrite Hc, IHw.
  - apply andb_true_iff in Hs as [Hc Hs]. apply negb_true_iff in Hc.
    now rewrite Hc, IH.
Qed.

Lemma trim_padded (w1 s w2 : string) :
  string_forall (fun c => negb (is_space c)) s = true -> is_empty s = false ->
  spaces w1 -> spaces w2 -> trim (w1 ++ s ++ w2) = s.
Proof.
  intros Hs Hne H1 H2. unfold trim. rewrite trim_start_spaces by assumption.
  destruct s as [|c s]; [discriminate |].
  simpl in Hs. apply andb_true_iff in Hs as [Hc Hs]. pose proof Hc as Hc'.
  apply negb_true_iff in Hc'. simpl. rewrite Hc'.
  change (String c (s ++ w2)) with (String c s ++ w2).
  apply trim_end_spaces; [| assumption]. simpl. now rewrite Hc, Hs.
Qed.

End RangeText.

(** X7. [parseRange] reads back two addresses joined by a colon, white
    space around either being dropped: for [a] and [b] that
    [toCellAddress] accepts it returns [a] as the start and [b] as the
    end. A text with no colon at all is refused. *)
Theorem parseRange_joined (a b w1 w2 w3 w4 : string) :
  toCellAddress a = Returned a -> toCellAddress b = Returned b ->
  spaces w1 -> spaces w2 -> spaces w3 -> spaces w4 ->
  parseRange ((w1 ++ a ++ w2) ++ String ":" (w3 ++ b ++ w4))
  = Returned {| range_start := a; range_end := b |}
  /\ parseRange (w1 ++ a ++ w2) = Thrown (Error ("Invalid range: " ++ w1 ++ a ++ w2)).
Proof.
  intros Ha Hb H1 H2 H3 H4.
  pose proof (toCellAddress_characters _ _ Ha) as (_ & Hane & Hac).
  pose proof (toCellAddress_characters _ _ Hb) as (_ & Hbne & Hbc).
  assert (Hnospace : forall s, string_forall (fun c => is_upper c || is_digit c) s = true ->
            string_forall (fun c => negb (is_space c)) s = true).
  { intros s. apply string_forall_impl. intros c Hc.
    now rewrite (proj1 (address_character c Hc)). }
  assert (Hnocolon : forall w s w', spaces w -> spaces w' ->
            string_forall (fun c => is_upper c || is_digit c) s = true ->
            string_forall (fun c => negb (Ascii.eqb c ":")) (w ++ s ++ w') = true).
  { intros w s w' Hw Hw' Hs. rewrite !string_forall_app.
    rewrite (string_forall_impl is_space _ w), (string_forall_impl is_space _ w'),
      (string_forall_impl (fun c => is_upper c || is_digit c) _ s); try assumption;
      try reflexivity.
    - intros c Hc. now rewrite (proj2 (address_character c Hc)).
    - intros c Hc. now rewrite (space_not_colon c Hc).
    - intros c Hc. now rewrite (space_not_colon c Hc). }
  split.
  - unfold parseRange. rewrite split_colon_app, split_colon_none by now apply Hnocolon.
    rewrite !trim_padded by (try assumption; now apply Hnospace).
    now rewrite Ha, Hb.
  - unfold parseRange. now rewrite split_colon_none by now apply Hnocolon.
Qed.

Lemma parseRange_joined_witness :
  parseRange ((" " ++ "A1" ++ "") ++ String ":" (" " ++ "B3" ++ "  "))
  = Returned {| range_start := "A1"; range_end := "B3" |}
  /\ parseRange (" " ++ "A1" ++ "") = Thrown (Error ("Invalid range: " ++ " " ++ "A1" ++ "")).
Proof. apply (parseRange_joined "A1" "B3" " " "" " " "  "); reflexivity. Defined.

Section Scan.

Variables colOffset rowOffset : Z.

Lemma stops_app (p : ascii -> bool) (s t : string) :
  is_empty s = false -> stops p s -> stops p (s ++ t).
Proof. destruct s; [discriminate | trivial]. Qed.

Lemma opt_dollar_spec (s a s1 : string) :
  opt_dollar s = (a, s1) -> s = a ++ s1 /\ (a = "" \/ a = "$").
Proof.
  destruct s as [|c s].
  - simpl. intros [= <- <-]. auto.
  - destruct (ascii_dec c "$") as [-> | Hc].
    + simpl. intros [= <- <-]. auto.
    + rewrite opt_dollar_other by assumption. intros [= <- <-]. auto.
Qed.

Lemma opt_dollar_app (s a s1 after : string) :
  opt_dollar s = (a, s1) -> is_empty s = false ->
  opt_dollar (s ++ after) = (a, s1 ++ after).
Proof.
  destruct s as [|c s]; [discriminate |]. intros H _.
  destruct (ascii_dec c "$") as [-> | Hc].
  - simpl in *. now injection H as <- <-.
  - rewrite opt_dollar_other in H by assumption. injection H as <- <-.
    simpl. now apply opt_dollar_other.
Qed.

Lemma span_app_stop (p : ascii -> bool) (s a b after : string) :
  span p s = (a, b) -> is_empty b = false -> span p (s ++ after) = (a, b ++ after).
Proof.
  intros H Hb. apply span_spec in H as (-> & Ha & Hstop).
  rewrite string_app_assoc. apply span_app; [assumption |].
  now apply stops_app.
Qed.

(** Where a reference as [formatAddress] writes it is followed by no
    digit, the pattern matches exactly the reference. *)
Lemma match_reference_address_text (c r : Z) (ac ar : bool) (after : string) :
  0 <= c -> 0 <= r -> stops is_digit after ->
  match_reference (address_text c r ac ar ++ after)
  = Some (if ac then "$" else "", colToLetter c, if ar then "$" else "",
          decimal (r + 1), after).
Proof.
  intros Hc Hr Hafter. unfold address_text.
  rewrite int_toString_nonneg by lia.
  pose proof (colToLetter_upper c) as HL. pose proof (colToLetter_nonempty c Hc) as HLne.
  assert (HD : string_forall is_digit (decimal (r + 1)) = true) by (apply decimal_digits; lia).
  assert (HDne : is_empty (decimal (r + 1)) = false) by (apply decimal_nonempty; lia).
  set (L := colToLetter c) in *. set (D := decimal (r + 1)) in *.
  rewrite !string_app_assoc.
  assert (Hrow : opt_dollar ((if ar then "$" else "") ++ D ++ after)
                 = (if ar then "$" else "", D ++ after)).
  { destruct ar; [reflexivity |]. simpl.
    destruct D as [|d D']; [discriminate |]. simpl. apply opt_dollar_other.
    intros ->. simpl in HD. discriminate. }
  assert (Hstop : stops is_upper ((if ar then "$" else "") ++ D ++ after)).
  { destruct ar; [reflexivity |]. simpl.
    apply stops_app; [assumption |]. now apply stops_upper_digits. }
  unfold match_reference.
  assert (Hcol : opt_dollar ((if ac then "$" else "") ++ L ++ (if ar then "$" else "") ++ D ++ after)
                 = (if ac then "$" else "", L ++ (if ar then "$" else "") ++ D ++ after)).
  { destruct ac; [reflexivity |]. simpl. now apply opt_dollar_letters. }
  rewrite Hcol, (span_app is_upper L _ HL Hstop), Hrow, (span_app is_digit D after HD Hafter).
  now rewrite HLne, HDne.
Qed.

(** The callback on the groups of such a match. *)
Lemma translate_reference_text (c r : Z) (ac ar : bool) :
  0 <= c -> 0 <= r ->
  translate_reference colOffset rowOffset
    (if ac then "$" else "") (colToLetter c) (if ar then "$" else "") (decimal (r + 1))
  = translated_text colOffset rowOffset (Reference c r ac ar).
Proof.
  intros Hc Hr. unfold translate_reference, translated_text, address_text.
  rewrite letterToCol_colToLetter by assumption.
  rewrite parseInt_decimal by lia. replace (r + 1 - 1) with r by lia.
  destruct ac, ar; simpl; try reflexivity.
  now rewrite int_toString_nonneg by lia.
Qed.

Lemma match_reference_spec (s a l b d after : string) :
  match_reference s = Some (a, l, b, d, after) ->
  s = (a ++ l ++ b ++ d) ++ after /\ is_empty l = false.
Proof.
  unfold match_reference.
  destruct (opt_dollar s) as [a' s1] eqn:H1.
  destruct (span is_upper s1) as [l' s2] eqn:H2.
  destruct (opt_dollar s2) as [b' s3] eqn:H3.
  destruct (span is_digit s3) as [d' rest] eqn:H4.
  destruct (negb (is_empty l') && negb (is_empty d')) eqn:Hok; [| discriminate].
  intros [= <- <- <- <- <-].
  apply andb_true_iff in Hok as [Hl _]. apply negb_true_iff in Hl.
  apply opt_dollar_spec in H1 as [-> _]. apply span_spec in H2 as (-> & _ & _).
  apply opt_dollar_spec in H3 as [-> _]. apply span_spec in H4 as (-> & _ & _).
  now rewrite !string_app_assoc.
Qed.

Lemma string_length_app (s t : string) :
  String.length (s ++ t) = (String.length s + String.length t)%nat.
Proof. induction s as [|c s IH]; simpl; [reflexivity | now rewrite IH]. Qed.

(** The characters of a match are passed over. *)
Lemma replace_references_skip (m after : string) :
  replace_references colOffset rowOffset (String.length m) (m ++ after)
  = replace_references colOffset rowOffset 0 after.
Proof. induction m as [|c m IH]; simpl; [reflexivity | exact IH]. Qed.

(** At a match the scan writes the replacement and goes on after it. *)
Lemma replace_references_match (s a l b d after : string) :
  match_reference s = Some (a, l, b, d, after) ->
  replace_references colOffset rowOffset 0 s
  = translate_reference colOffset rowOffset a l b d
    ++ replace_references colOffset rowOffset 0 after.
Proof.
  intros H. pose proof (match_reference_spec _ _ _ _ _ _ H) as [Hs Hl].
  destruct (a ++ l ++ b ++ d) as [|c m] eqn:Hm.
  - exfalso. destruct a; [| discriminate]. destruct l; discriminate.
  - subst s. simpl. simpl in H. rewrite H. f_equal.
    rewrite string_length_app.
    replace (S (String.length m + String.length after) - String.length after - 1)%nat
      with (String.length m) by lia.
    apply replace_references_skip.
Qed.

(** Where the head is blocked the pattern does not match, whatever
    follows. *)
Lemma blocked_no_match (s after : string) :
  blocked s = true -> match_reference (s ++ after) = None.
Proof.
  unfold blocked, match_reference.
  destruct (opt_dollar s) as [a s1] eqn:H1.
  destruct (span is_upper s1) as [l s2] eqn:H2.
  destruct s2 as [|c2 s2]; [discriminate |]. simpl is_empty. cbv iota.
  intros Hb.
  assert (Hs : is_empty s = false).
  { destruct s; [| reflexivity]. simpl in H1. injection H1 as <- <-. discriminate. }
  rewrite (opt_dollar_app _ _ _ after H1 Hs).
  rewrite (span_app_stop _ _ _ _ after H2 eq_refl).
  destruct (is_empty l) eqn:Hl.
  - destruct (opt_dollar (String c2 s2 ++ after)) as [b s3].
    destruct (span is_digit s3) as [d rest]. reflexivity.
  - destruct (opt_dollar (String c2 s2)) as [b s3] eqn:H3.
    destruct s3 as [|c3 s3]; [discriminate |].
    apply negb_true_iff in Hb.
    rewrite (opt_dollar_app _ _ _ after H3 eq_refl).
    simpl. rewrite Hb. reflexivity.
Qed.

(** Text with no reference in it is copied. *)
Lemma replace_references_inert (text after : string) :
  inert text = true ->
  replace_references colOffset rowOffset 0 (text ++ after)
  = text ++ replace_references colOffset rowOffset 0 after.
Proof.
  induction text as [|c text IH]; [reflexivity |].
  intros H. change (inert (String c text)) with (blocked (String c text) && inert text) in H.
  apply andb_true_iff in H as [Hb Ht].
  pose proof (blocked_no_match _ after Hb) as Hnone.
  change (String c text ++ after) with (String c (text ++ after)) in *.
  cbn [replace_references]. rewrite Hnone. simpl. now rewrite IH.
Qed.

Lemma replace_references_pieces (pieces : list Piece) :
  well_split pieces ->
  replace_references colOffset rowOffset 0 (formula_text pieces)
  = transformed_text colOffset rowOffset pieces.
Proof.
  induction pieces as [|p pieces IH]; [reflexivity |].
  destruct p as [text | c r ac ar]; simpl.
  - intros [Ht Hrest]. rewrite replace_references_inert by assumption.
    now rewrite IH.
  - intros ([Hc _] & [Hr _] & Hstop & Hrest).
    rewrite (replace_references_match _ _ _ _ _ _
               (match_reference_address_text c r ac ar _ Hc Hr Hstop)).
    rewrite translate_reference_text by assumption.
    now rewrite IH.
Qed.

End Scan.

(** X8. [transformFormula] moves every reference of a formula on its own
    and copies the text between them: for two cells and a formula cut
    into references written as [formatAddress] writes them and text
    holding none, all with indices below [index_limit], an axis
    without dollar sign moves by the offset between the two cells, an axis
    with one stays, a reference with both is kept as it is, and a
    reference that leaves the sheet becomes [#REF!]. *)
Theorem transformFormula_pieces (pieces : list Piece) (fromCell toCell : CellAddress)
    (from to : ParsedAddress) :
  parseAddress fromCell = Returned from -> parseAddress toCell = Returned to ->
  within_limit from -> within_limit to -> well_split pieces ->
  transformFormula (formula_text pieces) fromCell toCell
  = Returned (transformed_text (col to - col from) (row to - row from) pieces).
Proof.
  intros Hfrom Hto _ _ Hsplit. unfold transformFormula. rewrite Hfrom, Hto. simpl.
  now rewrite replace_references_pieces.
Qed.

Lemma transformFormula_pieces_witness :
  transformFormula "=SUM(A1:$B2)+$C$3*2-A$1" "C4" "A1" = Returned "=SUM(#REF!:#REF!)+$C$3*2-#REF!"
  /\ transformFormula "=SUM(A1:$B2)+$C$3*2-A$1" "A1" "C4" = Returned "=SUM(C4:$B5)+$C$3*2-C$1".
Proof.
  pose (pieces := [Plain "=SUM("; Reference 0 0 false false; Plain ":";
                   Reference 1 1 true false; Plain ")+"; Reference 2 2 true true;
                   Plain "*2-"; Reference 0 0 false true]).
  assert (Hsplit : well_split pieces) by (simpl; repeat split; (lia || reflexivity)).
  assert (Hc4 : within_limit (mkParsed 2 3 false false)) by (split; reflexivity).
  assert (Ha1 : within_limit (mkParsed 0 0 false false)) by (split; reflexivity).
  split.
  - exact (transformFormula_pieces pieces "C4" "A1" _ _ eq_refl eq_refl Hc4 Ha1 Hsplit).
  - exact (transformFormula_pieces pieces "A1" "C4" _ _ eq_refl eq_refl Ha1 Hc4 Hsplit).
Defined.

Section SecondCodec.

(** What [parseCellAddress] accepts, [parseAddress] reads the same way. *)
Lemma parseCellAddress_parseAddress (addr : string) (c r : Z) :
  parseCellAddress addr = Returned (c, r) ->
  parseAddress addr = Returned (mkParsed c r false false).
Proof.
  unfold parseCellAddress.
  destruct (span is_upper addr) as [l s1] eqn:H1.
  destruct (span is_digit s1) as [d s2] eqn:H2.
  destruct (negb (is_empty l) && negb (is_empty d) && is_empty s2) eqn:Hok; [| discriminate].
  intros [= <- <-]. apply andb_true_iff in Hok as [Hok Hs2].
  apply andb_true_iff in Hok as [Hl Hd]. apply negb_true_iff in Hl, Hd.
  apply span_spec in H1 as (-> & Hup & _). apply span_spec in H2 as (-> & Hdig & _).
  destruct s2; [| discriminate]. rewrite string_app_empty_r.
  unfold parseAddress, match_address.
  rewrite (opt_dollar_letters _ _ Hup Hl).
  rewrite (span_app is_upper) by (try assumption; now apply stops_upper_digits).
  rewrite (opt_dollar_digit _ Hdig Hd), (span_all _ _ Hdig), Hl, Hd. reflexivity.
Qed.

Lemma parseCellAddress_address_text (c r : Z) :
  0 <= c -> -1 <= r -> parseCellAddress (address_text c r false false) = Returned (c, r).
Proof.
  intros Hc Hr.
  pose proof (colToLetter_upper c) as Hu.
  pose proof (colToLetter_nonempty c Hc) as Hne.
  pose proof (decimal_digits (r + 1) ltac:(lia)) as Hd.
  pose proof (decimal_nonempty (r + 1) ltac:(lia)) as Hdne.
  pose proof (letterToCol_colToLetter c Hc) as Hcol.
  unfold parseCellAddress, address_text. simpl.
  rewrite int_toString_nonneg by lia.
  rewrite (span_app is_upper) by (try assumption; now apply stops_upper_digits).
  rewrite (span_all _ _ Hd), Hne, Hdne. simpl.
  unfold letterToCol, letterToCol_step in Hcol. rewrite Hcol.
  rewrite parseInt_decimal by lia. f_equal. f_equal. lia.
Qed.

Lemma toCellAddress_no_letters (s : string) :
  stops is_upper s -> toCellAddress s = Thrown (Error ("Invalid cell address format: " ++ s)).
Proof.
  intros Hs. unfold toCellAddress.
  pose proof (span_app is_upper "" s eq_refl Hs) as Hspan.
  change ("" ++ s) with s in Hspan. rewrite Hspan.
  destruct (span is_digit s) as [d s2]. reflexivity.
Qed.

Lemma stops_upper_int_toString (n : Z) : stops is_upper (int_toString n).
Proof.
  unfold int_toString. destruct (Z.ltb_spec n 0); [reflexivity |].
  apply stops_upper_digits. now apply decimal_digits.
Qed.

Lemma formatAddress_outside_throws (c r : Z) :
  c < 0 \/ r < -1 ->
  formatAddress c r false false
  = Thrown (Error ("Invalid cell address format: " ++ address_text c r false false)).
Proof.
  intros H. unfold formatAddress, address_text. simpl.
  destruct (Z_lt_le_dec c 0) as [Hc | Hc].
  - rewrite colToLetter_negative by assumption. simpl.
    apply toCellAddress_no_letters, stops_upper_int_toString.
  - assert (Hr : r < -1) by lia.
    unfold toCellAddress, int_toString.
    destruct (Z.ltb_spec (r + 1) 0); [| lia].
    rewrite (span_app is_upper) by (try apply colToLetter_upper; reflexivity).
    simpl. now rewrite andb_false_r.
Qed.

End SecondCodec.

(** X9. The codec of [types.ts] round-trips from indices: for a column
    that is not negative and a row from -1 on, both below [index_limit],
    [formatCellAddress] returns
    the text of the two, without dollar signs, and [parseCellAddress]
    reads the two indices back from it. *)
Theorem formatCellAddress_parseCellAddress (c r : Z) :
  0 <= c < index_limit -> -1 <= r < index_limit ->
  formatCellAddress c r = Returned (address_text c r false false)
  /\ cbind (formatCellAddress c r) parseCellAddress = Returned (c, r).
Proof.
  intros [Hc _] [Hr _].
  assert (Hf : formatCellAddress c r = Returned (address_text c r false false))
    by exact (proj1 (formatAddress_returns c r Hc Hr)).
  split; [exact Hf |]. rewrite Hf. simpl.
  now apply parseCellAddress_address_text.
Qed.

Lemma formatCellAddress_parseCellAddress_witness :
  formatCellAddress 27 11 = Returned (address_text 27 11 false false)
  /\ cbind (formatCellAddress 27 11) parseCellAddress = Returned (27, 11).
Proof. apply (formatCellAddress_parseCellAddress 27 11); unfold index_limit; lia. Defined.

(** X10. The codec of [types.ts] round-trips from text, and reads as the
    one of [lib/grid.ts] does: what [parseCellAddress] accepts with
    indices below [index_limit],
    [parseAddress] accepts with the same indices and no fixed axis, and
    when the row is written without a leading zero [formatCellAddress]
    gives the text back. *)
Theorem parseCellAddress_formatCellAddress (addr : string) (c r : Z) :
  parseCellAddress addr = Returned (c, r) -> c < index_limit -> r < index_limit ->
  parseAddress addr = Returned (mkParsed c r false false)
  /\ (canonical_digits (row_text addr) = true -> formatCellAddress c r = Returned addr).
Proof.
  intros Hp _ _. apply parseCellAddress_parseAddress in Hp.
  split; [exact Hp |]. intros Hcan.
  pose proof (parsed_text addr _ Hp Hcan) as Htext. simpl in Htext.
  pose proof (parseAddress_bounds _ _ Hp) as [Hcol Hrow]. simpl in Hcol, Hrow.
  pose proof (proj1 (formatAddress_returns c r Hcol Hrow)) as Hf.
  rewrite Htext in Hf. exact Hf.
Qed.

Lemma parseCellAddress_formatCellAddress_witness :
  parseAddress "AB12" = Returned (mkParsed 27 11 false false)
  /\ (canonical_digits (row_text "AB12") = true -> formatCellAddress 27 11 = Returned "AB12").
Proof. apply (parseCellAddress_formatCellAddress "AB12" 27 11); reflexivity. Defined.

(** X11. Indices outside the sheet are refused by both codecs: with a
    negative column, or a row below -1, [formatAddress] and
    [formatCellAddress] throw, naming the text they built. (Row -1 is
    not refused: it gives row text 0.) *)
Theorem formatAddress_outside (c r : Z) :
  c < 0 \/ r < -1 ->
  formatAddress c r false false
  = Thrown (Error ("Invalid cell address format: " ++ address_text c r false false))
  /\ formatCellAddress c r
     = Thrown (Error ("Invalid cell address format: " ++ address_text c r false false)).
Proof.
  intros H. split; exact (formatAddress_outside_throws c r H).
Qed.

Lemma formatAddress_outside_witness :
  formatAddress 3 (-5) false false
  = Thrown (Error ("Invalid cell address format: " ++ address_text 3 (-5) false false))
  /\ formatCellAddress 3 (-5)
     = Thrown (Error ("Invalid cell address format: " ++ address_text 3 (-5) false false)).
Proof. apply (formatAddress_outside 3 (-5)). right. lia. Defined.

(** * The cycle test *)

Section CycleSearch.

Context (g : DependencyGraph) (from : CellAddress).

Lemma some_dep_mono (fuel : nat) :
  (forall cell st b st', dfs fuel g from cell st = Some (b, st') ->
                         dfs_visited st ⊆ dfs_visited st') ->
  forall deps st b st', some_dep (dfs fuel g from) from deps st = Some (b, st') ->
                        dfs_visited st ⊆ dfs_visited st'.
Proof.
  intros Hdfs deps. induction deps as [|d deps IH]; intros st b st' H; simpl in H.
  - now injection H as <- <-.
  - destruct (decide (d = from)); [now injection H as <- <- |].
    destruct (dfs fuel g from d st) as [[[] st1]|] eqn:H1; [| | discriminate].
    + injection H as <- <-. now apply (Hdfs _ _ _ _ H1).
    + etransitivity; [apply (Hdfs _ _ _ _ H1) | now apply (IH _ _ _ H)].
Qed.

(** The search never removes a cell from [visited]. *)
Lemma dfs_mono (fuel : nat) (cell : CellAddress) (st : SearchState) (b : bool)
  (st' : SearchState) :
  dfs fuel g from cell st = Some (b, st') -> dfs_visited st ⊆ dfs_visited st'.
Proof.
  revert cell st b st'. induction fuel as [|fuel IH]; intros cell st b st' H; simpl in H;
    [discriminate |].
  destruct (decide (cell ∈ dfs_stack st)); [now injection H as <- <- |].
  destruct (decide (cell ∈ dfs_visited st)); [now injection H as <- <- |].
  destruct (some_dep _ _ _ _) as [[[] st1]|] eqn:H1; [| | discriminate];
    injection H as <- <-; apply (some_dep_mono fuel IH) in H1; simpl in *; set_solver.
Qed.

(** The keys of [dependencies] the search has not visited. *)
Let unseen (st : SearchState) : nat := size (dom (dependencies g) ∖ dfs_visited st).

Lemma unseen_mono (st st' : SearchState) :
  dfs_visited st ⊆ dfs_visited st' -> (unseen st' <= unseen st)%nat.
Proof. intros H. unfold unseen. apply subseteq_size. set_solver. Qed.

Lemma some_dep_returns (fuel : nat) :
  (forall cell st, (unseen st < fuel)%nat -> is_Some (dfs fuel g from cell st)) ->
  forall deps st, (unseen st < fuel)%nat ->
                  is_Some (some_dep (dfs fuel g from) from deps st).
Proof.
  intros Hdfs deps. induction deps as [|d deps IH]; intros st Hst; simpl; [eauto |].
  destruct (decide (d = from)); [eauto |].
  destruct (Hdfs d st Hst) as [[[] st1] H1]; rewrite H1; [eauto |].
  apply IH. apply dfs_mono, unseen_mono in H1. lia.
Qed.

(** A depth above the number of unseen keys is never exhausted. *)
Lemma dfs_returns (fuel : nat) (cell : CellAddress) (st : SearchState) :
  (unseen st < fuel)%nat -> is_Some (dfs fuel g from cell st).
Proof.
  revert cell st. induction fuel as [|fuel IH]; intros cell st Hst; [lia |]. simpl.
  destruct (decide (cell ∈ dfs_stack st)); [eauto |].
  destruct (decide (cell ∈ dfs_visited st)) as [Hin | Hout]; [eauto |].
  unfold getDependencies.
  destruct (dependencies g !! cell) as [deps|] eqn:Hdeps; simpl; [| eauto].
  destruct (some_dep_returns fuel IH deps
              (mkSearch ({[cell]} ∪ dfs_visited st) ({[cell]} ∪ dfs_stack st)))
    as [[[] st1] H1]; [| rewrite H1; eauto ..].
  assert (Hlt : (unseen (mkSearch ({[cell]} ∪ dfs_visited st) ({[cell]} ∪ dfs_stack st))
                 < unseen st)%nat).
  { unfold unseen. apply subset_size. simpl. apply strict_spec_alt. split; [set_solver |].
    assert (cell ∈ dom (dependencies g)) by (apply elem_of_dom; eauto).
    intros Heq. assert (cell ∈ dom (dependencies g) ∖ dfs_visited st) as Hc by set_solver.
    rewrite <- Heq in Hc. set_solver. }
  lia.
Qed.

Lemma some_dep_false_stack (fuel : nat) :
  (forall cell st st', dfs fuel g from cell st = Some (false, st') ->
                       dfs_stack st' = dfs_stack st) ->
  forall deps st st', some_dep (dfs fuel g from) from deps st = Some (false, st') ->
                      dfs_stack st' = dfs_stack st.
Proof.
  intros Hdfs deps. induction deps as [|d deps IH]; intros st st' H; simpl in H.
  - now injection H as <-.
  - destruct (decide (d = from)); [discriminate |].
    destruct (dfs fuel g from d st) as [[[] st1]|] eqn:H1; [discriminate | | discriminate].
    rewrite (IH _ _ H). exact (Hdfs _ _ _ H1).
Qed.

(** An answer [false] leaves the stack as it was. *)
Lemma dfs_false_stack (fuel : nat) (cell : CellAddress) (st st' : SearchState) :
  dfs fuel g from cell st = Some (false, st') -> dfs_stack st' = dfs_stack st.
Proof.
  revert cell st st'. induction fuel as [|fuel IH]; intros cell st st' H; simpl in H;
    [discriminate |].
  destruct (decide (cell ∈ dfs_stack st)) as [Hin | Hout]; [discriminate |].
  destruct (decide (cell ∈ dfs_visited st)); [now injection H as <- |].
  destruct (some_dep _ _ _ _) as [[[] st1]|] eqn:H1; [discriminate | | discriminate].
  injection H as <-. simpl.
  rewrite (some_dep_false_stack fuel IH _ _ _ H1). simpl. set_solver.
Qed.

Context (to : CellAddress).

(** What an answer [true] of the search stands for. *)
Let found : Prop :=
  tc (reads g) to from \/ exists c, rtc (reads g) to c /\ tc (reads g) c c.

(** While the search is at [cell]: the cell is below [to], and below
    every cell of the stack by one edge or more. *)
Let on_path (cell : CellAddress) (st : SearchState) : Prop :=
  rtc (reads g) to cell /\ forall s, s ∈ dfs_stack st -> tc (reads g) s cell.

Lemma some_dep_true (fuel : nat) :
  (forall cell st st', dfs fuel g from cell st = Some (true, st') ->
                       on_path cell st -> found) ->
  forall deps st st',
    some_dep (dfs fuel g from) from deps st = Some (true, st') ->
    (forall d, d ∈ deps -> on_path d st) ->
    (forall d, d ∈ deps -> exists c, rtc (reads g) to c /\ reads g c d) ->
    found.
Proof.
  intros Htrue deps.
  induction deps as [|d deps IH]; intros st st' H Hpath Hedge; simpl in H; [discriminate |].
  destruct (decide (d = from)) as [-> | Hne].
  - left. destruct (Hedge from ltac:(left)) as (c & Hc & Hcd).
    eapply tc_rtc_l; [exact Hc | now apply tc_once].
  - destruct (dfs fuel g from d st) as [[[] st1]|] eqn:H1; [| | discriminate].
    + apply (Htrue _ _ _ H1). apply Hpath. now left.
    + pose proof (dfs_false_stack _ _ _ _ H1) as Hstack.
      apply (IH st1 st' H).
      * intros d' Hd'. destruct (Hpath d' ltac:(now right)) as [Hr Hs].
        split; [exact Hr |]. intros s Hs'. apply Hs. now rewrite <- Hstack.
      * intros d' Hd'. apply Hedge. now right.
Qed.

(** An answer [true] is right. *)
Lemma dfs_true (fuel : nat) (cell : CellAddress) (st st' : SearchState) :
  dfs fuel g from cell st = Some (true, st') -> on_path cell st -> found.
Proof.
  revert cell st st'.
  induction fuel as [|fuel IH]; intros cell st st' H [Hreach Hstack]; simpl in H;
    [discriminate |].
  destruct (decide (cell ∈ dfs_stack st)) as [Hin | Hout].
  { right. exists cell. split; [exact Hreach | now apply Hstack]. }
  destruct (decide (cell ∈ dfs_visited st)); [discriminate |].
  destruct (some_dep _ _ _ _) as [[[] st1]|] eqn:H1; [| discriminate | discriminate].
  apply (some_dep_true fuel IH _ _ _ H1).
  - intros d Hd. split.
    + eapply rtc_r; [exact Hreach | exact Hd].
    + simpl. intros s Hs. apply elem_of_union in Hs as [Hs | Hs].
      * apply elem_of_singleton in Hs as ->. now apply tc_once.
      * eapply tc_r; [now apply Hstack | exact Hd].
  - intros d Hd. exists cell. now split.
Qed.

(** The cells the search is done with: visited and off the stack. None
    of them reads [from], all they read is done with too, and none lies
    on a cycle. *)
Let finished (st : SearchState) (x : CellAddress) : Prop :=
  x ∈ dfs_visited st /\ x ∉ dfs_stack st.

Let clean (st : SearchState) : Prop :=
  forall x, finished st x ->
    (forall y, reads g x y -> y <> from /\ finished st y) /\ ~ tc (reads g) x x.

Lemma tc_first_step (x z : CellAddress) :
  tc (reads g) x z -> exists y, reads g x y /\ rtc (reads g) y z.
Proof.
  intros H. destruct H as [x z H | x y z H Hyz].
  - exists z. split; [exact H | apply rtc_refl].
  - exists y. split; [exact H | now apply tc_rtc].
Qed.

Lemma finished_closed (st : SearchState) (x y : CellAddress) :
  clean st -> finished st x -> rtc (reads g) x y -> finished st y.
Proof.
  intros Hclean Hx Hpath. induction Hpath as [x | x y z Hxy _ IH]; [exact Hx |].
  apply IH. now apply (Hclean x Hx).
Qed.

Lemma some_dep_false (fuel : nat) :
  (forall cell st st', dfs fuel g from cell st = Some (false, st') ->
                       clean st -> clean st' /\ finished st' cell) ->
  forall deps st st',
    some_dep (dfs fuel g from) from deps st = Some (false, st') -> clean st ->
    clean st' /\ forall d, d ∈ deps -> d <> from /\ finished st' d.
Proof.
  intros Hdfs deps. induction deps as [|d deps IH]; intros st st' H Hclean; simpl in H.
  - injection H as <-. split; [exact Hclean |]. intros d Hd. inversion Hd.
  - destruct (decide (d = from)) as [| Hne]; [discriminate |].
    destruct (dfs fuel g from d st) as [[[] st1]|] eqn:H1; [discriminate | | discriminate].
    destruct (Hdfs _ _ _ H1 Hclean) as [Hclean1 [Hd1 Hd1']].
    destruct (IH _ _ H Hclean1) as [Hclean' Hall].
    split; [exact Hclean' |]. intros d' Hd'. apply elem_of_cons in Hd' as [-> | Hd'].
    + split; [exact Hne |]. split.
      * pose proof (some_dep_mono fuel (dfs_mono fuel) _ _ _ _ H). set_solver.
      * now rewrite (some_dep_false_stack fuel (dfs_false_stack fuel) _ _ _ H).
    + now apply Hall.
Qed.

(** An answer [false] leaves the cell done with, and keeps the cells done
    with clean. *)
Lemma dfs_false (fuel : nat) (cell : CellAddress) (st st' : SearchState) :
  dfs fuel g from cell st = Some (false, st') -> clean st ->
  clean st' /\ finished st' cell.
Proof.
  revert cell st st'.
  induction fuel as [|fuel IH]; intros cell st st' H Hclean; simpl in H; [discriminate |].
  destruct (decide (cell ∈ dfs_stack st)) as [Hin | Hout]; [discriminate |].
  destruct (decide (cell ∈ dfs_visited st)) as [Hvis | Hnew].
  { injection H as <-. split; [exact Hclean | now split]. }
  destruct (some_dep _ _ _ _) as [[[] st1]|] eqn:H1; [discriminate | | discriminate].
  injection H as <-.
  pose proof (some_dep_mono fuel (dfs_mono fuel) _ _ _ _ H1) as Hmono.
  pose proof (some_dep_false_stack fuel (dfs_false_stack fuel) _ _ _ H1) as Hstack.
  simpl in Hmono, Hstack.
  assert (Hclean0 : clean (mkSearch ({[cell]} ∪ dfs_visited st) ({[cell]} ∪ dfs_stack st))).
  { intros x [Hx Hx']. simpl in Hx, Hx'.
    assert (Hfx : finished st x) by (split; set_solver).
    destruct (Hclean x Hfx) as [Hreads Hacyc]. split; [| exact Hacyc].
    intros y Hy. destruct (Hreads y Hy) as [Hne [Hy1 Hy2]].
    split; [exact Hne |]. split; simpl; [set_solver |].
    intros Hin. apply elem_of_union in Hin as [Hin | Hin]; [| contradiction].
    apply elem_of_singleton in Hin as ->. contradiction. }
  destruct (some_dep_false fuel IH _ _ _ H1 Hclean0) as [Hclean1 Hdeps].
  assert (Hlift : forall x, finished st1 x ->
            finished (mkSearch (dfs_visited st1) (dfs_stack st1 ∖ {[cell]})) x).
  { intros x [Hx Hx']. split; simpl; [exact Hx | set_solver]. }
  assert (Hcell : finished (mkSearch (dfs_visited st1) (dfs_stack st1 ∖ {[cell]})) cell).
  { split; simpl; set_solver. }
  split; [| exact Hcell].
  intros x [Hx Hx']. simpl in Hx, Hx'.
  destruct (decide (x = cell)) as [-> | Hne].
  - split.
    + intros y Hy. destruct (Hdeps y Hy) as [Hyf Hfin]. split; [exact Hyf | now apply Hlift].
    + intros Hcyc. apply tc_first_step in Hcyc. destruct Hcyc as (y & Hy & Hback).
      destruct (Hdeps y Hy) as [_ Hfin].
      destruct (finished_closed st1 y cell Hclean1 Hfin Hback) as [_ Hoff].
      apply Hoff. rewrite Hstack. set_solver.
  - assert (Hfx : finished st1 x) by (split; [exact Hx | set_solver]).
    destruct (Hclean1 x Hfx) as [Hreads Hacyc]. split; [| exact Hacyc].
    intros y Hy. destruct (Hreads y Hy) as [Hyf Hfin]. split; [exact Hyf | now apply Hlift].
Qed.

(** The answer of a search started at [to] with both sets empty. *)
Lemma dfs_answer (fuel : nat) (b : bool) (st' : SearchState) :
  dfs fuel g from to (mkSearch ∅ ∅) = Some (b, st') -> b = true <-> found.
Proof.
  intros H. destruct b.
  - split; [intros _ | reflexivity]. apply (dfs_true _ _ _ _ H).
    split; [apply rtc_refl |]. simpl. intros s Hs. set_solver.
  - split; [discriminate |]. intros Hfound. exfalso.
    destruct (dfs_false _ _ _ _ H) as [Hclean Hto].
    { intros x [Hx _]. simpl in Hx. set_solver. }
    assert (Hbelow : forall x y, tc (reads g) x y -> finished st' x ->
                                 y <> from /\ finished st' y).
    { intros x y Hxy. induction Hxy as [x y Hxy | x y z Hxy _ IH]; intros Hx.
      - now apply (Hclean x Hx).
      - apply IH. now apply (Hclean x Hx). }
    destruct Hfound as [Hpath | (c & Hc & Hcyc)].
    + now destruct (Hbelow _ _ Hpath Hto).
    + apply (Hclean c); [| exact Hcyc]. now apply (finished_closed st' to c).
Qed.

End CycleSearch.

(** X12. [hasCycle(from, to)] returns for every graph, cyclic or not, and
    its answer is [true] exactly when [from] and [to] are the same cell,
    or [from] can be reached from [to] along one dependency or more (so
    that a dependency of [from] on [to] would close a cycle), or some cell
    that can be reached from [to] lies on a cycle the graph already
    has. *)
Theorem hasCycle_closes_cycle (g : DependencyGraph) (from to : CellAddress) :
  exists b, hasCycle g from to = Some b /\ (b = true <-> closes_cycle g from to).
Proof.
  unfold hasCycle, closes_cycle. destruct (decide (from = to)) as [Heq | Hne].
  - exists true. split; [reflexivity |]. split; [now left | reflexivity].
  - destruct (dfs_returns g from (S (size (dependencies g))) to (mkSearch ∅ ∅))
      as [[b st'] H].
    { simpl. rewrite <- (size_dom (dependencies g)).
      apply Nat.lt_succ_r, subseteq_size. set_solver. }
    rewrite H. exists b. split; [reflexivity |].
    rewrite (dfs_answer g from to _ _ _ H). tauto.
Qed.

Section History.

Lemma reads_member (g : DependencyGraph) (a b : CellAddress) :
  reads g a b <-> member (dependencies g) a b.
Proof. unfold reads, getDependencies. apply member_default. Qed.

Lemma reads_addDependency (g : DependencyGraph) (from to a b : CellAddress) :
  reads (addDependency from to g) a b <-> (a = from /\ b = to) \/ reads g a b.
Proof. rewrite !reads_member. apply member_addDependency_dependencies. Qed.

Lemma reads_removeDependencies (g : DependencyGraph) (cell a b : CellAddress) :
  reads (removeDependencies cell g) a b <-> a <> cell /\ reads g a b.
Proof.
  rewrite !reads_member. unfold removeDependencies.
  destruct (dependencies g !! cell) as [deps|] eqn:Hdeps.
  - simpl. unfold member. destruct (decide (cell = a)) as [<- | Hne].
    + rewrite lookup_delete_eq. tauto.
    + rewrite lookup_delete_ne by assumption.
      split; [intros H; split; [congruence | exact H] | tauto].
  - split; [| tauto]. intros H. split; [| exact H].
    intros ->. unfold member in H. now rewrite Hdeps in H.
Qed.

Lemma recorded_nil (a b : CellAddress) : ~ recorded [] a b.
Proof. intros (before & after & H & _). now destruct before. Qed.

Lemma recorded_snoc (calls : list GraphCall) (c : GraphCall) (a b : CellAddress) :
  recorded (calls ++ [c]) a b
  <-> c = AddDependency a b \/ (c <> RemoveDependencies a /\ recorded calls a b).
Proof.
  split.
  - intros (before & after & H & Hafter).
    destruct after as [|x after _] using rev_ind.
    + apply (app_inj_tail calls before) in H as [_ ->]. now left.
    + right. change (before ++ AddDependency a b :: after ++ [x])%list
        with (before ++ (AddDependency a b :: after) ++ [x])%list in H.
      rewrite app_assoc in H. apply app_inj_tail in H as [-> ->].
      split.
      * intros ->. apply Hafter. apply elem_of_app. right. now left.
      * exists before, after. split; [reflexivity |].
        intros Hin. apply Hafter. apply elem_of_app. now left.
  - intros [-> | [Hc (before & after & -> & Hafter)]].
    + exists calls, []. split; [reflexivity |]. intros H. inversion H.
    + exists before, (after ++ [c])%list. split.
      * now rewrite <- app_assoc.
      * intros Hin. apply elem_of_app in Hin as [Hin | Hin]; [contradiction |].
        apply list_elem_of_singleton in Hin. congruence.
Qed.

Lemma reads_recorded (calls : list GraphCall) (a b : CellAddress) :
  reads (foldl call empty_graph calls) a b <-> recorded calls a b.
Proof.
  induction calls as [|c calls IH] using rev_ind.
  - simpl. split; [| intros H; now apply recorded_nil in H].
    rewrite reads_member. unfold member, empty_graph. simpl. now rewrite lookup_empty.
  - rewrite foldl_app, recorded_snoc. simpl. destruct c as [from to | cell]; simpl.
    + rewrite reads_addDependency, IH. split.
      * intros [[-> ->] | H]; [now left | right]. split; [discriminate | exact H].
      * intros [[= -> ->] | [_ H]]; [left | right]; tauto.
    + rewrite reads_removeDependencies, IH. split.
      * intros [Hne H]. right. split; [congruence | exact H].
      * intros [[=] | [Hne H]]. split; [congruence | exact H].
Qed.

End History.

(** X13. What a graph holds after any sequence of calls on an empty one:
    [getDependencies(a)] has [b] exactly when some [addDependency(a, b)]
    was called and no [removeDependencies(a)] came after it, and
    [getDependents(b)] has [a] in exactly the same case. *)
Theorem graph_holds_recorded (calls : list GraphCall) (a b : CellAddress) :
  (b ∈ getDependencies (foldl call empty_graph calls) a <-> recorded calls a b)
  /\ (a ∈ getDependents (foldl call empty_graph calls) b <-> recorded calls a b).
Proof.
  split; [exact (reads_recorded calls a b) |].
  rewrite <- (reads_recorded calls a b), reads_member.
  unfold getDependents. rewrite member_default.
  symmetry. apply foldl_call_inverse, empty_graph_inverse.
Qed.

(** * The sheet as a whole *)

Section EvaluationOrderElements.

Context (g : DependencyGraph).

(** The cells [getEvaluationOrder] returns: each once, the requested ones
    and those below them. *)
Lemma getEvaluationOrder_elements (cells : list CellAddress) :
  exists order,
    getEvaluationOrder g cells = Some order
    /\ NoDup order
    /\ forall x, x ∈ order <-> reachable g cells x.
Proof.
  unfold getEvaluationOrder.
  destruct (forEach_returns g (S (size (dependencies g)))
              (visit_returns g (S (size (dependencies g)))) cells (mkVisit ∅ []))
    as [st Hst].
  { simpl. rewrite <- (size_dom (dependencies g)).
    apply Nat.lt_succ_r, subseteq_size. set_solver. }
  rewrite Hst. simpl. exists (result st). split; [reflexivity |].
  destruct (forEach_invariant g cells (S (size (dependencies g))) []
              (fun c s s' => visit_invariant g cells _ [] c s s') cells _ _ Hst)
    as [[Hnd Hvis Hdis Hrch Hcl Hfst] Hcells].
  { split; simpl.
    - apply NoDup_nil_2.
    - intros x. rewrite elem_of_nil. set_solver.
    - intros x Hx. inversion Hx.
    - intros x Hx. inversion Hx.
    - intros x d Hx. inversion Hx.
    - intros i x Hi. discriminate. }
  { intros c Hc. split; [exists c; split; [exact Hc | apply rtc_refl] |].
    intros s Hs. inversion Hs. }
  assert (Hres : forall x, x ∈ visited st -> x ∈ result st).
  { intros x Hx. apply Hvis in Hx as [Hx | Hx]; [exact Hx | inversion Hx]. }
  split; [exact Hnd |].
  intros x. split; [apply Hrch |]. intros (c & Hc & Hpath).
  assert (Hc' : c ∈ result st) by now apply Hres, Hcells.
  clear Hc. induction Hpath as [c | c y z Hcy _ IH]; [exact Hc' |].
  apply IH, Hres. now apply (Hcl c y).
Qed.

End EvaluationOrderElements.

Section EmptyGraph.

Lemma forEach_visit_empty (cells : list CellAddress) (st : VisitState) :
  NoDup cells -> (forall c, c ∈ cells -> c ∉ visited st) ->
  result <$> forEach (visit 1 empty_graph) cells st = Some (result st ++ cells)%list.
Proof.
  revert st. induction cells as [|c cells IH]; intros st Hnd Hnew; simpl.
  - now rewrite app_nil_r.
  - apply NoDup_cons in Hnd as [Hc Hnd].
    destruct (decide (c ∈ visited st)) as [Hin | _].
    { exfalso. apply (Hnew c); [now left | exact Hin]. }
    change (getDependencies empty_graph c) with (@nil CellAddress). simpl.
    rewrite IH; simpl.
    + now rewrite <- app_assoc.
    + exact Hnd.
    + intros c' Hc' Hin. apply elem_of_union in Hin as [Hin | Hin].
      * apply elem_of_singleton in Hin as ->. contradiction.
      * apply (Hnew c'); [now right | exact Hin].
Qed.

(** With no dependency recorded the order is the one asked. *)
Lemma getEvaluationOrder_empty (cells : list CellAddress) :
  NoDup cells -> getEvaluationOrder empty_graph cells = Some cells.
Proof.
  intros Hnd. unfold getEvaluationOrder.
  change (size (dependencies empty_graph)) with (size (∅ : gmap string (list string))).
  rewrite map_size_empty.
  rewrite forEach_visit_empty; [reflexivity | exact Hnd |].
  intros c _. simpl. set_solver.
Qed.

End EmptyGraph.

Section SheetResults.

Context (B : Builtins) (sheet : Sheet).

(** A depth from which [evaluateCell] returns. *)
Lemma evaluateCell_fuel (address : CellAddress) :
  exists fuel, forall fuel', (fuel <= fuel')%nat ->
    is_Some (evaluateCell B sheet fuel' address).
Proof.
  unfold evaluateCell.
  destruct (cells sheet !! address) as [[lit | src ast | msg c]|];
    try (exists 0%nat; intros; eexists; reflexivity).
  destruct (evaluates_total B sheet ast {[address]}) as [out [Hout [fuel Hfuel]]].
  exists fuel. intros fuel' Hle.
  rewrite (evaluateAst_mono B sheet fuel fuel' ast {[address]} out Hle Hout Hfuel).
  destruct out as [[v | vs] v' | e |]; [eauto | eauto | eauto | congruence].
Qed.

(** One depth for a whole list of cells. *)
Lemma evaluateCell_fuel_all (l : list CellAddress) :
  exists fuel, forall a, a ∈ l -> is_Some (evaluateCell B sheet fuel a).
Proof.
  induction l as [|a l [f IH]].
  - exists 0%nat. intros a Ha. inversion Ha.
  - destruct (evaluateCell_fuel a) as [fa Ha].
    exists (Nat.max f fa). intros x Hx. apply elem_of_cons in Hx as [-> | Hx].
    + apply Ha. lia.
    + destruct (IH x Hx) as [r Hr]. exists r.
      apply (evaluateCell_mono B sheet f); [lia | exact Hr].
Qed.

Lemma map_set_fresh {V} (k : CellAddress) (v : V) (m : list (CellAddress * V)) :
  k ∉ m.*1 -> map_set k v m = (m ++ [(k, v)])%list.
Proof.
  induction m as [|[k' v'] m IH]; simpl; [reflexivity |].
  intros Hk. destruct (decide (k' = k)) as [-> | Hne].
  - exfalso. apply Hk. now left.
  - rewrite IH; [reflexivity |]. intros Hin. apply Hk. now right.
Qed.

(** The second loop of [evaluateSheet] over cells that are all different:
    one entry per cell, in the order of the cells. *)
Lemma forEach_results (fuel : nat) (order : list CellAddress)
  (acc : list (CellAddress * EvalResult)) :
  NoDup order -> (forall a, a ∈ order -> a ∉ acc.*1) ->
  (forall a, a ∈ order -> is_Some (evaluateCell B sheet fuel a)) ->
  exists rs,
    forEach (fun addr results =>
               match evaluateCell B sheet fuel addr with
               | Some result => Some (map_set addr result results)
               | None => None
               end) order acc = Some (acc ++ rs)%list
    /\ rs.*1 = order
    /\ forall a r, (a, r) ∈ rs -> evaluateCell B sheet fuel a = Some r.
Proof.
  revert acc. induction order as [|a order IH]; intros acc Hnd Hnew Hsome; simpl.
  - exists []. rewrite app_nil_r. repeat split. intros a r H. inversion H.
  - apply NoDup_cons in Hnd as [Ha Hnd].
    destruct (Hsome a ltac:(left)) as [r Hr]. rewrite Hr.
    rewrite map_set_fresh by (apply Hnew; now left).
    destruct (IH (acc ++ [(a, r)])%list Hnd) as (rs & Hrs & Hkeys & Hvals).
    + intros x Hx. rewrite fmap_app, elem_of_app. intros [Hin | Hin].
      * apply (Hnew x); [now right | exact Hin].
      * simpl in Hin. apply list_elem_of_singleton in Hin as ->. contradiction.
    + intros x Hx. apply Hsome. now right.
    + exists ((a, r) :: rs). rewrite Hrs, <- app_assoc. split; [reflexivity |].
      split; [rewrite fmap_cons, Hkeys; reflexivity |].
      intros x rx Hx. apply elem_of_cons in Hx as [[= -> ->] | Hx]; [exact Hr |].
      now apply Hvals.
Qed.

(** The formula cells among the entries of the sheet. *)
Lemma elem_of_formula_cells (entries : list (CellAddress * Cell)) (c : CellAddress) :
  entries_of sheet entries -> c ∈ formula_cells entries <-> holds_formula sheet c.
Proof.
  intros Hentries. unfold formula_cells, holds_formula.
  rewrite list_elem_of_fmap. split.
  - intros ([c' cell] & -> & Hin). apply list_elem_of_filter in Hin as [Hf Hin]. simpl in *.
    rewrite Hentries in Hin. apply elem_of_map_to_list in Hin.
    destruct cell as [v | src ast | msg code]; try discriminate. eauto.
  - intros (src & ast & Hc). exists (c, FormulaCell src ast). split; [reflexivity |].
    apply list_elem_of_filter. split; [reflexivity |].
    rewrite Hentries. now apply elem_of_map_to_list.
Qed.

Lemma NoDup_formula_cells (entries : list (CellAddress * Cell)) :
  entries_of sheet entries -> NoDup (formula_cells entries).
Proof.
  intros Hentries. unfold formula_cells.
  assert (Hnd : NoDup entries.*1).
  { rewrite Hentries. apply NoDup_fst_map_to_list. }
  clear Hentries. induction entries as [|[c cell] entries IH]; simpl; [apply NoDup_nil_2 |].
  simpl in Hnd. apply NoDup_cons in Hnd as [Hc Hnd].
  rewrite filter_cons. destruct (decide _) as [Hf | Hf]; simpl; [| now apply IH].
  apply NoDup_cons. split; [| now apply IH].
  intros Hin. apply Hc. apply list_elem_of_fmap in Hin as ([c' cell'] & -> & Hin).
  apply list_elem_of_filter in Hin as [_ Hin]. apply list_elem_of_fmap.
  now exists (c', cell').
Qed.

(** What [evaluateSheet] returns, for any graph the engine may hold. *)
Lemma evaluateSheet_returns (this : FormulaEngine) (entries : list (CellAddress * Cell)) :
  exists order results,
    getEvaluationOrder (depGraph this) (formula_cells entries) = Some order
    /\ sheet_results B this sheet entries results
    /\ results.*1 = order
    /\ NoDup order
    /\ (forall x, x ∈ order <-> reachable (depGraph this) (formula_cells entries) x)
    /\ forall a r, (a, r) ∈ results -> cell_result B sheet a r.
Proof.
  destruct (getEvaluationOrder_elements (depGraph this) (formula_cells entries))
    as (order & Horder & Hnd & Helem).
  destruct (evaluateCell_fuel_all order) as [fuel Hfuel].
  destruct (forEach_results fuel order [] Hnd) as (rs & Hrs & Hkeys & Hvals).
  { intros a _ Hin. inversion Hin. }
  { exact Hfuel. }
  exists order, rs. split; [exact Horder |]. split.
  { exists fuel. unfold evaluateSheet. rewrite Horder. exact Hrs. }
  split; [exact Hkeys |]. split; [exact Hnd |]. split; [exact Helem |].
  intros a r Har. exists fuel. now apply Hvals.
Qed.

End SheetResults.

(** X14. [evaluateSheet] returns for every sheet whose formulas name
    ranges with corners below [index_limit] only, and every graph the
    engine may hold. The map it returns has one entry for each cell that
    holds a formula or can be reached from such a cell along the
    dependencies of the graph, and no other; the value of the entry is
    what [evaluateCell] returns for the cell. When the graph holds no
    dependency, the entries come in the order in which the sheet lists its
    formula cells. *)
Theorem evaluateSheet_results (B : Builtins) (this : FormulaEngine) (sheet : Sheet)
    (entries : list (CellAddress * Cell)) :
  entries_of sheet entries -> sheet_within sheet = true ->
  exists results,
    sheet_results B this sheet entries results
    /\ NoDup results.*1
    /\ (forall addr r,
          (addr, r) ∈ results <->
          (exists c, holds_formula sheet c /\ rtc (reads (depGraph this)) c addr)
          /\ cell_result B sheet addr r)
    /\ (depGraph this = empty_graph -> results.*1 = formula_cells entries).
Proof.
  intros Hentries _.
  destruct (evaluateSheet_returns B sheet this entries)
    as (order & results & Horder & Hres & Hkeys & Hnd & Helem & Hvals).
  exists results. split; [exact Hres |]. split; [now rewrite Hkeys |]. split.
  - intros addr r. split.
    + intros Hin. split; [| now apply Hvals].
      assert (Haddr : addr ∈ order).
      { rewrite <- Hkeys. apply list_elem_of_fmap. now exists (addr, r). }
      apply Helem in Haddr as (c & Hc & Hpath). exists c. split; [| exact Hpath].
      now apply (elem_of_formula_cells sheet entries c Hentries).
    + intros [(c & Hc & Hpath) Hr].
      assert (Haddr : addr ∈ results.*1).
      { rewrite Hkeys. apply Helem. exists c. split; [| exact Hpath].
        now apply (elem_of_formula_cells sheet entries c Hentries). }
      apply list_elem_of_fmap in Haddr as ([a r'] & -> & Hin). simpl in *.
      now rewrite (cell_result_deterministic B sheet a r r' Hr (Hvals _ _ Hin)).
  - intros Hempty. rewrite Hkeys. rewrite Hempty in Horder.
    rewrite getEvaluationOrder_empty in Horder
      by now apply (NoDup_formula_cells sheet).
    now injection Horder as <-.
Qed.

Lemma evaluateSheet_results_witness :
  (forall B,
     exists results,
       sheet_results B engine mutual_sum_sheet (map_to_list (cells mutual_sum_sheet)) results
       /\ NoDup results.*1
       /\ (forall addr r,
             (addr, r) ∈ results <->
             (exists c, holds_formula mutual_sum_sheet c /\ rtc (reads (depGraph engine)) c addr)
             /\ cell_result B mutual_sum_sheet addr r)
       /\ (depGraph engine = empty_graph ->
           results.*1 = formula_cells (map_to_list (cells mutual_sum_sheet))))
  /\ entries_of mutual_sum_sheet (map_to_list (cells mutual_sum_sheet))
  /\ sheet_within mutual_sum_sheet = true.
Proof.
  split; [| split; [unfold entries_of |]; reflexivity]. intros B.
  apply (evaluateSheet_results B engine mutual_sum_sheet);
    [unfold entries_of |]; reflexivity.
Defined.

Section Updates.

Context (B : Builtins).

Lemma updateCell_engine (fuel : nat) (sheet : Sheet) (address : CellAddress) (cell : Cell) :
  updateCell B fuel engine sheet address cell
  = Some (engine,
          mkSheet (id sheet) (name sheet) (rows sheet) (cols sheet)
            (<[address := cell]> (cells sheet))).
Proof.
  unfold updateCell, engine.
  assert (Hrm : removeDependencies address empty_graph = empty_graph).
  { unfold removeDependencies, empty_graph. simpl. now rewrite lookup_empty. }
  destruct (isFormula cell); simpl; rewrite ?Hrm;
    (change (getDependents empty_graph address) with (@nil CellAddress)); reflexivity.
Qed.

End Updates.

(** X15. The engine never records a dependency: [updateCell] only ever
    calls [removeDependencies], so after any sequence of [updateCell]
    calls on the engine as it is created its graph still has no
    dependency and no dependent for any cell. Each call returns without
    evaluating any cell (no depth of evaluation is needed), and the sheet
    it returns holds the cells stored, the last one stored at an address
    winning. *)
Theorem updates_record_nothing (B : Builtins) (fuel : nat)
    (edits : list (CellAddress * Cell)) (sheet : Sheet) :
  exists this' sheet',
    updates B fuel edits engine sheet = Some (this', sheet')
    /\ (forall cell, getDependencies (depGraph this') cell = []
                     /\ getDependents (depGraph this') cell = [])
    /\ cells sheet'
       = foldl (fun m edit => <[fst edit := snd edit]> m) (cells sheet) edits.
Proof.
  exists engine. revert sheet. induction edits as [|[address cell] edits IH]; intros sheet.
  - exists sheet. simpl. repeat split.
  - simpl. rewrite updateCell_engine.
    destruct (IH (mkSheet (id sheet) (name sheet) (rows sheet) (cols sheet)
                    (<[address := cell]> (cells sheet)))) as (sheet' & Hup & Hg & Hcells).
    exists sheet'. split; [exact Hup |]. split; [exact Hg | exact Hcells].
Qed.

Section RangeValues.

Context (B : Builtins) (sheet : Sheet).




End RangeValues.



Section ErrorCodes.

Context (B : Builtins) (sheet : Sheet).

Lemma plainly_bind {A C} (m : Eval A) (k : A -> Eval C) (v : gset CellAddress) :
  throws_plainly (m v) -> (forall a v', throws_plainly (k a v')) ->
  throws_plainly (bind m k v).
Proof.
  unfold bind. intros Hm Hk. destruct (m v) as [a v' | e |]; [apply Hk | exact Hm | exact I].
Qed.

Lemma plainly_lift {A} (c : Completion A) (v : gset CellAddress) :
  fails_plainly c -> throws_plainly (lift c v).
Proof. destruct c; simpl; [trivial |]. intros H. now right. Qed.

Lemma plainly_ret {A} (a : A) (v : gset CellAddress) : throws_plainly (ret a v).
Proof. exact I. Qed.

Lemma cbind_fails_plainly {A C} (c : Completion A) (k : A -> Completion C) :
  fails_plainly c -> (forall a, fails_plainly (k a)) -> fails_plainly (cbind c k).
Proof. destruct c; simpl; auto. Qed.

Lemma cmap_fails_plainly {A C} (f : A -> Completion C) (l : list A) :
  (forall x, fails_plainly (f x)) -> fails_plainly (cmap f l).
Proof.
  intros Hf. induction l as [|x l IH]; simpl; [exact I |].
  apply cbind_fails_plainly; [apply Hf |]. intros y.
  apply cbind_fails_plainly; [exact IH |]. intros ys. exact I.
Qed.

Lemma toCellAddress_fails_plainly (s : string) : fails_plainly (toCellAddress s).
Proof.
  unfold toCellAddress. destruct (span is_upper s) as [l s1].
  destruct (span is_digit s1) as [d s2].
  destruct (negb (is_empty l) && negb (is_empty d) && is_empty s2); reflexivity.
Qed.

Lemma parseAddress_fails_plainly (s : string) : fails_plainly (parseAddress s).
Proof.
  unfold parseAddress. destruct (match_address s) as [[[[dc l] dr] d]|]; reflexivity.
Qed.

Lemma getCellsInRange_fails_plainly (a b : CellAddress) : fails_plainly (getCellsInRange a b).
Proof.
  unfold getCellsInRange.
  apply cbind_fails_plainly; [apply parseAddress_fails_plainly | intros pa].
  apply cbind_fails_plainly; [apply parseAddress_fails_plainly | intros pb].
  apply cmap_fails_plainly. intros [r c]. apply toCellAddress_fails_plainly.
Qed.

Lemma ensureScalar_fails_plainly (value : EvalValue) (context : string) :
  fails_plainly (ensureScalar value context).
Proof. destruct value; reflexivity. Qed.

Lemma arithmetic_fails_plainly (op : BinOp) (l r : float) :
  fails_plainly (arithmetic B op l r).
Proof. destruct op; try exact I. simpl. destruct (r =? 0)%float; reflexivity. Qed.

Lemma non_numeric_fails_plainly (op : BinOp) (l r : EvalValue) :
  fails_plainly (non_numeric B op l r).
Proof.
  destruct op; try reflexivity. simpl.
  destruct (is_string l || is_string r); reflexivity.
Qed.

Section Step.

Context (ev : FormulaAst -> Eval EvalValue).
Hypothesis ev_plainly : forall ast v, throws_plainly (ev ast v).

Lemma evaluateCellRef_plainly (address : CellAddress) (v : gset CellAddress) :
  throws_plainly (evaluateCellRef sheet ev address v).
Proof.
  unfold evaluateCellRef.
  destruct (decide (address ∈ v)); [now left |].
  destruct (cells sheet !! address) as [[lit | src ast | msg c]|]; try exact I.
  specialize (ev_plainly ast ({[address]} ∪ v)).
  destruct (ev ast ({[address]} ∪ v)) as [r v' | e |]; [| exact ev_plainly | exact I].
  apply plainly_lift, ensureScalar_fails_plainly.
Qed.

Lemma mapM_plainly (addresses : list CellAddress) (v : gset CellAddress) :
  throws_plainly (mapM (evaluateCellRef sheet ev) addresses v).
Proof.
  revert v. induction addresses as [|a l IH]; intros v; [exact I |].
  cbn [mapM]. apply plainly_bind; [apply evaluateCellRef_plainly |].
  intros y v'. apply plainly_bind; [apply IH | intros; exact I].
Qed.

Lemma for_args_plainly {A} (step : A -> EvalValue -> A) (args : list FormulaAst) (acc : A)
  (v : gset CellAddress) :
  throws_plainly (for_args ev step args acc v).
Proof.
  revert acc v. induction args as [|arg rest IH]; intros acc v; [exact I |].
  cbn [for_args]. apply plainly_bind; [apply ev_plainly | intros; apply IH].
Qed.

Lemma evaluateFunction_plainly (name : string) (args : list FormulaAst)
  (v : gset CellAddress) :
  throws_plainly (evaluateFunction ev name args v).
Proof.
  unfold evaluateFunction.
  repeat match goal with
         | |- context [if ?b then _ else _] => destruct b
         end;
    try (apply plainly_bind; [apply for_args_plainly | intros; try destruct a; exact I]);
    try (now right).
  destruct args as [|arg0 [|arg1 [|arg2 [|arg3 rest]]]]; try (now right).
  apply plainly_bind; [apply ev_plainly | intros c v'].
  apply plainly_bind; [apply plainly_lift, ensureScalar_fails_plainly | intros condition v''].
  apply plainly_bind; [apply ev_plainly |].
  intros r v3. apply plainly_lift, ensureScalar_fails_plainly.
Qed.

Lemma evaluateAst_body_plainly (ast : FormulaAst) (v : gset CellAddress) :
  throws_plainly (evaluateAst_body B sheet ev ast v).
Proof.
  destruct ast as [n | s | b | address absolute | start end_ | name args | op lhs rhs | operand];
    cbn [evaluateAst_body]; try exact I.
  - apply plainly_bind; [apply evaluateCellRef_plainly | intros; exact I].
  - apply plainly_bind; [apply plainly_lift, getCellsInRange_fails_plainly |].
    intros addresses v'. apply plainly_bind; [apply mapM_plainly | intros; exact I].
  - apply plainly_bind; [apply evaluateFunction_plainly | intros; exact I].
  - apply plainly_bind; [| intros; exact I]. unfold evaluateBinaryOp.
    apply plainly_bind; [apply ev_plainly | intros l v'].
    apply plainly_bind; [apply ev_plainly | intros r v''].
    apply plainly_lift.
    destruct l as [[] |], r as [[] |];
      (apply arithmetic_fails_plainly || apply non_numeric_fails_plainly).
  - apply plainly_bind; [apply ev_plainly |].
    intros value v'. destruct value as [[n | s | b |] | vs]; simpl; try exact I; now right.
Qed.

End Step.

(** Whatever [evaluateAst] throws is the error of the cycle check or an
    [Error] without code. *)
Lemma evaluateAst_plainly (fuel : nat) (ast : FormulaAst) (v : gset CellAddress) :
  throws_plainly (evaluateAst B sheet fuel ast v).
Proof.
  revert ast v. induction fuel as [|fuel IH]; intros ast v; [exact I |].
  cbn [evaluateAst]. now apply evaluateAst_body_plainly.
Qed.

End ErrorCodes.

(** X21. The only codes a formula can get are [CYCLE] and [EVAL]: when
    [evaluateCell] returns a result with an error for a cell that holds a
    formula, the value is [null] and the error is the one of the cycle
    check (code [CYCLE], message [Circular reference detected]) or has
    the code [EVAL]. The codes [DIV0], [REF] and [PARSE] of the error
    cells are never given to a formula, whatever goes wrong in it. *)
Theorem formula_error_is_CYCLE_or_EVAL (B : Builtins) (sheet : Sheet)
    (address : CellAddress) (r : EvalResult) :
  holds_formula sheet address -> cell_result B sheet address r ->
  error r = None
  \/ (value r = VNull
      /\ exists err, error r = Some err
           /\ (err = {| code := "CYCLE"; message := "Circular reference detected" |}
               \/ code err = "EVAL")).
Proof.
  intros (src & ast & Hcell) [fuel Hr]. unfold evaluateCell in Hr. rewrite Hcell in Hr.
  pose proof (evaluateAst_plainly B sheet fuel ast {[address]}) as Hplain.
  destruct (evaluateAst B sheet fuel ast {[address]}) as [[v | vs] v' | e |];
    [| | | discriminate]; injection Hr as <-.
  - now left.
  - right. split; [reflexivity |]. eexists. split; [reflexivity |]. now right.
  - right. split; [reflexivity |]. eexists. split; [reflexivity |].
    destruct Hplain as [-> | Hnone]; [now left | right].
    unfold caught. simpl. now rewrite Hnone.
Qed.

Lemma formula_error_is_CYCLE_or_EVAL_witness :
  (error {| value := VNull;
            error := Some {| code := "EVAL"; message := "Division by zero" |} |} = None
   \/ (value {| value := VNull;
                error := Some {| code := "EVAL"; message := "Division by zero" |} |} = VNull
       /\ exists err,
            error {| value := VNull;
                     error := Some {| code := "EVAL"; message := "Division by zero" |} |}
            = Some err
            /\ (err = {| code := "CYCLE"; message := "Circular reference detected" |}
                \/ code err = "EVAL")))
  /\ holds_formula division_sheet "A1".
Proof.
  split.
  - apply (formula_error_is_CYCLE_or_EVAL (mkBuiltins (fun _ _ => nan) (fun _ => ""))
             division_sheet "A1").
    + eexists _, _. reflexivity.
    + exists 2%nat. reflexivity.
  - eexists _, _. reflexivity.
Defined.

(** * The parser *)

Section LexerSteps.

Import Parsing.

Lemma span_length (p : ascii -> bool) (s a b : string) :
  span p s = (a, b) -> String.length s = (String.length a + String.length b)%nat.
Proof. intros H. apply span_spec in H as (-> & _ & _). apply string_length_app. Qed.

(** [nextToken] reads forwards, and a token that is not [EOF] takes at
    least one character. *)
Lemma nextToken_shorter (this this' : Lexer) (token : Token) :
  nextToken this = (token, this') ->
  (String.length (rest this') <= String.length (rest this))%nat
  /\ (type token <> EOF -> (String.length (rest this') < String.length (rest this))%nat).
Proof.
  unfold nextToken.
  destruct (span is_space (rest this)) as [blank s] eqn:Hblank.
  apply span_length in Hblank. rewrite Hblank. clear Hblank.
  destruct s as [|char s1].
  { intros [= <- <-]. simpl. split; [lia | congruence]. }
  simpl String.length.
  destruct (is_operator_char char).
  { destruct s1 as [|nextChar s2].
    - intros [= <- <-]. simpl. split; lia.
    - destruct (completes char nextChar); intros [= <- <-]; simpl; split; lia. }
  destruct (Ascii.eqb char "("); [intros [= <- <-]; simpl; split; lia |].
  destruct (Ascii.eqb char ")"); [intros [= <- <-]; simpl; split; lia |].
  destruct (Ascii.eqb char ","); [intros [= <- <-]; simpl; split; lia |].
  destruct (Ascii.eqb char ":"); [intros [= <- <-]; simpl; split; lia |].
  destruct (Ascii.eqb char quote).
  { destruct (span (fun c => negb (Ascii.eqb c quote)) s1) as [text s2] eqn:Htext.
    apply span_length in Htext. rewrite Htext.
    destruct s2 as [|c s3]; intros [= <- <-]; simpl; split; lia. }
  destruct (is_digit char
            || Ascii.eqb char "."
               && match s1 with String c _ => is_digit c | EmptyString => false end) eqn:Hnum.
  { destruct (span is_number_char (String char s1)) as [text s2] eqn:Htext.
    pose proof (span_length _ _ _ _ Htext) as Hlen. simpl in Hlen.
    intros [= <- <-]. simpl.
    assert (text <> "").
    { intros ->. simpl in Htext. unfold is_number_char at 1 in Htext.
      apply orb_true_iff in Hnum as [Hd | Hd].
      - rewrite Hd in Htext. simpl in Htext.
        destruct (span is_number_char s1); discriminate.
      - apply andb_true_iff in Hd as [Hd _]. rewrite Hd, orb_true_r in Htext.
        destruct (span is_number_char s1); discriminate. }
    destruct text; [congruence |]. simpl in Hlen. split; lia. }
  destruct (is_letter char) eqn:Hletter.
  { destruct (span is_letter (String char s1)) as [letters s2] eqn:Hletters.
    pose proof (span_length _ _ _ _ Hletters) as Hlen. simpl in Hlen.
    assert (letters <> "").
    { intros ->. simpl in Hletters. rewrite Hletter in Hletters.
      destruct (span is_letter s1); discriminate. }
    destruct letters as [|l letters]; [congruence |]. simpl in Hlen.
    destruct s2 as [|c s2'].
    - intros [= <- <-]. simpl in *. split; lia.
    - destruct (is_digit c).
      + destruct (span is_digit (String c s2')) as [digits s3] eqn:Hdigits.
        apply span_length in Hdigits. simpl in Hdigits.
        intros [= <- <-]. simpl in *. split; lia.
      + destruct (Ascii.eqb c "("); intros [= <- <-]; simpl in *; split; lia. }
  intros [= <- <-]. simpl. split; lia.
Qed.

(** [advance] from a token that does not end the input leaves less to
    parse. *)
Lemma advance_remaining (this : Parser) :
  type (current this) <> EOF -> (remaining (advance this) < remaining this)%nat.
Proof.
  intros Hcur. unfold advance, remaining.
  destruct (nextToken (lexer this)) as [token lx] eqn:Hnext.
  apply nextToken_shorter in Hnext as [Hle Hlt]. simpl.
  destruct (decide (type (current this) = EOF)); [contradiction |].
  destruct (decide (type token = EOF)); [lia |]. specialize (Hlt n0). lia.
Qed.

Lemma new_Parser_remaining (input : string) :
  (remaining (new_Parser input) <= String.length input)%nat.
Proof.
  unfold new_Parser, remaining.
  destruct (nextToken (new_Lexer input)) as [token lx] eqn:Hnext.
  apply nextToken_shorter in Hnext as [Hle Hlt]. simpl.
  assert (Hnew : (String.length (rest (new_Lexer input)) <= String.length input)%nat).
  { unfold new_Lexer. destruct input as [|c s]; [simpl; lia |].
    destruct (ascii_dec c "=") as [-> | Hc]; [simpl; lia |].
    destruct c as [[] [] [] [] [] [] [] []]; simpl; try lia. }
  destruct (decide (type token = EOF)); [lia |]. specialize (Hlt n). lia.
Qed.

End LexerSteps.

Section ParserReturns.

Import Parsing.

Context (parseFloat : string -> float).

Lemma expect_remaining (t : TokenType) (this this' : Parser) :
  t <> EOF -> expect t this = Returned this' -> (remaining this' < remaining this)%nat.
Proof.
  intros Ht. unfold expect. destruct (decide (type (current this) = t)) as [Heq | Hne];
    [| discriminate].
  intros [= <-]. apply advance_remaining. congruence.
Qed.

Lemma run_expect_finishes {A} (t : TokenType) (this0 this : Parser)
  (k : Parser -> Run A) :
  t <> EOF -> (remaining this <= remaining this0)%nat ->
  (forall this', (remaining this' < remaining this)%nat -> finishes this0 (k this')) ->
  finishes this0 (run_expect t this k).
Proof.
  intros Ht Hle Hk. unfold run_expect.
  destruct (expect t this) as [this' | e] eqn:He; [| exact I].
  apply Hk. now apply (expect_remaining t).
Qed.

(** With a depth above three times what is left to parse, no method of
    the parser is cut off. *)
Lemma parser_finishes (fuel : nat) :
  (forall minPrecedence this,
      (3 * remaining this + 3 <= fuel)%nat ->
      finishes this (parseExpression parseFloat fuel minPrecedence this))
  /\ (forall minPrecedence lhs this,
        (3 * remaining this + 2 <= fuel)%nat ->
        finishes this (operators parseFloat fuel minPrecedence lhs this))
  /\ (forall this,
        (3 * remaining this + 2 <= fuel)%nat ->
        finishes this (parsePrimary parseFloat fuel this))
  /\ (forall args this,
        (3 * remaining this + 2 <= fuel)%nat ->
        finishes this (arguments parseFloat fuel args this)).
Proof.
  induction fuel as [|fuel (IHe & IHo & IHp & IHa)].
  { repeat split; intros; lia. }
  assert (Hadv : forall this, type (current this) <> EOF ->
                   (remaining (advance this) < remaining this)%nat)
    by exact advance_remaining.
  split; [| split; [| split]].
  - intros minPrecedence this Hfuel. cbn [parseExpression].
    specialize (IHp this ltac:(lia)).
    destruct (parsePrimary parseFloat fuel this) as [lhs this' | e |]; [| exact I | exact IHp].
    simpl in IHp. specialize (IHo minPrecedence lhs this' ltac:(lia)).
    destruct (operators parseFloat fuel minPrecedence lhs this') as [a this'' | e |];
      simpl in *; [lia | exact I | exact IHo].
  - intros minPrecedence lhs this Hfuel. cbn [operators].
    destruct (decide (type (current this) = OPERATOR)) as [Hop | Hop]; [| simpl; lia].
    destruct (PRECEDENCE (value (current this)) <? minPrecedence); [simpl; lia |].
    specialize (Hadv this ltac:(congruence)).
    specialize (IHe (PRECEDENCE (value (current this)) + 1) (advance this) ltac:(lia)).
    destruct (parseExpression parseFloat fuel _ (advance this)) as [rhs this' | e |];
      [| exact I | exact IHe].
    simpl in IHe. destruct (operator (value (current this))) as [o|]; [| exact I].
    specialize (IHo minPrecedence (BinaryOp o lhs rhs) this' ltac:(lia)).
    destruct (operators parseFloat fuel minPrecedence _ this') as [a this'' | e |];
      simpl in *; [lia | exact I | exact IHo].
  - intros this Hfuel. cbn [parsePrimary].
    destruct (type (current this)) eqn:Htype; try exact I.
    + simpl. specialize (Hadv this ltac:(congruence)). lia.
    + simpl. specialize (Hadv this ltac:(congruence)). lia.
    + pose proof (Hadv this ltac:(congruence)) as H1.
      destruct (decide (type (current (advance this)) = COLON)) as [Hcolon | Hcolon].
      * pose proof (Hadv (advance this) ltac:(congruence)) as H2.
        destruct (decide (type (current (advance (advance this))) = CELL_REF))
          as [Href | Href]; [| exact I].
        pose proof (Hadv (advance (advance this)) ltac:(congruence)) as H3.
        destruct (toCellAddress (value (current this))); [| exact I].
        destruct (toCellAddress (value (current (advance (advance this))))); [| exact I].
        simpl. lia.
      * destruct (toCellAddress (value (current this))); [simpl; lia | exact I].
    + pose proof (Hadv this ltac:(congruence)) as H1.
      apply run_expect_finishes; [discriminate | lia |]. intros this1 Hlt1.
      destruct (decide (type (current this1) = RPAREN)) as [Hr | Hr].
      * apply run_expect_finishes; [discriminate | lia |]. intros this2 Hlt2. simpl. lia.
      * specialize (IHe 0 this1 ltac:(lia)).
        destruct (parseExpression parseFloat fuel 0 this1) as [arg this2 | e |];
          [| exact I | exact IHe].
        simpl in IHe. specialize (IHa [arg] this2 ltac:(lia)).
        destruct (arguments parseFloat fuel [arg] this2) as [args this3 | e |];
          [| exact I | exact IHa].
        simpl in IHa.
        apply run_expect_finishes; [discriminate | lia |]. intros this4 Hlt4. simpl. lia.
    + destruct (String.eqb (value (current this)) "-"); [| exact I].
      pose proof (Hadv this ltac:(congruence)) as H1.
      specialize (IHp (advance this) ltac:(lia)).
      destruct (parsePrimary parseFloat fuel (advance this)) as [operand this1 | e |];
        simpl in *; [lia | exact I | exact IHp].
    + pose proof (Hadv this ltac:(congruence)) as H1.
      specialize (IHe 0 (advance this) ltac:(lia)).
      destruct (parseExpression parseFloat fuel 0 (advance this)) as [expr this1 | e |];
        [| exact I | exact IHe].
      simpl in IHe.
      apply run_expect_finishes; [discriminate | lia |]. intros this2 Hlt2. simpl. lia.
  - intros args this Hfuel. cbn [arguments].
    destruct (decide (type (current this) = COMMA)) as [Hc | Hc]; [| simpl; lia].
    pose proof (Hadv this ltac:(congruence)) as H1.
    specialize (IHe 0 (advance this) ltac:(lia)).
    destruct (parseExpression parseFloat fuel 0 (advance this)) as [arg this' | e |];
      [| exact I | exact IHe].
    simpl in IHe. specialize (IHa (args ++ [arg])%list this' ltac:(lia)).
    destruct (arguments parseFloat fuel _ this') as [a this'' | e |];
      simpl in *; [lia | exact I | exact IHa].
Qed.

End ParserReturns.

(** X17. [parseFormula] ends on every input: the recursion of
    [parseExpression] and [parsePrimary] and their loops stop, since every
    round reads at least one token, and whatever the input, the call
    returns a tree or throws an error whose message starts with
    [Parse error: ]. *)
Theorem parseFormula_returns (parseFloat : string -> float) (input : string) :
  (exists ast, Parsing.parseFormula parseFloat input = Some (Returned ast))
  \/ (exists message,
        Parsing.parseFormula parseFloat input
        = Some (Thrown (Error ("Parse error: " ++ message)))).
Proof.
  unfold Parsing.parseFormula, Parsing.parse.
  pose proof (new_Parser_remaining input) as Hnew.
  destruct (parser_finishes parseFloat (3 * String.length input + 6)) as (He & _).
  specialize (He 0 (Parsing.new_Parser input) ltac:(lia)).
  destruct (Parsing.parseExpression parseFloat _ 0 (Parsing.new_Parser input))
    as [result this' | e |]; [| right; eauto | contradiction].
  destruct (decide (Parsing.type (Parsing.current this') = Parsing.EOF)); [left | right]; eauto.
Qed.

Section TokenShapes.

Import Parsing.

Lemma is_letter_upper (c : ascii) :
  is_letter c = true ->
  is_upper (if is_lower c then fromCharCode (charCode c - 32) else c) = true.
Proof.
  unfold is_letter. intros H. destruct (is_lower c) eqn:Hl.
  - unfold is_lower in Hl. apply andb_true_iff in Hl as [H1 H2].
    apply Z.leb_le in H1, H2. unfold is_upper.
    rewrite charCode_fromCharCode by lia.
    apply andb_true_iff. split; apply Z.leb_le; lia.
  - now rewrite orb_false_r in H.
Qed.

Lemma toUpperCase_upper (s : string) :
  string_forall is_letter s = true -> string_forall is_upper (toUpperCase s) = true.
Proof.
  unfold toUpperCase. induction s as [|c s IH]; simpl; [reflexivity |].
  intros H. apply andb_true_iff in H as [Hc Hs].
  now rewrite (is_letter_upper c Hc), IH.
Qed.

Lemma toUpperCase_empty (s : string) : is_empty (toUpperCase s) = is_empty s.
Proof. now destruct s. Qed.

Lemma operator_char_cases (c : ascii) :
  is_operator_char c = true ->
  c = "+"%char \/ c = "-"%char \/ c = "*"%char \/ c = "/"%char
  \/ c = "^"%char \/ c = "<"%char \/ c = ">"%char \/ c = "="%char.
Proof.
  unfold is_operator_char. rewrite !orb_true_iff, !Ascii.eqb_eq. tauto.
Qed.

Lemma span_nonempty (p : ascii -> bool) (c : ascii) (s a b : string) :
  p c = true -> span p (String c s) = (a, b) -> is_empty a = false.
Proof.
  intros Hc. simpl. rewrite Hc. destruct (span p s). now intros [= <- <-].
Qed.

(** The text of every token [nextToken] makes fits its type. *)
Lemma nextToken_well_shaped (this : Lexer) : well_shaped (fst (nextToken this)) = true.
Proof.
  unfold nextToken.
  destruct (span is_space (rest this)) as [blank s] eqn:Hblank.
  apply span_spec in Hblank as (_ & _ & Hstop).
  destruct s as [|char s1]; [reflexivity |]. simpl in Hstop.
  destruct (is_operator_char char) eqn:Hop.
  { apply operator_char_cases in Hop.
    destruct s1 as [|nextChar s2].
    - destruct Hop as [-> | [-> | [-> | [-> | [-> | [-> | [-> | ->]]]]]]]; reflexivity.
    - destruct (completes char nextChar) eqn:Hc.
      + unfold completes in Hc. rewrite !orb_true_iff, !andb_true_iff, !orb_true_iff,
          !Ascii.eqb_eq in Hc.
        destruct Hc as [[-> [-> | ->]] | [-> ->]]; reflexivity.
      + destruct Hop as [-> | [-> | [-> | [-> | [-> | [-> | [-> | ->]]]]]]]; reflexivity. }
  destruct (Ascii.eqb char "(") eqn:H1; [reflexivity |].
  destruct (Ascii.eqb char ")") eqn:H2; [reflexivity |].
  destruct (Ascii.eqb char ",") eqn:H3; [reflexivity |].
  destruct (Ascii.eqb char ":") eqn:H4; [reflexivity |].
  destruct (Ascii.eqb char quote) eqn:H5.
  { destruct (span (fun c => negb (Ascii.eqb c quote)) s1) as [text s2] eqn:Htext.
    apply span_spec in Htext as (_ & Hall & _).
    destruct s2; exact Hall. }
  destruct (is_digit char
            || Ascii.eqb char "."
               && match s1 with String c _ => is_digit c | EmptyString => false end) eqn:Hnum.
  { destruct (span is_number_char (String char s1)) as [text s2] eqn:Htext.
    assert (Hc : is_number_char char = true).
    { unfold is_number_char. apply orb_true_iff in Hnum as [-> | Hd]; [reflexivity |].
      apply andb_true_iff in Hd as [-> _]. apply orb_true_r. }
    pose proof (span_nonempty _ _ _ _ _ Hc Htext) as Hne.
    apply span_spec in Htext as (_ & Hall & _).
    unfold well_shaped. simpl. now rewrite Hne, Hall. }
  destruct (is_letter char) eqn:Hletter.
  { destruct (span is_letter (String char s1)) as [letters s2] eqn:Hletters.
    pose proof (span_nonempty _ _ _ _ _ Hletter Hletters) as Hne.
    apply span_spec in Hletters as (_ & Hall & _).
    pose proof (toUpperCase_upper letters Hall) as Hup.
    assert (Hname : well_shaped (mkToken CELL_REF (toUpperCase letters) 0) = true).
    { unfold well_shaped. simpl. rewrite (span_all _ _ Hup), toUpperCase_empty, Hne.
      reflexivity. }
    destruct s2 as [|c s2']; [exact Hname |].
    destruct (is_digit c) eqn:Hd.
    - destruct (span is_digit (String c s2')) as [digits s3] eqn:Hdigits.
      apply span_spec in Hdigits as (_ & Hdig & _).
      unfold well_shaped. simpl.
      rewrite (span_app is_upper _ _ Hup (stops_upper_digits _ Hdig)).
      now rewrite toUpperCase_empty, Hne, Hdig.
    - destruct (Ascii.eqb c "("); [| exact Hname].
      unfold well_shaped. simpl. now rewrite toUpperCase_empty, Hne, Hup. }
  apply orb_false_iff in Hnum as [Hdigit _].
  unfold well_shaped, unknown_char. simpl.
  now rewrite Hstop, Hop, H1, H2, H3, H4, H5, Hdigit, Hletter.
Qed.

End TokenShapes.

(** X18. The tokens of the lexer: whatever the input, the text of the
    token [nextToken] returns fits its type (a number is a run of digits
    and dots, a cell reference capital letters and then digits, a function
    name capital letters, an operator one of the eleven of the grammar, an
    [EOF] token empty or one character that starts no token; no token has
    the type [RANGE]); the lexer only moves forwards, and past at least
    one character unless the token is [EOF]. *)
Theorem nextToken_shapes (this : Parsing.Lexer) :
  well_shaped (fst (Parsing.nextToken this)) = true
  /\ (String.length (Parsing.rest (snd (Parsing.nextToken this)))
      <= String.length (Parsing.rest this))%nat
  /\ (Parsing.type (fst (Parsing.nextToken this)) <> Parsing.EOF ->
      (String.length (Parsing.rest (snd (Parsing.nextToken this)))
       < String.length (Parsing.rest this))%nat).
Proof.
  split; [apply nextToken_well_shaped |].
  destruct (Parsing.nextToken this) as [token this'] eqn:H.
  exact (nextToken_shorter this this' token H).
Qed.

Section ParserTrees.

Import Parsing.

Context (parseFloat : string -> float).

Lemma advance_well_shaped (this : Parser) : well_shaped (current (advance this)) = true.
Proof.
  unfold advance. pose proof (nextToken_well_shaped (lexer this)) as H.
  now destruct (nextToken (lexer this)).
Qed.

Lemma toCellAddress_same (text a : string) :
  toCellAddress text = Returned a -> toCellAddress a = Returned a.
Proof.
  intros H. pose proof (toCellAddress_characters _ _ H) as (-> & _). exact H.
Qed.

Lemma run_expect_builds {A} (good : A -> Prop) (t : TokenType) (this : Parser)
  (k : Parser -> Run A) :
  (forall this', well_shaped (current this') = true -> builds good (k this')) ->
  builds good (run_expect t this k).
Proof.
  intros Hk. unfold run_expect, expect.
  destruct (decide (type (current this) = t)); [| exact I].
  apply Hk, advance_well_shaped.
Qed.

(** Every method of the parser builds trees of the parser. *)
Lemma parser_builds (fuel : nat) :
  (forall minPrecedence this,
      well_shaped (current this) = true ->
      builds parser_tree (parseExpression parseFloat fuel minPrecedence this))
  /\ (forall minPrecedence lhs this,
        well_shaped (current this) = true -> parser_tree lhs ->
        builds parser_tree (operators parseFloat fuel minPrecedence lhs this))
  /\ (forall this,
        well_shaped (current this) = true ->
        builds parser_tree (parsePrimary parseFloat fuel this))
  /\ (forall args this,
        well_shaped (current this) = true -> Forall parser_tree args ->
        builds (Forall parser_tree) (arguments parseFloat fuel args this)).
Proof.
  induction fuel as [|fuel (IHe & IHo & IHp & IHa)].
  { repeat split; intros; exact I. }
  split; [| split; [| split]].
  - intros minPrecedence this Hthis. cbn [parseExpression].
    specialize (IHp this Hthis).
    destruct (parsePrimary parseFloat fuel this) as [lhs this' | err |]; try exact I.
    destruct IHp as [Hlhs Hthis']. now apply IHo.
  - intros minPrecedence lhs this Hthis Hlhs. cbn [operators].
    destruct (decide (type (current this) = OPERATOR)) as [Hop | Hop]; [| now split].
    destruct (PRECEDENCE (value (current this)) <? minPrecedence); [now split |].
    specialize (IHe (PRECEDENCE (value (current this)) + 1) (advance this)
                  (advance_well_shaped this)).
    destruct (parseExpression parseFloat fuel _ (advance this)) as [rhs this' | err |];
      try exact I.
    destruct IHe as [Hrhs Hthis'].
    destruct (operator (value (current this))) as [o|]; [| exact I].
    apply IHo; [exact Hthis' | now constructor].
  - intros this Hthis. cbn [parsePrimary].
    destruct (type (current this)) eqn:Htype; try exact I.
    + split; [constructor | apply advance_well_shaped].
    + split; [constructor | apply advance_well_shaped].
    + destruct (decide (type (current (advance this)) = COLON)).
      * destruct (decide (type (current (advance (advance this))) = CELL_REF));
          [| exact I].
        destruct (toCellAddress (value (current this))) as [start | err] eqn:Hs;
          [| exact I].
        destruct (toCellAddress (value (current (advance (advance this)))))
          as [end_ | err] eqn:Hend; [| exact I].
        split; [| apply advance_well_shaped].
        constructor; eapply toCellAddress_same; eassumption.
      * destruct (toCellAddress (value (current this))) as [address | err] eqn:Ha;
          [| exact I].
        split; [| apply advance_well_shaped].
        constructor. eapply toCellAddress_same; eassumption.
    + assert (Hname : is_empty (value (current this)) = false
                      /\ string_forall is_upper (value (current this)) = true).
      { unfold well_shaped in Hthis. rewrite Htype in Hthis.
        apply andb_true_iff in Hthis as [H1 H2]. now apply negb_true_iff in H1. }
      destruct Hname as [Hne Hup].
      apply run_expect_builds. intros this1 Hthis1.
      destruct (decide (type (current this1) = RPAREN)).
      * apply run_expect_builds. intros this2 Hthis2.
        split; [| exact Hthis2]. now constructor.
      * specialize (IHe 0 this1 Hthis1).
        destruct (parseExpression parseFloat fuel 0 this1) as [arg this2 | err |];
          try exact I.
        destruct IHe as [Harg Hthis2].
        specialize (IHa [arg] this2 Hthis2 ltac:(now constructor)).
        destruct (arguments parseFloat fuel [arg] this2) as [args this3 | err |];
          try exact I.
        destruct IHa as [Hargs Hthis3].
        apply run_expect_builds. intros this4 Hthis4.
        split; [| exact Hthis4]. now constructor.
    + destruct (String.eqb (value (current this)) "-"); [| exact I].
      specialize (IHp (advance this) (advance_well_shaped this)).
      destruct (parsePrimary parseFloat fuel (advance this)) as [operand this1 | err |];
        try exact I.
      destruct IHp as [Hoperand Hthis1]. split; [now constructor | exact Hthis1].
    + specialize (IHe 0 (advance this) (advance_well_shaped this)).
      destruct (parseExpression parseFloat fuel 0 (advance this)) as [expr this1 | err |];
        try exact I.
      destruct IHe as [Hexpr Hthis1].
      apply run_expect_builds. intros this2 Hthis2. now split.
  - intros args this Hthis Hargs. cbn [arguments].
    destruct (decide (type (current this) = COMMA)); [| now split].
    specialize (IHe 0 (advance this) (advance_well_shaped this)).
    destruct (parseExpression parseFloat fuel 0 (advance this)) as [arg this' | err |];
      try exact I.
    destruct IHe as [Harg Hthis'].
    apply IHa; [exact Hthis' |]. apply Forall_app. split; [exact Hargs |].
    now constructor.
Qed.

End ParserTrees.

(** X19. What the parser never builds: in every tree [parseFormula]
    returns, each address of a reference or of a range is a text that
    [toCellAddress] accepts (capital letters, then digits), no reference
    has a fixed axis, each function name is a non-empty run of capital
    letters whatever the case it was typed in, and there is no boolean
    literal. *)
Theorem parseFormula_tree (parseFloat : string -> float) (input : string)
    (ast : FormulaAst) :
  Parsing.parseFormula parseFloat input = Some (Returned ast) -> parser_tree ast.
Proof.
  unfold Parsing.parseFormula, Parsing.parse. intros H.
  destruct (parser_builds parseFloat (3 * String.length input + 6)) as (He & _).
  specialize (He 0 (Parsing.new_Parser input)).
  destruct (Parsing.parseExpression parseFloat _ 0 (Parsing.new_Parser input))
    as [result this' | e |]; [| discriminate | discriminate].
  destruct (decide (Parsing.type (Parsing.current this') = Parsing.EOF)); [| discriminate].
  injection H as <-. apply He.
  unfold Parsing.new_Parser.
  pose proof (nextToken_well_shaped (Parsing.new_Lexer input)) as Hw.
  now destruct (Parsing.nextToken (Parsing.new_Lexer input)).
Qed.

Lemma parseFormula_tree_witness :
  parser_tree
    (BinaryOp Add (FunctionCall "SUM" [RangeRef "A1" "B2"; UnaryOp (CellRef "C3" relative)])
       (NumberLiteral 1)).
Proof.
  apply (parseFormula_tree (fun _ => 1%float) "=sum(a1:B2, -c3) + 1").
  vm_compute. reflexivity.
Defined.

Section UnknownCharacter.

Import Parsing.

Context (parseFloat : string -> float).

(** The character at which the text is cut, and the text after it. *)
Context (c : ascii) (t : string) (Hc : stops_lexer c = true).

(** [y] is [x] followed by the cut, and no string literal starts in [x]. *)
Let ahead (x y : string) : Prop := quote_free x = true /\ y = x ++ String c t.

(** The two parsers go side by side: on tokens of the same type and text
    with the second lexer ahead of the first by the cut, or both on a
    token of type [EOF]. *)
Let side_by_side (this this' : Parser) : Prop :=
  (type (current this) = EOF /\ type (current this') = EOF)
  \/ (type (current this) = type (current this')
      /\ value (current this) = value (current this')
      /\ ahead (rest (lexer this)) (rest (lexer this'))).

Lemma stops_lexer_tests :
  is_space c = false /\ is_operator_char c = false /\ Ascii.eqb c "(" = false
  /\ Ascii.eqb c ")" = false /\ Ascii.eqb c "," = false /\ Ascii.eqb c ":" = false
  /\ Ascii.eqb c quote = false /\ is_digit c = false /\ is_letter c = false
  /\ Ascii.eqb c "." = false.
Proof.
  pose proof Hc as H. unfold stops_lexer, unknown_char in H.
  apply andb_true_iff in H as [H1 H2]. apply negb_true_iff in H1, H2.
  do 8 (apply orb_false_iff in H1 as [H1 ?]).
  repeat split; assumption.
Qed.

Lemma span_cut (p : ascii -> bool) (x a b : string) :
  p c = false -> span p x = (a, b) -> span p (x ++ String c t) = (a, b ++ String c t).
Proof.
  intros Hp H. apply span_spec in H as (-> & Ha & Hb).
  rewrite string_app_assoc. apply span_app; [exact Ha |].
  destruct b; simpl; [exact Hp | exact Hb].
Qed.

Lemma quote_free_app (x y : string) :
  quote_free (x ++ y) = true <-> quote_free x = true /\ quote_free y = true.
Proof. unfold quote_free. rewrite string_forall_app. apply andb_true_iff. Qed.

(** One token from two lexers of which the second is ahead by the cut. *)
Lemma nextToken_ahead (x y : string) (n n' : nat) :
  ahead x y ->
  let '(token, lx) := nextToken (mkLexer x n) in
  let '(token', lx') := nextToken (mkLexer y n') in
  (type token = EOF /\ type token' = EOF)
  \/ (type token = type token' /\ value token = value token'
      /\ ahead (rest lx) (rest lx')).
Proof.
  destruct stops_lexer_tests
    as (Hspace & Hop & Hlp & Hrp & Hcomma & Hcolon & Hquote & Hdigit & Hletter & Hdot).
  intros [Hfree ->]. unfold nextToken. simpl rest. simpl lexer_pos.
  destruct (span is_space x) as [blank s] eqn:Hblank.
  rewrite (span_cut is_space x blank s Hspace Hblank).
  apply span_spec in Hblank as (-> & _ & _).
  apply quote_free_app in Hfree as [_ Hfree].
  destruct s as [|char s1].
  { simpl. rewrite Hop, Hlp, Hrp, Hcomma, Hcolon, Hquote, Hdigit, Hdot, Hletter. simpl.
    left. split; reflexivity. }
  change (String char s1 ++ String c t) with (String char (s1 ++ String c t)).
  assert (Hfree1 : quote_free s1 = true /\ Ascii.eqb char quote = false).
  { unfold quote_free in Hfree. simpl in Hfree. apply andb_true_iff in Hfree as [H1 H2].
    split; [exact H2 | now apply negb_true_iff in H1]. }
  destruct Hfree1 as [Hfree1 Hnq].
  assert (Hnext : forall s2, ahead s2 (s2 ++ String c t) <-> quote_free s2 = true).
  { intros s2. unfold ahead. tauto. }
  destruct (is_operator_char char) eqn:Hopc.
  { destruct s1 as [|nextChar s2]; simpl.
    - assert (Hcomp : completes char c = false).
      { unfold completes. unfold is_operator_char in Hop.
        repeat (apply orb_false_iff in Hop as [Hop ?]).
        destruct (Ascii.eqb c "="), (Ascii.eqb c ">"); try discriminate.
        now rewrite !andb_false_r. }
      rewrite Hcomp. right. repeat split.
    - assert (Hfree2 : quote_free s2 = true).
      { unfold quote_free in Hfree1. simpl in Hfree1.
        now apply andb_true_iff in Hfree1 as [_ H2]. }
      destruct (completes char nextChar); right; repeat split; assumption. }
  destruct (Ascii.eqb char "("); [right; repeat split; assumption |].
  destruct (Ascii.eqb char ")"); [right; repeat split; assumption |].
  destruct (Ascii.eqb char ","); [right; repeat split; assumption |].
  destruct (Ascii.eqb char ":"); [right; repeat split; assumption |].
  rewrite Hnq.
  assert (Hsame : match s1 ++ String c t with String d _ => is_digit d | EmptyString => false end
                  = match s1 with String d _ => is_digit d | EmptyString => false end).
  { destruct s1; simpl; [exact Hdigit | reflexivity]. }
  rewrite Hsame.
  destruct (is_digit char
            || Ascii.eqb char "."
               && match s1 with String d _ => is_digit d | EmptyString => false end).
  { destruct (span is_number_char (String char s1)) as [text s2] eqn:Htext.
    change (String char (s1 ++ String c t)) with (String char s1 ++ String c t).
    rewrite (span_cut is_number_char _ text s2); [| | exact Htext].
    - right. simpl. repeat split.
      apply span_spec in Htext as (Heq & _ & _). rewrite Heq in Hfree.
      now apply quote_free_app in Hfree as [_ H2].
    - unfold is_number_char. now rewrite Hdigit, Hdot. }
  destruct (is_letter char).
  { destruct (span is_letter (String char s1)) as [letters s2] eqn:Hletters.
    change (String char (s1 ++ String c t)) with (String char s1 ++ String c t).
    rewrite (span_cut is_letter _ letters s2 Hletter Hletters).
    apply span_spec in Hletters as (Heq & _ & _). rewrite Heq in Hfree.
    apply quote_free_app in Hfree as [_ Hfree2].
    destruct s2 as [|d s2'].
    - simpl. rewrite Hdigit, Hlp. right. repeat split.
    - change (String d s2' ++ String c t) with (String d (s2' ++ String c t)).
      cbv iota.
      destruct (is_digit d).
      + destruct (span is_digit (String d s2')) as [digits s3] eqn:Hdigits.
        change (String d (s2' ++ String c t)) with (String d s2' ++ String c t).
        rewrite (span_cut is_digit _ digits s3 Hdigit Hdigits).
        right. simpl. repeat split.
        apply span_spec in Hdigits as (Heq' & _ & _). rewrite Heq' in Hfree2.
        now apply quote_free_app in Hfree2 as [_ H2].
      + destruct (Ascii.eqb d "("); right; simpl; repeat split; assumption. }
  right. simpl. repeat split. assumption.
Qed.

Lemma advance_side_by_side (this this' : Parser) :
  side_by_side this this' -> type (current this) <> EOF ->
  side_by_side (advance this) (advance this').
Proof.
  intros [[Heof _] | (_ & _ & Hahead)] Hcur; [contradiction |].
  unfold advance.
  pose proof (nextToken_ahead (rest (lexer this)) (rest (lexer this'))
                (lexer_pos (lexer this)) (lexer_pos (lexer this')) Hahead) as H.
  destruct (lexer this) as [x n], (lexer this') as [y n']. simpl in H.
  destruct (nextToken (mkLexer x n)) as [token lx].
  destruct (nextToken (mkLexer y n')) as [token' lx'].
  exact H.
Qed.

(** Two runs agree: both return the same tree and leave the parsers side
    by side, or both throw. A run that was cut off agrees with any. *)
Let agree {A} (r r' : Run A) : Prop :=
  match r, r' with
  | CutOff, _ | _, CutOff => True
  | Parsed a this, Parsed a' this' => a = a' /\ side_by_side this this'
  | Failed _, Failed _ => True
  | _, _ => False
  end.

Lemma side_by_side_type (this this' : Parser) :
  side_by_side this this' -> type (current this') = type (current this).
Proof. intros [[-> ->] | (-> & _)]; reflexivity. Qed.

Lemma side_by_side_value (this this' : Parser) :
  side_by_side this this' -> type (current this) <> EOF ->
  value (current this') = value (current this).
Proof. intros [[Heof _] | (_ & -> & _)] Hcur; [contradiction | reflexivity]. Qed.

Lemma run_expect_agree {A} (ty : TokenType) (this this' : Parser)
  (k k' : Parser -> Run A) :
  ty <> EOF -> side_by_side this this' ->
  (forall q q', side_by_side q q' -> agree (k q) (k' q')) ->
  agree (run_expect ty this k) (run_expect ty this' k').
Proof.
  intros Hty Hside Hk. unfold run_expect, expect.
  rewrite (side_by_side_type _ _ Hside).
  destruct (decide (type (current this) = ty)) as [Heq | Hne]; [| exact I].
  apply Hk. apply advance_side_by_side; [exact Hside | congruence].
Qed.

Lemma agree_cut_l {A} (r : Run A) : agree CutOff r.
Proof. exact I. Qed.

Lemma agree_cut_r {A} (r : Run A) : agree r CutOff.
Proof. now destruct r. Qed.

(** The methods of two parsers side by side agree, whatever the depths
    allowed to them. *)
Lemma parser_agrees (fuel : nat) :
  forall fuel',
  (forall minPrecedence this this',
      side_by_side this this' ->
      agree (parseExpression parseFloat fuel minPrecedence this)
            (parseExpression parseFloat fuel' minPrecedence this'))
  /\ (forall minPrecedence lhs this this',
        side_by_side this this' ->
        agree (operators parseFloat fuel minPrecedence lhs this)
              (operators parseFloat fuel' minPrecedence lhs this'))
  /\ (forall this this',
        side_by_side this this' ->
        agree (parsePrimary parseFloat fuel this) (parsePrimary parseFloat fuel' this'))
  /\ (forall args this this',
        side_by_side this this' ->
        agree (arguments parseFloat fuel args this)
              (arguments parseFloat fuel' args this')).
Proof.
  induction fuel as [|fuel IH]; intros fuel'.
  { repeat split; intros; exact I. }
  destruct fuel' as [|fuel'].
  { repeat split; intros; apply agree_cut_r. }
  destruct (IH fuel') as (IHe & IHo & IHp & IHa). clear IH.
  split; [| split; [| split]].
  - intros minPrecedence this this' Hside. cbn [parseExpression].
    specialize (IHp this this' Hside).
    destruct (parsePrimary parseFloat fuel this) as [lhs q | err |],
      (parsePrimary parseFloat fuel' this') as [lhs' q' | err' |];
      try exact I; try contradiction; try apply agree_cut_r.
    destruct IHp as [<- Hq]. now apply IHo.
  - intros minPrecedence lhs this this' Hside. cbn [operators].
    rewrite (side_by_side_type _ _ Hside).
    destruct (decide (type (current this) = OPERATOR)) as [Hop | Hop]; [| now split].
    rewrite (side_by_side_value _ _ Hside) by congruence.
    destruct (PRECEDENCE (value (current this)) <? minPrecedence); [now split |].
    assert (Hadv : side_by_side (advance this) (advance this'))
      by (apply advance_side_by_side; [exact Hside | congruence]).
    specialize (IHe (PRECEDENCE (value (current this)) + 1) _ _ Hadv).
    destruct (parseExpression parseFloat fuel _ (advance this)) as [rhs q | err |],
      (parseExpression parseFloat fuel' _ (advance this')) as [rhs' q' | err' |];
      try exact I; try contradiction; try apply agree_cut_r.
    destruct IHe as [<- Hq].
    destruct (operator (value (current this))); [now apply IHo | exact I].
  - intros this this' Hside. cbn [parsePrimary].
    rewrite (side_by_side_type _ _ Hside).
    destruct (type (current this)) eqn:Htype; try exact I;
      try (rewrite (side_by_side_value _ _ Hside) by congruence);
      try (assert (Hadv : side_by_side (advance this) (advance this'))
            by (apply advance_side_by_side; [exact Hside | congruence])).
    + now split.
    + now split.
    + rewrite (side_by_side_type _ _ Hadv).
      destruct (decide (type (current (advance this)) = COLON)) as [Hcolon | Hcolon].
      * assert (Hadv2 : side_by_side (advance (advance this)) (advance (advance this')))
          by (apply advance_side_by_side; [exact Hadv | congruence]).
        rewrite (side_by_side_type _ _ Hadv2).
        destruct (decide (type (current (advance (advance this))) = CELL_REF))
          as [Href | Href]; [| exact I].
        rewrite (side_by_side_value _ _ Hadv2) by congruence.
        destruct (toCellAddress (value (current this))); [| exact I].
        destruct (toCellAddress (value (current (advance (advance this))))); [| exact I].
        split; [reflexivity |]. apply advance_side_by_side; [exact Hadv2 | congruence].
      * destruct (toCellAddress (value (current this))); [now split | exact I].
    + apply run_expect_agree; [discriminate | exact Hadv |]. intros q q' Hq.
      rewrite (side_by_side_type _ _ Hq).
      destruct (decide (type (current q) = RPAREN)).
      * apply run_expect_agree; [discriminate | exact Hq |]. intros q2 q2' Hq2.
        now split.
      * specialize (IHe 0 q q' Hq).
        destruct (parseExpression parseFloat fuel 0 q) as [arg q2 | err |],
          (parseExpression parseFloat fuel' 0 q') as [arg' q2' | err' |];
          try exact I; try contradiction; try apply agree_cut_r.
        destruct IHe as [<- Hq2]. specialize (IHa [arg] q2 q2' Hq2).
        destruct (arguments parseFloat fuel [arg] q2) as [args q3 | err |],
          (arguments parseFloat fuel' [arg] q2') as [args' q3' | err' |];
          try exact I; try contradiction; try apply agree_cut_r.
        destruct IHa as [<- Hq3].
        apply run_expect_agree; [discriminate | exact Hq3 |]. intros q4 q4' Hq4.
        now split.
    + destruct (String.eqb (value (current this)) "-"); [| exact I].
      specialize (IHp _ _ Hadv).
      destruct (parsePrimary parseFloat fuel (advance this)) as [operand q | err |],
        (parsePrimary parseFloat fuel' (advance this')) as [operand' q' | err' |];
        try exact I; try contradiction; try apply agree_cut_r.
      destruct IHp as [<- Hq]. now split.
    + specialize (IHe 0 _ _ Hadv).
      destruct (parseExpression parseFloat fuel 0 (advance this)) as [expr q | err |],
        (parseExpression parseFloat fuel' 0 (advance this')) as [expr' q' | err' |];
        try exact I; try contradiction; try apply agree_cut_r.
      destruct IHe as [<- Hq].
      apply run_expect_agree; [discriminate | exact Hq |]. intros q2 q2' Hq2. now split.
  - intros args this this' Hside. cbn [arguments].
    rewrite (side_by_side_type _ _ Hside).
    destruct (decide (type (current this) = COMMA)) as [Hcomma | Hcomma]; [| now split].
    assert (Hadv : side_by_side (advance this) (advance this'))
      by (apply advance_side_by_side; [exact Hside | congruence]).
    specialize (IHe 0 _ _ Hadv).
    destruct (parseExpression parseFloat fuel 0 (advance this)) as [arg q | err |],
      (parseExpression parseFloat fuel' 0 (advance this')) as [arg' q' | err' |];
      try exact I; try contradiction; try apply agree_cut_r.
    destruct IHe as [<- Hq]. now apply IHa.
Qed.

Lemma new_Parser_side_by_side (s : string) :
  quote_free s = true -> side_by_side (new_Parser s) (new_Parser (s ++ String c t)).
Proof.
  destruct stops_lexer_tests as (_ & Hop & _).
  intros Hfree. unfold new_Parser.
  assert (Hnew : exists x,
             new_Lexer s = mkLexer x 0 /\ new_Lexer (s ++ String c t) = mkLexer (x ++ String c t) 0
             /\ quote_free x = true).
  { destruct s as [|d s'].
    - exists "". simpl. repeat split.
      destruct (ascii_dec c "=") as [-> | Hne]; [discriminate |].
      destruct c as [[] [] [] [] [] [] [] []]; try reflexivity. now contradiction Hne.
    - destruct (ascii_dec d "=") as [-> | Hne].
      + exists s'. simpl. repeat split.
        unfold quote_free in Hfree. simpl in Hfree. exact Hfree.
      + exists (String d s'). repeat split; [| | exact Hfree];
          destruct d as [[] [] [] [] [] [] [] []]; try reflexivity; now contradiction Hne. }
  destruct Hnew as (x & -> & -> & Hx).
  pose proof (nextToken_ahead x (x ++ String c t) 0 0 (conj Hx eq_refl)) as H.
  destruct (nextToken (mkLexer x 0)) as [token lx].
  destruct (nextToken (mkLexer (x ++ String c t) 0)) as [token' lx'].
  exact H.
Qed.

(** A formula and the same formula with the cut and more text after it
    parse to the same tree, when they parse. *)
Lemma parseFormula_cut (s : string) (ast : FormulaAst) :
  quote_free s = true ->
  parseFormula parseFloat s = Some (Returned ast)
  <-> parseFormula parseFloat (s ++ String c t) = Some (Returned ast).
Proof.
  intros Hfree. unfold parseFormula, parse.
  pose proof (new_Parser_side_by_side s Hfree) as Hside.
  destruct (parser_finishes parseFloat (3 * String.length s + 6)) as (He & _).
  specialize (He 0 (new_Parser s)
                ltac:(pose proof (new_Parser_remaining s); lia)).
  destruct (parser_finishes parseFloat (3 * String.length (s ++ String c t) + 6))
    as (He' & _).
  specialize (He' 0 (new_Parser (s ++ String c t))
                ltac:(pose proof (new_Parser_remaining (s ++ String c t)); lia)).
  destruct (parser_agrees (3 * String.length s + 6)
              (3 * String.length (s ++ String c t) + 6)) as (Hagree & _).
  specialize (Hagree 0 _ _ Hside).
  destruct (parseExpression parseFloat (3 * String.length s + 6) 0 (new_Parser s))
    as [result q | err |],
    (parseExpression parseFloat (3 * String.length (s ++ String c t) + 6) 0
       (new_Parser (s ++ String c t))) as [result' q' | err' |];
    try contradiction; try (split; discriminate).
  destruct Hagree as [<- Hq]. rewrite (side_by_side_type _ _ Hq).
  destruct (decide (type (current q) = EOF)); [tauto | split; discriminate].
Qed.

End UnknownCharacter.

(** X20. The parser stops reading at the first character it does not
    know: when a text without quote is followed by a character that
    starts no token (such as [#], [$], [!] or [;]; the dot apart) and then
    by any text at all, [parseFormula] returns a tree for the whole
    exactly when it returns that tree for the part before the character.
    What comes from that character on is never looked at, and causes no
    error. *)
Theorem unknown_character_ends_formula (parseFloat : string -> float)
    (s : string) (c : ascii) (t : string) (ast : FormulaAst) :
  stops_lexer c = true -> quote_free s = true ->
  Parsing.parseFormula parseFloat s = Some (Returned ast)
  <-> Parsing.parseFormula parseFloat (s ++ String c t) = Some (Returned ast).
Proof.
  intros Hc Hfree. now apply parseFormula_cut.
Qed.

Lemma unknown_character_ends_formula_witness :
  Parsing.parseFormula (fun _ => 1%float) "=A1+1"
  = Some (Returned (BinaryOp Add (CellRef "A1" relative) (NumberLiteral 1)))
  <-> Parsing.parseFormula (fun _ => 1%float) ("=A1+1" ++ String "#" ")) oops")
      = Some (Returned (BinaryOp Add (CellRef "A1" relative) (NumberLiteral 1))).
Proof.
  apply (unknown_character_ends_formula (fun _ => 1%float) "=A1+1" "#" ")) oops");
    reflexivity.
Defined.

Section Depth.

Import Parsing.

Context (parseFloat : string -> float).

(** A method that was not cut off does the same at any greater depth. *)
Lemma parser_mono (fuel : nat) :
  forall fuel', (fuel <= fuel')%nat ->
  (forall minPrecedence this r,
      parseExpression parseFloat fuel minPrecedence this = r -> r <> CutOff ->
      parseExpression parseFloat fuel' minPrecedence this = r)
  /\ (forall minPrecedence lhs this r,
        operators parseFloat fuel minPrecedence lhs this = r -> r <> CutOff ->
        operators parseFloat fuel' minPrecedence lhs this = r)
  /\ (forall this r,
        parsePrimary parseFloat fuel this = r -> r <> CutOff ->
        parsePrimary parseFloat fuel' this = r)
  /\ (forall args this r,
        arguments parseFloat fuel args this = r -> r <> CutOff ->
        arguments parseFloat fuel' args this = r).
Proof.
  induction fuel as [|fuel IH]; intros fuel' Hle.
  { repeat split; intros; simpl in *; congruence. }
  destruct fuel' as [|fuel']; [lia |].
  destruct (IH fuel' ltac:(lia)) as (IHe & IHo & IHp & IHa). clear IH.
  split; [| split; [| split]].
  - intros minPrecedence this r H Hr. cbn [parseExpression] in *.
    destruct (parsePrimary parseFloat fuel this) as [lhs q | err |] eqn:Hp;
      [| subst r | congruence].
    + rewrite (IHp this _ Hp) by discriminate. apply IHo; assumption.
    + now rewrite (IHp this _ Hp) by discriminate.
  - intros minPrecedence lhs this r H Hr. cbn [operators] in *.
    destruct (decide (type (current this) = OPERATOR)); [| exact H].
    destruct (PRECEDENCE (value (current this)) <? minPrecedence); [exact H |].
    destruct (parseExpression parseFloat fuel _ (advance this)) as [rhs q | err |] eqn:He;
      [| subst r | congruence].
    + rewrite (IHe _ _ _ He) by discriminate.
      destruct (operator (value (current this))); [| exact H]. apply IHo; assumption.
    + now rewrite (IHe _ _ _ He) by discriminate.
  - intros this r H Hr. cbn [parsePrimary] in *.
    destruct (type (current this)); try exact H.
    + unfold run_expect in *. destruct (expect LPAREN (advance this)) as [q |]; [| exact H].
      destruct (decide (type (current q) = RPAREN)); [exact H |].
      destruct (parseExpression parseFloat fuel 0 q) as [arg q2 | err |] eqn:He;
        [| subst r | congruence].
      * rewrite (IHe _ _ _ He) by discriminate.
        destruct (arguments parseFloat fuel [arg] q2) as [args q3 | err |] eqn:Ha;
          [| subst r | congruence].
        -- now rewrite (IHa _ _ _ Ha) by discriminate.
        -- now rewrite (IHa _ _ _ Ha) by discriminate.
      * now rewrite (IHe _ _ _ He) by discriminate.
    + destruct (String.eqb (value (current this)) "-"); [| exact H].
      destruct (parsePrimary parseFloat fuel (advance this)) as [operand q | err |] eqn:Hp;
        [| subst r | congruence]; now rewrite (IHp _ _ Hp) by discriminate.
    + destruct (parseExpression parseFloat fuel 0 (advance this)) as [expr q | err |] eqn:He;
        [| subst r | congruence]; now rewrite (IHe _ _ _ He) by discriminate.
  - intros args this r H Hr. cbn [arguments] in *.
    destruct (decide (type (current this) = COMMA)); [| exact H].
    destruct (parseExpression parseFloat fuel 0 (advance this)) as [arg q | err |] eqn:He;
      [| subst r | congruence].
    + rewrite (IHe _ _ _ He) by discriminate. apply IHa; assumption.
    + now rewrite (IHe _ _ _ He) by discriminate.
Qed.

Lemma finishes_not_cut {A} (this : Parser) (r : Run A) : finishes this r -> r <> CutOff.
Proof. intros H ->. exact H. Qed.

(** At any depth that is enough, the methods are the runs. *)
Lemma run_expression_fuel (fuel : nat) (minPrecedence : Z) (this : Parser) :
  (3 * remaining this + 3 <= fuel)%nat ->
  parseExpression parseFloat fuel minPrecedence this = run_expression parseFloat minPrecedence this.
Proof.
  intros Hle. destruct (parser_mono (3 * remaining this + 3) fuel Hle) as (H & _).
  apply H; [reflexivity |]. apply (finishes_not_cut this).
  now apply (parser_finishes parseFloat).
Qed.

Lemma run_operators_fuel (fuel : nat) (minPrecedence : Z) (lhs : FormulaAst) (this : Parser) :
  (3 * remaining this + 2 <= fuel)%nat ->
  operators parseFloat fuel minPrecedence lhs this
  = run_operators parseFloat minPrecedence lhs this.
Proof.
  intros Hle. destruct (parser_mono (3 * remaining this + 2) fuel Hle) as (_ & H & _).
  apply H; [reflexivity |]. apply (finishes_not_cut this).
  now apply (parser_finishes parseFloat).
Qed.

Lemma run_primary_fuel (fuel : nat) (this : Parser) :
  (3 * remaining this + 2 <= fuel)%nat ->
  parsePrimary parseFloat fuel this = run_primary parseFloat this.
Proof.
  intros Hle. destruct (parser_mono (3 * remaining this + 2) fuel Hle) as (_ & _ & H & _).
  apply H; [reflexivity |]. apply (finishes_not_cut this).
  now apply (parser_finishes parseFloat).
Qed.

Lemma run_arguments_fuel (fuel : nat) (args : list FormulaAst) (this : Parser) :
  (3 * remaining this + 2 <= fuel)%nat ->
  arguments parseFloat fuel args this = run_arguments parseFloat args this.
Proof.
  intros Hle. destruct (parser_mono (3 * remaining this + 2) fuel Hle) as (_ & _ & _ & H).
  apply H; [reflexivity |]. apply (finishes_not_cut this).
  now apply (parser_finishes parseFloat).
Qed.

Lemma run_expression_finishes (minPrecedence : Z) (this : Parser) :
  finishes this (run_expression parseFloat minPrecedence this).
Proof. now apply (parser_finishes parseFloat). Qed.

Lemma run_primary_finishes (this : Parser) : finishes this (run_primary parseFloat this).
Proof. now apply (parser_finishes parseFloat). Qed.

Lemma run_arguments_finishes (args : list FormulaAst) (this : Parser) :
  finishes this (run_arguments parseFloat args this).
Proof. now apply (parser_finishes parseFloat). Qed.

(** [parseExpression]: a primary, then the loop over the operators. *)
Lemma run_expression_eq (minPrecedence : Z) (this : Parser) :
  run_expression parseFloat minPrecedence this
  = match run_primary parseFloat this with
    | Parsed lhs this' => run_operators parseFloat minPrecedence lhs this'
    | Failed e => Failed e
    | CutOff => CutOff
    end.
Proof.
  unfold run_expression.
  replace (3 * remaining this + 3)%nat with (S (3 * remaining this + 2)) by lia.
  cbn [parseExpression]. rewrite run_primary_fuel by lia.
  pose proof (run_primary_finishes this) as Hfin.
  destruct (run_primary parseFloat this) as [lhs q | err |]; [| reflexivity | reflexivity].
  simpl in Hfin. apply run_operators_fuel. lia.
Qed.

(** One round of the loop over the operators. *)
Lemma run_operators_eq (minPrecedence : Z) (lhs : FormulaAst) (this : Parser) :
  run_operators parseFloat minPrecedence lhs this
  = if decide (type (current this) = OPERATOR) then
      if PRECEDENCE (value (current this)) <? minPrecedence then Parsed lhs this
      else
        match run_expression parseFloat (PRECEDENCE (value (current this)) + 1)
                (advance this) with
        | Parsed rhs this' =>
            match operator (value (current this)) with
            | Some o => run_operators parseFloat minPrecedence (BinaryOp o lhs rhs) this'
            | None => Failed (Error ("Unexpected token: " ++ value (current this)))
            end
        | Failed e => Failed e
        | CutOff => CutOff
        end
    else Parsed lhs this.
Proof.
  unfold run_operators.
  replace (3 * remaining this + 2)%nat with (S (3 * remaining this + 1)) by lia.
  cbn [operators].
  destruct (decide (type (current this) = OPERATOR)) as [Hop | Hop]; [| reflexivity].
  destruct (PRECEDENCE (value (current this)) <? minPrecedence); [reflexivity |].
  pose proof (advance_remaining this ltac:(congruence)) as Hadv.
  rewrite run_expression_fuel by lia.
  pose proof (run_expression_finishes (PRECEDENCE (value (current this)) + 1) (advance this))
    as Hfin.
  destruct (run_expression parseFloat _ (advance this)) as [rhs q | err |];
    [| reflexivity | reflexivity].
  simpl in Hfin. destruct (operator (value (current this))); [| reflexivity].
  apply run_operators_fuel. lia.
Qed.

(** The loop over the arguments after the first. *)
Lemma run_arguments_eq (args : list FormulaAst) (this : Parser) :
  run_arguments parseFloat args this
  = if decide (type (current this) = COMMA) then
      match run_expression parseFloat 0 (advance this) with
      | Parsed arg this' => run_arguments parseFloat (args ++ [arg])%list this'
      | Failed e => Failed e
      | CutOff => CutOff
      end
    else Parsed args this.
Proof.
  unfold run_arguments.
  replace (3 * remaining this + 2)%nat with (S (3 * remaining this + 1)) by lia.
  cbn [arguments].
  destruct (decide (type (current this) = COMMA)) as [Hc | Hc]; [| reflexivity].
  pose proof (advance_remaining this ltac:(congruence)) as Hadv.
  rewrite run_expression_fuel by lia.
  pose proof (run_expression_finishes 0 (advance this)) as Hfin.
  destruct (run_expression parseFloat 0 (advance this)) as [arg q | err |];
    [| reflexivity | reflexivity].
  simpl in Hfin. apply run_arguments_fuel. lia.
Qed.

End Depth.

Section PrimaryRuns.

Import Parsing.

Context (parseFloat : string -> float).

Lemma run_expect_remaining {A} (t : TokenType) (this : Parser) (k k' : Parser -> Run A) :
  t <> EOF ->
  (forall q, (remaining q < remaining this)%nat -> k q = k' q) ->
  run_expect t this k = run_expect t this k'.
Proof.
  intros Ht Hk. unfold run_expect.
  destruct (expect t this) as [q |] eqn:He; [| reflexivity].
  apply Hk. now apply (expect_remaining t).
Qed.

(** [parsePrimary], case by case. *)
Lemma run_primary_eq (this : Parser) :
  run_primary parseFloat this
  = let token := current this in
    match type token with
    | NUMBER => Parsed (NumberLiteral (parseFloat (value token))) (advance this)
    | STRING => Parsed (StringLiteral (value token)) (advance this)
    | CELL_REF =>
        let this1 := advance this in
        if decide (type (current this1) = COLON) then
          let this2 := advance this1 in
          if decide (type (current this2) = CELL_REF) then
            match toCellAddress (value token) with
            | Returned start =>
                match toCellAddress (value (current this2)) with
                | Returned end_ => Parsed (RangeRef start end_) (advance this2)
                | Thrown e => Failed e
                end
            | Thrown e => Failed e
            end
          else Failed (Error "Expected cell reference after colon")
        else
          match toCellAddress (value token) with
          | Returned address => Parsed (CellRef address (mkFlags false false)) this1
          | Thrown e => Failed e
          end
    | FUNCTION =>
        run_expect LPAREN (advance this) (fun this1 =>
          if decide (type (current this1) = RPAREN) then
            run_expect RPAREN this1 (fun this2 => Parsed (FunctionCall (value token) []) this2)
          else
            match run_expression parseFloat 0 this1 with
            | Parsed arg this2 =>
                match run_arguments parseFloat [arg] this2 with
                | Parsed args this3 =>
                    run_expect RPAREN this3 (fun this4 =>
                      Parsed (FunctionCall (value token) args) this4)
                | Failed e => Failed e
                | CutOff => CutOff
                end
            | Failed e => Failed e
            | CutOff => CutOff
            end)
    | LPAREN =>
        match run_expression parseFloat 0 (advance this) with
        | Parsed expr this1 => run_expect RPAREN this1 (fun this2 => Parsed expr this2)
        | Failed e => Failed e
        | CutOff => CutOff
        end
    | OPERATOR =>
        if String.eqb (value token) "-" then
          match run_primary parseFloat (advance this) with
          | Parsed operand this1 => Parsed (UnaryOp operand) this1
          | Failed e => Failed e
          | CutOff => CutOff
          end
        else Failed (Error ("Unexpected token: " ++ value token))
    | _ => Failed (Error ("Unexpected token: " ++ value token))
    end.
Proof.
  unfold run_primary.
  replace (3 * remaining this + 2)%nat with (S (3 * remaining this + 1)) by lia.
  cbn [parsePrimary]. cbv zeta.
  destruct (type (current this)) eqn:Htype; try reflexivity.
  - pose proof (advance_remaining this ltac:(congruence)) as Hadv.
    apply run_expect_remaining; [discriminate |]. intros q Hq.
    destruct (decide (type (current q) = RPAREN)); [reflexivity |].
    rewrite run_expression_fuel by lia.
    pose proof (run_expression_finishes parseFloat 0 q) as Hfin.
    destruct (run_expression parseFloat 0 q) as [arg q2 | err |];
      [| reflexivity | reflexivity].
    simpl in Hfin. rewrite run_arguments_fuel by lia. reflexivity.
  - destruct (String.eqb (value (current this)) "-"); [| reflexivity].
    pose proof (advance_remaining this ltac:(congruence)) as Hadv.
    now rewrite run_primary_fuel by lia.
  - pose proof (advance_remaining this ltac:(congruence)) as Hadv.
    now rewrite run_expression_fuel by lia.
Qed.

End PrimaryRuns.

Section Characters.

Import Parsing.

(** The classes of characters the lexer tells apart do not overlap. *)
Lemma number_char_class (c : ascii) :
  is_number_char c = true ->
  is_space c = false /\ is_operator_char c = false /\ Ascii.eqb c "(" = false
  /\ Ascii.eqb c ")" = false /\ Ascii.eqb c "," = false /\ Ascii.eqb c ":" = false
  /\ Ascii.eqb c quote = false /\ is_letter c = false.
Proof.
  destruct c as [[] [] [] [] [] [] [] []]; intros H; vm_compute in H; try discriminate H;
    vm_compute; repeat split.
Qed.

Lemma letter_class (c : ascii) :
  is_letter c = true ->
  is_space c = false /\ is_operator_char c = false /\ Ascii.eqb c "(" = false
  /\ Ascii.eqb c ")" = false /\ Ascii.eqb c "," = false /\ Ascii.eqb c ":" = false
  /\ Ascii.eqb c quote = false /\ is_digit c = false /\ Ascii.eqb c "." = false.
Proof.
  destruct c as [[] [] [] [] [] [] [] []]; intros H; vm_compute in H; try discriminate H;
    vm_compute; repeat split.
Qed.

Lemma operator_char_class (c : ascii) :
  is_operator_char c = true ->
  is_space c = false /\ is_number_char c = false /\ is_letter c = false
  /\ is_digit c = false.
Proof.
  destruct c as [[] [] [] [] [] [] [] []]; intros H; vm_compute in H; try discriminate H;
    vm_compute; repeat split.
Qed.

Lemma boundary_stops (k : string) :
  boundary k = true ->
  stops is_number_char k /\ stops is_digit k /\ stops is_letter k /\ stops is_space k.
Proof.
  destruct k as [|c k]; [repeat split |]. unfold boundary. simpl. revert c.
  intros [[] [] [] [] [] [] [] []] H; vm_compute in H; try discriminate H;
    vm_compute; repeat split.
Qed.

Lemma upper_is_letter (c : ascii) : is_upper c = true -> is_letter c = true.
Proof. unfold is_letter. now intros ->. Qed.

Lemma upper_not_lower (c : ascii) : is_upper c = true -> is_lower c = false.
Proof.
  unfold is_upper, is_lower. intros H. apply andb_true_iff in H as [H1 H2].
  apply Z.leb_le in H2. apply andb_false_iff. left. apply Z.leb_gt. lia.
Qed.

Lemma toUpperCase_of_upper (s : string) :
  string_forall is_upper s = true -> toUpperCase s = s.
Proof.
  unfold toUpperCase. induction s as [|c s IH]; simpl; [reflexivity |].
  intros H. apply andb_true_iff in H as [Hc Hs].
  now rewrite (upper_not_lower c Hc), IH.
Qed.

End Characters.

Section TokensOfTexts.

Import Parsing.

Lemma advance_parser_at (k : string) (n : nat) (token : Token) :
  advance (mkParser (mkLexer k n) token) = parser_at n k.
Proof. reflexivity. Qed.

Lemma span_head_stops (p : ascii -> bool) (c : ascii) (s : string) :
  p c = false -> span p (String c s) = ("", String c s).
Proof. intros H. simpl. now rewrite H. Qed.

(** A number, before a text at which a token ends. *)
Lemma parser_at_number (n : nat) (text k : string) :
  number_text text = true -> boundary k = true ->
  exists n', parser_at n (text ++ k) = mkParser (mkLexer k n') (mkToken NUMBER text (n + 0)).
Proof.
  intros Hnum Hk. unfold number_text in Hnum. apply andb_true_iff in Hnum as [Hall Hhead].
  destruct text as [|c tl]; [discriminate |].
  pose proof Hall as Hall'. simpl in Hall'. apply andb_true_iff in Hall' as [Hc _].
  destruct (number_char_class c Hc) as (Hsp & Hop & Hlp & Hrp & Hcomma & Hcolon & Hq & Hl).
  destruct (boundary_stops k Hk) as (Hstop & _).
  unfold parser_at, nextToken. cbn [rest lexer_pos].
  change (String c tl ++ k) with (String c (tl ++ k)).
  rewrite (span_head_stops is_space c _ Hsp).
  rewrite Hop, Hlp, Hrp, Hcomma, Hcolon, Hq.
  assert (Hcond : is_digit c
                  || Ascii.eqb c "."
                     && match tl ++ k with String d _ => is_digit d | EmptyString => false end
                  = true).
  { destruct (is_digit c) eqn:Hd; [reflexivity |]. simpl in Hhead. simpl.
    unfold is_number_char in Hc. rewrite Hd in Hc. simpl in Hc. rewrite Hc. simpl.
    destruct tl as [|d tl']; [discriminate | exact Hhead]. }
  rewrite Hcond.
  change (String c (tl ++ k)) with (String c tl ++ k).
  rewrite (span_app is_number_char _ _ Hall Hstop). eexists. reflexivity.
Qed.

(** A string literal. *)
Lemma parser_at_string (n : nat) (s k : string) :
  quote_free s = true ->
  exists n', parser_at n (String quote (s ++ String quote "") ++ k)
             = mkParser (mkLexer k n') (mkToken STRING s (n + 0)).
Proof.
  intros Hfree. unfold parser_at, nextToken. cbn [rest lexer_pos].
  change (String quote (s ++ String quote "") ++ k)
    with (String quote ((s ++ String quote "") ++ k)).
  rewrite (span_head_stops is_space quote _ eq_refl).
  change (is_operator_char quote) with false. cbv iota.
  change (Ascii.eqb quote "(") with false. change (Ascii.eqb quote ")") with false.
  change (Ascii.eqb quote ",") with false. change (Ascii.eqb quote ":") with false.
  change (Ascii.eqb quote quote) with true. cbv iota.
  rewrite string_app_assoc.
  rewrite (span_app (fun c => negb (Ascii.eqb c quote)) s (String quote "" ++ k) Hfree eq_refl).
  eexists. reflexivity.
Qed.

(** The letters and digits of an address. *)
Lemma toCellAddress_parts (a a' : string) :
  toCellAddress a = Returned a' ->
  exists letters digits,
    a = letters ++ digits /\ a' = a
    /\ string_forall is_upper letters = true /\ is_empty letters = false
    /\ string_forall is_digit digits = true /\ is_empty digits = false.
Proof.
  unfold toCellAddress.
  destruct (span is_upper a) as [l s1] eqn:H1.
  destruct (span is_digit s1) as [d s2] eqn:H2.
  destruct (negb (is_empty l) && negb (is_empty d) && is_empty s2) eqn:Hok; [| discriminate].
  intros [= <-]. apply andb_true_iff in Hok as [Hok Hs2].
  apply andb_true_iff in Hok as [Hl Hd]. apply negb_true_iff in Hl, Hd.
  apply span_spec in H1 as (-> & Hup & _). apply span_spec in H2 as (-> & Hdig & _).
  destruct s2; [| discriminate]. rewrite string_app_empty_r.
  exists l, d. repeat split; assumption.
Qed.

(** An address, before a text that does not go on with a digit. *)
Lemma parser_at_address (n : nat) (a a' k : string) :
  toCellAddress a = Returned a' -> stops is_digit k ->
  exists n', parser_at n (a ++ k) = mkParser (mkLexer k n') (mkToken CELL_REF a (n + 0)).
Proof.
  intros Ha Hk.
  destruct (toCellAddress_parts a a' Ha) as (l & d & -> & _ & Hup & Hlne & Hdig & Hdne).
  destruct l as [|c l']; [discriminate |]. clear Hlne.
  pose proof Hup as Hup'. simpl in Hup'. apply andb_true_iff in Hup' as [Hc _].
  destruct (letter_class c (upper_is_letter c Hc))
    as (Hsp & Hop & Hlp & Hrp & Hcomma & Hcolon & Hq & Hd & Hdot).
  unfold parser_at, nextToken. cbn [rest lexer_pos].
  rewrite string_app_assoc.
  change (String c l' ++ d ++ k) with (String c (l' ++ d ++ k)).
  rewrite (span_head_stops is_space c _ Hsp).
  rewrite Hop, Hlp, Hrp, Hcomma, Hcolon, Hq, Hd, Hdot, (upper_is_letter c Hc).
  cbn [orb andb].
  change (String c (l' ++ d ++ k)) with (String c l' ++ d ++ k).
  assert (Hletters : string_forall is_letter (String c l') = true).
  { eapply string_forall_impl; [| exact Hup]. apply upper_is_letter. }
  destruct d as [|d0 d']; [discriminate |].
  pose proof Hdig as Hdig'. simpl in Hdig'. apply andb_true_iff in Hdig' as [Hd0 _].
  assert (Hstop : stops is_letter (String d0 d' ++ k)).
  { simpl. destruct (is_letter d0) eqn:Hl0; [| reflexivity].
    destruct (letter_class d0 Hl0) as (_ & _ & _ & _ & _ & _ & _ & Hn & _). congruence. }
  rewrite (span_app is_letter _ _ Hletters Hstop).
  change (String d0 d' ++ k) with (String d0 (d' ++ k)). cbv iota. rewrite Hd0.
  change (String d0 (d' ++ k)) with (String d0 d' ++ k).
  rewrite (span_app is_digit _ _ Hdig Hk).
  rewrite (toUpperCase_of_upper _ Hup). eexists. reflexivity.
Qed.

(** A function name before its parenthesis. *)
Lemma parser_at_function (n : nat) (name k : string) :
  is_empty name = false -> string_forall is_upper name = true ->
  exists n', parser_at n (name ++ String "(" k)
             = mkParser (mkLexer (String "(" k) n') (mkToken FUNCTION name (n + 0)).
Proof.
  intros Hne Hup. destruct name as [|c l']; [discriminate |].
  pose proof Hup as Hup'. simpl in Hup'. apply andb_true_iff in Hup' as [Hc _].
  destruct (letter_class c (upper_is_letter c Hc))
    as (Hsp & Hop & Hlp & Hrp & Hcomma & Hcolon & Hq & Hd & Hdot).
  unfold parser_at, nextToken. cbn [rest lexer_pos].
  change (String c l' ++ String "(" k) with (String c (l' ++ String "(" k)).
  rewrite (span_head_stops is_space c _ Hsp).
  rewrite Hop, Hlp, Hrp, Hcomma, Hcolon, Hq, Hd, Hdot, (upper_is_letter c Hc).
  cbn [orb andb].
  change (String c (l' ++ String "(" k)) with (String c l' ++ String "(" k).
  assert (Hletters : string_forall is_letter (String c l') = true).
  { eapply string_forall_impl; [| exact Hup]. apply upper_is_letter. }
  rewrite (span_app is_letter _ (String "(" k) Hletters eq_refl).
  change (is_digit "(") with false. change (Ascii.eqb "(" "(") with true. cbv iota.
  rewrite (toUpperCase_of_upper _ Hup). eexists. reflexivity.
Qed.

(** An operator, before a text that does not make it a longer one. *)
Lemma parser_at_operator (n : nat) (op : BinOp) (k : string) :
  primary_start k = true ->
  exists n', parser_at n (op_text op ++ k)
             = mkParser (mkLexer k n') (mkToken OPERATOR (op_text op) (n + 0)).
Proof.
  intros Hk. destruct k as [|c k']; [discriminate |].
  assert (Hc : Ascii.eqb c "=" = false /\ Ascii.eqb c ">" = false).
  { unfold primary_start in Hk. revert Hk. clear.
    destruct c as [[] [] [] [] [] [] [] []]; intros H; vm_compute in H; try discriminate H;
      split; reflexivity. }
  destruct Hc as [Heq Hgt].
  unfold parser_at, nextToken. cbn [rest lexer_pos].
  destruct op; simpl; unfold completes; simpl; rewrite ?Heq, ?Hgt; simpl;
    eexists; reflexivity.
Qed.

(** The four tokens of one character. *)
Lemma parser_at_lparen (n : nat) (k : string) :
  exists n', parser_at n (String "(" k) = mkParser (mkLexer k n') (mkToken LPAREN "(" (n + 0)).
Proof. eexists. reflexivity. Qed.

Lemma parser_at_rparen (n : nat) (k : string) :
  exists n', parser_at n (String ")" k) = mkParser (mkLexer k n') (mkToken RPAREN ")" (n + 0)).
Proof. eexists. reflexivity. Qed.

Lemma parser_at_comma (n : nat) (k : string) :
  exists n', parser_at n (String "," k) = mkParser (mkLexer k n') (mkToken COMMA "," (n + 0)).
Proof. eexists. reflexivity. Qed.

Lemma parser_at_colon (n : nat) (k : string) :
  exists n', parser_at n (String ":" k) = mkParser (mkLexer k n') (mkToken COLON ":" (n + 0)).
Proof. eexists. reflexivity. Qed.

(** The token before which a token ends is no colon and no opening
    parenthesis. *)
Lemma boundary_token (n : nat) (k : string) :
  boundary k = true ->
  type (current (parser_at n k)) = EOF \/ type (current (parser_at n k)) = OPERATOR
  \/ type (current (parser_at n k)) = RPAREN \/ type (current (parser_at n k)) = COMMA.
Proof.
  destruct k as [|c k']; [now left |]. unfold boundary. intros H.
  apply orb_true_iff in H as [H | H]; [apply orb_true_iff in H as [H | H] |].
  - right. left. destruct (operator_char_class c H) as (Hsp & _).
    unfold parser_at, nextToken. cbn [rest lexer_pos].
    rewrite (span_head_stops is_space c _ Hsp), H.
    destruct k' as [|d k'']; [reflexivity |]. destruct (completes c d); reflexivity.
  - apply Ascii.eqb_eq in H as ->. right. right. now left.
  - apply Ascii.eqb_eq in H as ->. right. right. now right.
Qed.

End TokensOfTexts.

Section SourceInduction.

Context (P : Source -> Prop).
Hypothesis Hnumber : forall text, P (SNumber text).
Hypothesis Hstring : forall s, P (SString s).
Hypothesis Href : forall address, P (SRef address).
Hypothesis Hrange : forall start end_, P (SRange start end_).
Hypothesis Hcall : forall name args, Forall P args -> P (SCall name args).
Hypothesis Hbinary : forall op lhs rhs, P lhs -> P rhs -> P (SBinary op lhs rhs).
Hypothesis Hnegate : forall operand, P operand -> P (SNegate operand).

(** Induction on formulas, through the arguments of the calls. *)
Fixpoint Source_nested_ind (e : Source) : P e :=
  match e with
  | SNumber text => Hnumber text
  | SString s => Hstring s
  | SRef address => Href address
  | SRange start end_ => Hrange start end_
  | SCall name args =>
      Hcall name args
        ((fix go (l : list Source) : Forall P l :=
            match l with
            | [] => Forall_nil_2 P
            | x :: l' => Forall_cons_2 P x l' (Source_nested_ind x) (go l')
            end) args)
  | SBinary op lhs rhs => Hbinary op lhs rhs (Source_nested_ind lhs) (Source_nested_ind rhs)
  | SNegate operand => Hnegate operand (Source_nested_ind operand)
  end.

End SourceInduction.

Section Levels.

Import Parsing.

Lemma level_of_bounds (op : BinOp) : 1 <= level_of op < primary_level.
Proof. destruct op; vm_compute; split; congruence. Qed.

Lemma operator_op_text (op : BinOp) : operator (op_text op) = Some op.
Proof. now destruct op. Qed.

Lemma op_text_boundary (op : BinOp) (k : string) : boundary (op_text op ++ k) = true.
Proof. now destruct op. Qed.

Lemma text_of_primary_start (e : Source) (level : Z) (k : string) :
  source_ok e = true -> primary_start (text_of level e ++ k) = true.
Proof.
  revert level k.
  induction e as [text | s | address | start end_ | name args | op lhs IHl rhs _ | operand _];
    intros level k Hok; simpl in Hok.
  - unfold number_text in Hok. apply andb_true_iff in Hok as [Hall Hhead].
    destruct text as [|c tl]; [discriminate Hhead |].
    simpl in Hall. apply andb_true_iff in Hall as [Hc _]. simpl. now rewrite Hc.
  - reflexivity.
  - destruct (toCellAddress address) as [a' |] eqn:Ha; [| discriminate].
    destruct (toCellAddress_parts _ _ Ha) as (l & d & -> & _ & Hup & Hlne & _).
    destruct l as [|c l']; [discriminate |]. simpl in Hup.
    apply andb_true_iff in Hup as [Hc _]. simpl.
    now rewrite (upper_is_letter c Hc), !orb_true_r.
  - destruct (toCellAddress start) as [a' |] eqn:Ha; [| discriminate].
    destruct (toCellAddress_parts _ _ Ha) as (l & d & -> & _ & Hup & Hlne & _).
    destruct l as [|c l']; [discriminate |]. simpl in Hup.
    apply andb_true_iff in Hup as [Hc _]. simpl.
    now rewrite (upper_is_letter c Hc), !orb_true_r.
  - apply andb_true_iff in Hok as [Hok _]. apply andb_true_iff in Hok as [Hne Hup].
    destruct name as [|c l']; [discriminate |]. simpl in Hup.
    apply andb_true_iff in Hup as [Hc _]. simpl.
    now rewrite (upper_is_letter c Hc), !orb_true_r.
  - apply andb_true_iff in Hok as [Hl _]. cbn [text_of].
    destruct (level_of op <? level); [reflexivity |].
    rewrite string_app_assoc. now apply IHl.
  - reflexivity.
Qed.

Lemma closes_mono (level level' : Z) (k : string) :
  level <= level' -> closes level k -> closes level' k.
Proof.
  intros Hle [Hb Hop]. split; [exact Hb |]. intros n Hn. specialize (Hop n Hn). lia.
Qed.

Lemma closes_rparen (level : Z) (k : string) : closes level (String ")" k).
Proof. split; [reflexivity |]. intros n H. discriminate H. Qed.

Lemma closes_comma (level : Z) (k : string) : closes level (String "," k).
Proof. split; [reflexivity |]. intros n H. discriminate H. Qed.

Lemma closes_end (level : Z) : closes level "".
Proof. split; [reflexivity |]. intros n H. discriminate H. Qed.

Lemma closes_operator (op : BinOp) (k : string) :
  primary_start k = true -> closes (level_of op) (op_text op ++ k).
Proof.
  intros Hk. split; [apply op_text_boundary |]. intros n _.
  destruct (parser_at_operator n op k Hk) as [n' ->]. simpl. unfold level_of. lia.
Qed.

Context (parseFloat : string -> float).

(** Before a text that closes a lower level the loop over the operators
    stops. *)
Lemma run_operators_closes (level m : Z) (lhs : FormulaAst) (n : nat) (k : string) :
  closes level k -> level < m ->
  run_operators parseFloat m lhs (parser_at n k) = Parsed lhs (parser_at n k).
Proof.
  intros [_ Hop] Hlt. rewrite run_operators_eq.
  destruct (decide (type (current (parser_at n k)) = OPERATOR)) as [H | H]; [| reflexivity].
  specialize (Hop n H).
  destruct (Z.ltb_spec (PRECEDENCE (value (current (parser_at n k)))) m); [reflexivity | lia].
Qed.

End Levels.

Section Unparse.

Import Parsing.

Context (parseFloat : string -> float).

(** Read where an expression of level [m] is asked, the text of [e]
    written at a level from [m] on leaves the parser in the loop over the
    operators with the tree of [e] in hand. *)
Let expression_ok (e : Source) : Prop :=
  source_ok e = true -> forall level m n k, m <= level -> closes level k ->
  exists n', run_expression parseFloat m (parser_at n (text_of level e ++ k))
             = run_operators parseFloat m (tree_of parseFloat e) (parser_at n' k).

(** Read where a primary is asked, the text of [e] written as a primary
    gives the tree of [e]. *)
Let primary_ok (e : Source) : Prop :=
  source_ok e = true -> forall n k, boundary k = true ->
  exists n', run_primary parseFloat (parser_at n (text_of primary_level e ++ k))
             = Parsed (tree_of parseFloat e) (parser_at n' k).

Lemma expression_of_primary (e : Source) (level : Z) :
  primary_ok e -> text_of level e = text_of primary_level e ->
  source_ok e = true -> forall m n k, closes level k ->
  exists n', run_expression parseFloat m (parser_at n (text_of level e ++ k))
             = run_operators parseFloat m (tree_of parseFloat e) (parser_at n' k).
Proof.
  intros Hprim Heq Hok m n k [Hk _]. destruct (Hprim Hok n k Hk) as [n' Hp].
  exists n'. now rewrite Heq, run_expression_eq, Hp.
Qed.

Lemma primary_number (text : string) : primary_ok (SNumber text).
Proof.
  intros Hok n k Hk. simpl in Hok.
  destruct (parser_at_number n text k Hok Hk) as [n1 Hat]. exists n1.
  cbn [text_of]. rewrite Hat, run_primary_eq. reflexivity.
Qed.

Lemma primary_string (s : string) : primary_ok (SString s).
Proof.
  intros Hok n k Hk. simpl in Hok.
  destruct (parser_at_string n s k Hok) as [n1 Hat]. exists n1.
  cbn [text_of]. rewrite Hat, run_primary_eq. reflexivity.
Qed.

Lemma boundary_not_colon (n : nat) (k : string) :
  boundary k = true -> type (current (parser_at n k)) <> COLON.
Proof.
  intros Hk. destruct (boundary_token n k Hk) as [H | [H | [H | H]]]; congruence.
Qed.

Lemma primary_ref (address : string) : primary_ok (SRef address).
Proof.
  intros Hok n k Hk. simpl in Hok.
  destruct (toCellAddress address) as [a' |] eqn:Ha; [| discriminate].
  pose proof (toCellAddress_characters _ _ Ha) as (-> & _).
  destruct (boundary_stops k Hk) as (_ & Hdigit & _).
  destruct (parser_at_address n address address k Ha Hdigit) as [n1 Hat]. exists n1.
  cbn [text_of]. rewrite Hat, run_primary_eq. cbv zeta. cbn [current type value].
  rewrite advance_parser_at.
  destruct (decide (type (current (parser_at n1 k)) = COLON)) as [Hc | _].
  { now apply boundary_not_colon in Hc. }
  now rewrite Ha.
Qed.

Lemma primary_range (start end_ : string) : primary_ok (SRange start end_).
Proof.
  intros Hok n k Hk. simpl in Hok.
  destruct (toCellAddress start) as [a' |] eqn:Ha; [| discriminate].
  destruct (toCellAddress end_) as [b' |] eqn:Hb; [| discriminate].
  pose proof (toCellAddress_characters _ _ Ha) as (-> & _).
  pose proof (toCellAddress_characters _ _ Hb) as (-> & _).
  destruct (boundary_stops k Hk) as (_ & Hdigit & _).
  cbn [text_of]. rewrite string_app_assoc.
  change (":" ++ end_) with (String ":" end_).
  change (String ":" end_ ++ k) with (String ":" (end_ ++ k)).
  destruct (parser_at_address n start start (String ":" (end_ ++ k)) Ha eq_refl)
    as [n1 Hat1].
  destruct (parser_at_colon n1 (end_ ++ k)) as [n2 Hat2].
  destruct (parser_at_address n2 end_ end_ k Hb Hdigit) as [n3 Hat3].
  exists n3. rewrite Hat1, run_primary_eq. cbv zeta. cbn [current type value].
  rewrite advance_parser_at, Hat2. cbn [current type value].
  rewrite advance_parser_at, Hat3. cbn [current type value].
  destruct (decide (COLON = COLON)) as [_ | Hne]; [| congruence].
  destruct (decide (CELL_REF = CELL_REF)) as [_ | Hne]; [| congruence].
  now rewrite Ha, Hb.
Qed.

Lemma primary_negate (operand : Source) : primary_ok operand -> primary_ok (SNegate operand).
Proof.
  intros IH Hok n k Hk. simpl in Hok. cbn [text_of]. rewrite string_app_assoc.
  destruct (parser_at_operator n Sub (text_of primary_level operand ++ k)
              (text_of_primary_start _ _ _ Hok)) as [n1 Hat].
  destruct (IH Hok n1 k Hk) as [n2 Hx]. exists n2.
  change ("-" ++ text_of primary_level operand ++ k)
    with (op_text Sub ++ text_of primary_level operand ++ k).
  rewrite Hat, run_primary_eq. cbv zeta. cbn [current type value op_text].
  rewrite String.eqb_refl, advance_parser_at, Hx. reflexivity.
Qed.

(** A binary operation without parentheses around it. *)
Lemma binary_unparenthesised (op : BinOp) (lhs rhs : Source) :
  expression_ok lhs -> expression_ok rhs ->
  source_ok lhs = true -> source_ok rhs = true ->
  forall m n k, m <= level_of op -> closes (level_of op) k ->
  exists n',
    run_expression parseFloat m
      (parser_at n ((text_of (level_of op) lhs ++ op_text op
                     ++ text_of (level_of op + 1) rhs) ++ k))
    = run_operators parseFloat m
        (BinaryOp op (tree_of parseFloat lhs) (tree_of parseFloat rhs)) (parser_at n' k).
Proof.
  intros IHl IHr Hl Hr m n k Hm Hk.
  rewrite !string_app_assoc.
  pose proof (text_of_primary_start rhs (level_of op + 1) k Hr) as Hstart.
  destruct (IHl Hl (level_of op) m n (op_text op ++ text_of (level_of op + 1) rhs ++ k) Hm
              (closes_operator op _ Hstart)) as [n1 H1].
  destruct (parser_at_operator n1 op _ Hstart) as [n2 H2].
  destruct (IHr Hr (level_of op + 1) (level_of op + 1) n2 k ltac:(lia)
              (closes_mono (level_of op) (level_of op + 1) k ltac:(lia) Hk)) as [n3 H3].
  exists n3. rewrite H1, run_operators_eq, H2. cbn [current type value].
  destruct (decide (OPERATOR = OPERATOR)) as [_ | Hne]; [| congruence].
  fold (level_of op).
  destruct (Z.ltb_spec (level_of op) m); [lia |].
  rewrite advance_parser_at, H3.
  rewrite (run_operators_closes parseFloat (level_of op) (level_of op + 1)) by (assumption || lia).
  now rewrite operator_op_text.
Qed.

Lemma primary_binary (op : BinOp) (lhs rhs : Source) :
  expression_ok lhs -> expression_ok rhs -> primary_ok (SBinary op lhs rhs).
Proof.
  intros IHl IHr Hok n k Hk. simpl in Hok. apply andb_true_iff in Hok as [Hl Hr].
  cbn [text_of]. pose proof (level_of_bounds op) as Hb.
  destruct (Z.ltb_spec (level_of op) primary_level); [| lia].
  unfold parenthesised. rewrite !string_app_assoc.
  change ("(" ++ text_of (level_of op) lhs ++ op_text op ++ text_of (level_of op + 1) rhs
          ++ ")" ++ k)
    with (String "(" (text_of (level_of op) lhs ++ op_text op
                      ++ text_of (level_of op + 1) rhs ++ String ")" k)).
  destruct (parser_at_lparen n (text_of (level_of op) lhs ++ op_text op
                                ++ text_of (level_of op + 1) rhs ++ String ")" k))
    as [n1 H1].
  destruct (binary_unparenthesised op lhs rhs IHl IHr Hl Hr 0 n1 (String ")" k)
              ltac:(lia) (closes_rparen _ k)) as [n2 H2].
  rewrite !string_app_assoc in H2.
  destruct (parser_at_rparen n2 k) as [n3 H3].
  exists n3. rewrite H1, run_primary_eq. cbv zeta. cbn [current type value].
  rewrite advance_parser_at, H2.
  rewrite (run_operators_closes parseFloat (-1) 0) by (apply closes_rparen || lia).
  unfold run_expect, expect. rewrite H3. cbn [current type].
  destruct (decide (RPAREN = RPAREN)) as [_ | Hne]; [| congruence].
  now rewrite advance_parser_at.
Qed.

Lemma concat_more_arguments (arg : Source) (args : list Source) :
  String.concat "," (List.map (text_of 0) (arg :: args))
  = text_of 0 arg ++ more_arguments args.
Proof.
  revert arg. induction args as [|b args IH]; intros arg.
  - simpl. now rewrite string_app_empty_r.
  - change (String.concat "," (List.map (text_of 0) (arg :: b :: args)))
      with (text_of 0 arg ++ "," ++ String.concat "," (List.map (text_of 0) (b :: args))).
    now rewrite IH.
Qed.

Lemma closes_more_arguments (level : Z) (args : list Source) (k : string) :
  closes level (more_arguments args ++ String ")" k).
Proof.
  destruct args as [|b args]; [apply closes_rparen |].
  cbn [more_arguments foldr]. rewrite string_app_assoc. apply closes_comma.
Qed.

(** The arguments after the first. *)
Lemma arguments_ok (args : list Source) :
  Forall expression_ok args -> forallb source_ok args = true ->
  forall acc n k,
  exists n',
    run_arguments parseFloat acc (parser_at n (more_arguments args ++ String ")" k))
    = Parsed (acc ++ List.map (tree_of parseFloat) args)%list (parser_at n' (String ")" k)).
Proof.
  induction args as [|b args IH]; intros Hall Hok acc n k.
  - exists n. simpl. rewrite app_nil_r, run_arguments_eq.
    destruct (decide (type (current (parser_at n (String ")" k))) = COMMA)) as [H | _];
      [discriminate H | reflexivity].
  - apply Forall_cons in Hall as [Hb Hall]. simpl in Hok.
    apply andb_true_iff in Hok as [Hbok Hok].
    cbn [more_arguments foldr]. fold (more_arguments args).
    rewrite !string_app_assoc.
    change ("," ++ text_of 0 b ++ more_arguments args ++ String ")" k)
      with (String "," (text_of 0 b ++ more_arguments args ++ String ")" k)).
    destruct (parser_at_comma n (text_of 0 b ++ more_arguments args ++ String ")" k))
      as [n1 H1].
    destruct (Hb Hbok 0 0 n1 (more_arguments args ++ String ")" k) ltac:(lia)
                (closes_more_arguments 0 args k)) as [n2 H2].
    destruct (IH Hall Hok (acc ++ [tree_of parseFloat b])%list n2 k) as [n3 H3].
    exists n3. rewrite run_arguments_eq, H1. cbn [current type].
    destruct (decide (COMMA = COMMA)) as [_ | Hne]; [| congruence].
    rewrite advance_parser_at, H2.
    rewrite (run_operators_closes parseFloat (-1) 0)
      by (apply closes_more_arguments || lia).
    rewrite H3. cbn [List.map]. now rewrite <- app_assoc.
Qed.

Lemma primary_start_not_rparen (n : nat) (s : string) :
  primary_start s = true -> type (current (parser_at n s)) <> RPAREN.
Proof.
  destruct s as [|c s']; [discriminate |]. unfold primary_start. intros Hc Htype.
  assert (Hclass : is_space c = false /\ Ascii.eqb c ")" = false).
  { revert Hc. clear. destruct c as [[] [] [] [] [] [] [] []]; intros H; vm_compute in H;
      try discriminate H; split; reflexivity. }
  destruct Hclass as [Hsp Hrp].
  unfold parser_at, nextToken in Htype. cbn [rest lexer_pos] in Htype.
  rewrite (span_head_stops is_space c _ Hsp), Hrp in Htype.
  destruct (is_operator_char c).
  { destruct s' as [|d s'']; [discriminate |]. destruct (completes c d); discriminate. }
  destruct (Ascii.eqb c "("); [discriminate |].
  destruct (Ascii.eqb c ","); [discriminate |].
  destruct (Ascii.eqb c ":"); [discriminate |].
  destruct (Ascii.eqb c quote).
  { destruct (span (fun x => negb (Ascii.eqb x quote)) s') as [text s2].
    destruct s2; discriminate. }
  destruct (is_digit c
            || Ascii.eqb c "."
               && match s' with String d _ => is_digit d | EmptyString => false end).
  { destruct (span is_number_char (String c s')); discriminate. }
  destruct (is_letter c); [| discriminate].
  destruct (span is_letter (String c s')) as [letters s2].
  destruct s2 as [|d s2']; [discriminate |].
  destruct (is_digit d).
  - destruct (span is_digit (String d s2')); discriminate.
  - destruct (Ascii.eqb d "("); discriminate.
Qed.

Lemma primary_call (name : string) (args : list Source) :
  Forall expression_ok args -> primary_ok (SCall name args).
Proof.
  intros Hall Hok n k Hk. simpl in Hok.
  apply andb_true_iff in Hok as [Hok Hargs]. apply andb_true_iff in Hok as [Hne Hup].
  apply negb_true_iff in Hne.
  cbn [text_of]. unfold parenthesised. rewrite !string_app_assoc.
  set (inner := String.concat "," (List.map (text_of 0) args)).
  change ("(" ++ inner ++ ")" ++ k) with (String "(" (inner ++ String ")" k)).
  destruct (parser_at_function n name (inner ++ String ")" k) Hne Hup) as [n1 H1].
  destruct (parser_at_lparen n1 (inner ++ String ")" k)) as [n2 H2].
  rewrite H1, run_primary_eq. cbv zeta. cbn [current type value].
  rewrite advance_parser_at. unfold run_expect at 1. unfold expect. rewrite H2.
  cbn [current type]. destruct (decide (LPAREN = LPAREN)) as [_ | Hne']; [| congruence].
  rewrite advance_parser_at. subst inner.
  destruct args as [|arg args].
  - simpl String.concat. change ("" ++ String ")" k) with (String ")" k).
    destruct (parser_at_rparen n2 k) as [n3 H3]. exists n3.
    destruct (decide (type (current (parser_at n2 (String ")" k))) = RPAREN)) as [_ | Hn];
      [| now contradiction Hn].
    unfold run_expect, expect. rewrite H3. cbn [current type].
    destruct (decide (RPAREN = RPAREN)) as [_ | Hne']; [| congruence].
    now rewrite advance_parser_at.
  - apply Forall_cons in Hall as [Harg Hall]. simpl in Hargs.
    apply andb_true_iff in Hargs as [Hargok Hargs].
    rewrite concat_more_arguments, string_app_assoc.
    destruct (decide (type (current (parser_at n2 (text_of 0 arg ++ more_arguments args
                                                   ++ String ")" k))) = RPAREN))
      as [Hr | _].
    { exfalso. revert Hr. apply primary_start_not_rparen.
      now apply text_of_primary_start. }
    destruct (Harg Hargok 0 0 n2 (more_arguments args ++ String ")" k) ltac:(lia)
                (closes_more_arguments 0 args k)) as [n3 H3].
    destruct (arguments_ok args Hall Hargs [tree_of parseFloat arg] n3 k) as [n4 H4].
    destruct (parser_at_rparen n4 k) as [n5 H5]. exists n5.
    rewrite H3.
    rewrite (run_operators_closes parseFloat (-1) 0)
      by (apply closes_more_arguments || lia).
    rewrite H4. unfold run_expect, expect. rewrite H5. cbn [current type].
    destruct (decide (RPAREN = RPAREN)) as [_ | Hne']; [| congruence].
    now rewrite advance_parser_at.
Qed.

(** Every formula is read back, as an expression and as a primary. *)
Lemma source_read_back (e : Source) : expression_ok e /\ primary_ok e.
Proof.
  revert e. apply (Source_nested_ind (fun e => expression_ok e /\ primary_ok e)).
  - intros text. split; [| apply primary_number]. intros Hok level m n k _ Hk.
    now apply expression_of_primary; [apply primary_number | | |].
  - intros s. split; [| apply primary_string]. intros Hok level m n k _ Hk.
    now apply expression_of_primary; [apply primary_string | | |].
  - intros address. split; [| apply primary_ref]. intros Hok level m n k _ Hk.
    now apply expression_of_primary; [apply primary_ref | | |].
  - intros start end_. split; [| apply primary_range]. intros Hok level m n k _ Hk.
    now apply expression_of_primary; [apply primary_range | | |].
  - intros name args IH.
    assert (Hall : Forall expression_ok args).
    { eapply Forall_impl; [exact IH |]. now intros x [Hx _]. }
    split; [| now apply primary_call]. intros Hok level m n k _ Hk.
    now apply expression_of_primary; [apply primary_call | | |].
  - intros op lhs rhs [IHl _] [IHr _].
    split; [| now apply primary_binary]. intros Hok level m n k Hm Hk.
    destruct (Z.ltb_spec (level_of op) level) as [Hlt | Hge].
    + apply expression_of_primary; [now apply primary_binary | | exact Hok | exact Hk].
      cbn [text_of]. pose proof (level_of_bounds op).
      destruct (Z.ltb_spec (level_of op) level); [| lia].
      destruct (Z.ltb_spec (level_of op) primary_level); [reflexivity | lia].
    + cbn [text_of tree_of]. destruct (Z.ltb_spec (level_of op) level); [lia |].
      simpl in Hok. apply andb_true_iff in Hok as [Hl Hr].
      apply binary_unparenthesised; try assumption; [lia |].
      now apply (closes_mono level).
  - intros operand [_ IHo].
    split; [| now apply primary_negate]. intros Hok level m n k _ Hk.
    now apply expression_of_primary; [apply primary_negate | | |].
Qed.

End Unparse.

(** X22. The grammar the parser reads. For every formula whose numbers
    are runs of digits and dots, whose strings have no quote, whose
    addresses [toCellAddress] accepts and whose function names are capital
    letters, [parseFormula] on the text of the formula, written with no
    more parentheses than needed, returns the tree of the formula. So
    of two operators the one of higher level binds tighter, operators of
    one level group from the left (the power operator too), and a unary
    minus binds tighter than every binary operator. *)
Theorem parseFormula_text_of (parseFloat : string -> float) (e : Source) :
  source_ok e = true ->
  Parsing.parseFormula parseFloat ("=" ++ text_of 0 e)
  = Some (Returned (tree_of parseFloat e)).
Proof.
  intros Hok. unfold Parsing.parseFormula, Parsing.parse.
  pose proof (new_Parser_remaining ("=" ++ text_of 0 e)) as Hnew.
  rewrite run_expression_fuel by lia.
  change (Parsing.new_Parser ("=" ++ text_of 0 e)) with (parser_at 0 (text_of 0 e)).
  destruct (source_read_back parseFloat e) as [Hexpr _].
  destruct (Hexpr Hok 0 0 0%nat "" ltac:(lia) (closes_end 0)) as [n' H].
  rewrite string_app_empty_r in H. rewrite H.
  rewrite (run_operators_closes parseFloat (-1) 0) by (apply closes_end || lia).
  reflexivity.
Qed.

Lemma parseFormula_text_of_witness :
  Parsing.parseFormula (fun _ => 2%float) "=A1^2^-(.5+B2)"
  = Some (Returned
            (BinaryOp Pow (BinaryOp Pow (CellRef "A1" relative) (NumberLiteral 2))
               (UnaryOp (BinaryOp Add (NumberLiteral 2) (CellRef "B2" relative))))).
Proof.
  apply (parseFormula_text_of (fun _ => 2%float)
           (SBinary Pow (SBinary Pow (SRef "A1") (SNumber "2"))
              (SNegate (SBinary Add (SNumber ".5") (SRef "B2"))))).
  reflexivity.
Defined.
